(** * spotify-lambda: the time-taken updater and the fetcher's duration text

    A shallow embedding of [SpotifyTimeTakenUpdater.py] and of
    [spotify-lambda-fetcher.py].

    Conventions of the embedding
    - a Python [str] is a [string]; its characters are read as the code
      points 0..255;
    - a Python [int] is a [Z].  The float produced by
      [timedelta.total_seconds()] is always a whole number of seconds of
      magnitude below 2^53 here (the timestamps have second precision and
      lie between the years 1 and 9999), so [min], [//] and [%] on it are
      exact and it is a [Z] as well;
    - a MongoDB document (a Python [dict]) is a [gmap string value];
    - the collection is the list of its documents in the order in which
      [find().sort("played_at", -1)] returns them;
    - exceptions are values of type [exn], each with what [str(e)] shows
      of it; code that may raise returns [result A = exn + A].  The
      messages of the built-in exceptions are those of CPython 3.11.
    The interpreter's configurable cap on the number of digits of an
    int/str conversion is not modelled: integers are unbounded. *)

From stdpp Require Import gmap strings list fin_maps pretty.
From Stdlib Require Import ZArith Ascii String.

Local Open Scope Z_scope.

(** ** Exceptions and results *)

Inductive exn :=
  | KeyError (key : string)
  | IndexError (msg : string)
  | ValueError (msg : string)
  | TypeError (msg : string)
  | AttributeError (msg : string)
  | PyMongoError (msg : string).

Definition result (A : Type) : Type := exn + A.

Definition ok {A} (a : A) : result A := inr a.
Definition raise {A} (e : exn) : result A := inl e.

Definition bind {A B} (m : result A) (k : A → result B) : result B :=
  match m with
  | inl e => inl e
  | inr a => k a
  end.

Notation "x ←! m ; k" := (bind m (λ x, k))
  (at level 100, m at next level, right associativity,
   format "x  ←!  m ;  '/' k").

(** ** Python text primitives *)

Module Py.

Definition code (c : ascii) : N := N_of_ascii c.

(** The ASCII decimal digits, the only characters below 256 that [int]
    and the regular expression class [\d] accept as digits. *)
Definition digit (c : ascii) : option Z :=
  let n := code c in
  if ((48 <=? n) && (n <=? 57))%N then Some (Z.of_N n - 48) else None.

Definition is_digit (c : ascii) : bool :=
  match digit c with Some _ => true | None => false end.

(** Whitespace skipped by [int(str)]: TAB..CR, space, NEL and NBSP. *)
Definition int_space (c : ascii) : bool :=
  let n := code c in
  (((9 <=? n) && (n <=? 13)) || (n =? 32) || (n =? 133) || (n =? 160))%N.

(** Whitespace of the regular expression class [\s] on [str]. *)
Definition re_space (c : ascii) : bool :=
  let n := code c in
  (((9 <=? n) && (n <=? 13)) || ((28 <=? n) && (n <=? 32))
   || (n =? 133) || (n =? 160))%N.

Fixpoint all_chars (p : ascii → bool) (s : string) : bool :=
  match s with
  | EmptyString => true
  | String c r => p c && all_chars p r
  end.

Fixpoint lstrip (s : string) : string :=
  match s with
  | String c r => if int_space c then lstrip r else s
  | EmptyString => EmptyString
  end.

(** The digits of an [int] literal: single underscores are allowed
    between digits, whitespace is allowed after the last digit.
    [prev] tells whether the previous character was a digit. *)
Fixpoint int_digits (acc : Z) (prev : bool) (s : string) : option Z :=
  match s with
  | EmptyString => if prev then Some acc else None
  | String c r =>
      match digit c with
      | Some d => int_digits (10 * acc + d) true r
      | None =>
          if prev && bool_decide (c = "_"%char) then int_digits acc false r
          else if prev && all_chars int_space s then Some acc
          else None
      end
  end.

Definition apostrophe : ascii := "'"%char.
Definition double_quote : ascii := "034"%char.
Definition backslash : ascii := "\"%char.

(** [c.isprintable()] for a character below 256. *)
Definition printable (c : ascii) : bool :=
  let n := code c in
  (((32 <=? n) && (n <=? 126)) || ((161 <=? n) && negb (n =? 173)))%N.

Definition hex_digit (n : N) : ascii :=
  match n with
  | 0 => "0" | 1 => "1" | 2 => "2" | 3 => "3" | 4 => "4" | 5 => "5"
  | 6 => "6" | 7 => "7" | 8 => "8" | 9 => "9" | 10 => "a" | 11 => "b"
  | 12 => "c" | 13 => "d" | 14 => "e" | _ => "f"
  end%N%char.

(** How [repr] writes one character between the quotes [quote]. *)
Definition escape (quote c : ascii) : string :=
  let n := code c in
  if bool_decide (c = quote) || bool_decide (c = backslash) then
    String backslash (String c EmptyString)
  else if (n =? 9)%N then String backslash "t"
  else if (n =? 10)%N then String backslash "n"
  else if (n =? 13)%N then String backslash "r"
  else if printable c then String c EmptyString
  else
    String backslash
      (String "x" (String (hex_digit (n / 16))
                     (String (hex_digit (n mod 16)) EmptyString))).

Fixpoint escaped (quote : ascii) (s : string) : string :=
  match s with
  | EmptyString => EmptyString
  | String c r => escape quote c +:+ escaped quote r
  end.

(** [repr(s)] for a [str]: between apostrophes, or between double quotes
    when the text has an apostrophe and no double quote. *)
Definition repr (s : string) : string :=
  let has c := negb (all_chars (λ x, negb (bool_decide (x = c))) s) in
  let quote :=
    if has apostrophe && negb (has double_quote) then double_quote
    else apostrophe in
  String quote (escaped quote s +:+ String quote EmptyString).

(** [int(s)] for a [str] argument, base 10.  The message of the error
    shows at most 200 characters of [repr(s)]. *)
Definition int (s : string) : result Z :=
  let body :=
    match lstrip s with
    | String c r =>
        if bool_decide (c = "-"%char) then Z.opp <$> int_digits 0 false r
        else if bool_decide (c = "+"%char) then int_digits 0 false r
        else int_digits 0 false (String c r)
    | EmptyString => None
    end in
  match body with
  | Some z => ok z
  | None =>
      raise (ValueError ("invalid literal for int() with base 10: "
                         +:+ substring 0 200 (repr s)))
  end.

(** [str(z)] for an [int]. *)
Definition str (z : Z) : string := pretty z.

Fixpoint zeros (n : nat) : string :=
  match n with
  | O => EmptyString
  | S k => String "0" (zeros k)
  end.

(** [s.zfill(width)]: pad with zeros on the left, after a leading sign. *)
Definition zfill (width : nat) (s : string) : string :=
  let fill := zeros (width - String.length s) in
  match s with
  | String c r =>
      if bool_decide (c = "-"%char) || bool_decide (c = "+"%char)
      then String c (fill +:+ r)
      else fill +:+ s
  | EmptyString => fill
  end.

(** [f"{z:02}"] for an [int]: sign-aware zero padding to width two,
    which on the text of an integer is [zfill(2)]. *)
Definition fmt02 (z : Z) : string := zfill 2 (str z).

(** [s.split(":")] *)
Fixpoint split_colon (s : string) : list string :=
  match s with
  | EmptyString => [EmptyString]
  | String c r =>
      if bool_decide (c = ":"%char) then EmptyString :: split_colon r
      else match split_colon r with
           | h :: t => String c h :: t
           | [] => [String c EmptyString]
           end
  end.

End Py.

(** ** Regular expressions, as far as [strptime] needs them *)

Module Re.

Inductive re :=
  | Cls (p : ascii → bool)
  | Seq (a b : re)
  | Alt (a b : re)
  | Plus (p : ascii → bool).

(** Greedy [p+]: the longest run first, then the shorter ones. *)
Fixpoint plus (p : ascii → bool) (s : string) : list (string * string) :=
  match s with
  | String c t =>
      if p c then
        (prod_map (String c) id <$> plus p t) ++ [(String c EmptyString, t)]
      else []
  | EmptyString => []
  end.

(** All the ways in which [r] matches a prefix of [s], as pairs of the
    matched text and the rest, in the order in which a backtracking
    matcher finds them. *)
Fixpoint matches (r : re) (s : string) : list (string * string) :=
  match r with
  | Cls p =>
      match s with
      | String c t => if p c then [(String c EmptyString, t)] else []
      | EmptyString => []
      end
  | Seq a b =>
      '(m1, t1) ← matches a s;
      '(m2, t2) ← matches b t1;
      [(m1 +:+ m2, t2)]
  | Alt a b => matches a s ++ matches b s
  | Plus p => plus p s
  end.

Definition chr (c : ascii) : re := Cls (λ x, bool_decide (x = c)).
Definition range (lo hi : ascii) : re :=
  Cls (λ x, (Py.code lo <=? Py.code x)%N && (Py.code x <=? Py.code hi)%N).
Definition d : re := Cls Py.is_digit.

End Re.

(** ** Dates and times, after CPython 3.11's [datetime] and [_strptime] *)

Record datetime := Datetime {
  year : Z; month : Z; day : Z;
  hour : Z; minute : Z; second : Z
}.

Module Datetime.
Import Re.

Definition MINYEAR : Z := 1.
Definition MAXYEAR : Z := 9999.

Definition is_leap (y : Z) : bool :=
  (y mod 4 =? 0) && (negb (y mod 100 =? 0) || (y mod 400 =? 0)).

Definition days_before_year (y : Z) : Z :=
  let y := y - 1 in y * 365 + y / 4 - y / 100 + y / 400.

Definition DAYS_IN_MONTH (m : Z) : Z :=
  match m with
  | 1 => 31 | 2 => 28 | 3 => 31 | 4 => 30 | 5 => 31 | 6 => 30
  | 7 => 31 | 8 => 31 | 9 => 30 | 10 => 31 | 11 => 30 | 12 => 31
  | _ => -1
  end.

Definition DAYS_BEFORE_MONTH (m : Z) : Z :=
  match m with
  | 1 => 0 | 2 => 31 | 3 => 59 | 4 => 90 | 5 => 120 | 6 => 151
  | 7 => 181 | 8 => 212 | 9 => 243 | 10 => 273 | 11 => 304 | 12 => 334
  | _ => -1
  end.

Definition days_in_month (y m : Z) : Z :=
  if (m =? 2) && is_leap y then 29 else DAYS_IN_MONTH m.

Definition days_before_month (y m : Z) : Z :=
  DAYS_BEFORE_MONTH m + (if (2 <? m) && is_leap y then 1 else 0).

Definition ymd2ord (y m d : Z) : Z :=
  days_before_year y + days_before_month y m + d.

Definition toordinal (t : datetime) : Z :=
  ymd2ord (year t) (month t) (day t).

Definition check_date_fields (y m d : Z) : result unit :=
  if negb ((MINYEAR <=? y) && (y <=? MAXYEAR)) then
    raise (ValueError ("year " +:+ Py.str y +:+ " is out of range"))
  else if negb ((1 <=? m) && (m <=? 12)) then
    raise (ValueError "month must be in 1..12")
  else if negb ((1 <=? d) && (d <=? days_in_month y m)) then
    raise (ValueError "day is out of range for month")
  else ok ().

Definition check_time_fields (h mi s : Z) : result unit :=
  if negb ((0 <=? h) && (h <=? 23)) then
    raise (ValueError "hour must be in 0..23")
  else if negb ((0 <=? mi) && (mi <=? 59)) then
    raise (ValueError "minute must be in 0..59")
  else if negb ((0 <=? s) && (s <=? 59)) then
    raise (ValueError "second must be in 0..59")
  else ok ().

(** The two errors of [_strptime] before it reads the fields. *)
Definition does_not_match (s format : string) : exn :=
  ValueError ("time data " +:+ Py.repr s +:+ " does not match format "
              +:+ Py.repr format).

Definition unconverted (rest : string) : exn :=
  ValueError ("unconverted data remains: " +:+ rest).

(** The groups of the pattern that [_strptime] compiles from
    ["%Y-%m-%d %H:%M:%S"]:
    [(\d\d\d\d)-(1[0-2]|0[1-9]|[1-9])-(3[0-1]|[1-2]\d|0[1-9]|[1-9]| [1-9])]
    [\s+(2[0-3]|[0-1]\d|\d):([0-5]\d|\d):(6[0-1]|[0-5]\d|\d)]. *)
Definition re_Y : re := Seq d (Seq d (Seq d d)).
Definition re_m : re :=
  Alt (Seq (chr "1") (range "0" "2"))
    (Alt (Seq (chr "0") (range "1" "9")) (range "1" "9")).
Definition re_d : re :=
  Alt (Seq (chr "3") (range "0" "1"))
    (Alt (Seq (range "1" "2") d)
       (Alt (Seq (chr "0") (range "1" "9"))
          (Alt (range "1" "9") (Seq (chr " ") (range "1" "9"))))).
Definition re_H : re :=
  Alt (Seq (chr "2") (range "0" "3")) (Alt (Seq (range "0" "1") d) d).
Definition re_M : re := Alt (Seq (range "0" "5") d) d.
Definition re_S : re :=
  Alt (Seq (chr "6") (range "0" "1")) (Alt (Seq (range "0" "5") d) d).

Definition format_regex (s : string)
  : list (string * string * string * string * string * string * string) :=
  '(gY, s) ← matches re_Y s;
  '(_, s) ← matches (chr "-") s;
  '(gm, s) ← matches re_m s;
  '(_, s) ← matches (chr "-") s;
  '(gd, s) ← matches re_d s;
  '(_, s) ← matches (Plus Py.re_space) s;
  '(gH, s) ← matches re_H s;
  '(_, s) ← matches (chr ":") s;
  '(gM, s) ← matches re_M s;
  '(_, s) ← matches (chr ":") s;
  '(gS, s) ← matches re_S s;
  [(gY, gm, gd, gH, gM, gS, s)].

(** [datetime.strptime(s, "%Y-%m-%d %H:%M:%S")] for a [str] argument:
    the first match of the pattern must reach the end of the text, and
    the fields must form a valid date and time. *)
Definition strptime (s : string) : result datetime :=
  match format_regex s with
  | [] => raise (does_not_match s "%Y-%m-%d %H:%M:%S")
  | (gY, gm, gd, gH, gM, gS, rest) :: _ =>
      if negb (bool_decide (rest = EmptyString)) then raise (unconverted rest)
      else
        y ←! Py.int gY;
        m ←! Py.int gm;
        d ←! Py.int gd;
        h ←! Py.int gH;
        mi ←! Py.int gM;
        s ←! Py.int gS;
        _ ←! check_date_fields y m d;
        _ ←! check_time_fields h mi s;
        ok (Datetime y m d h mi s)
  end.

(** [(a - b).total_seconds()] *)
Definition sub_total_seconds (a b : datetime) : Z :=
  let days := toordinal a - toordinal b in
  let secs1 := second a + minute a * 60 + hour a * 3600 in
  let secs2 := second b + minute b * 60 + hour b * 3600 in
  days * 86400 + (secs1 - secs2).

End Datetime.

(** ** Documents and the collection *)

Inductive value :=
  | VStr (s : string)
  | VInt (z : Z)
  | ObjectId (n : N).

Global Instance value_eq_dec : EqDecision value.
Proof. solve_decision. Defined.

(** [song[k]] *)
Definition getitem (song : gmap string value) (k : string) : result value :=
  match song !! k with
  | Some v => ok v
  | None => raise (KeyError k)
  end.

(** [data[i]] *)
Definition list_getitem (data : list (gmap string value)) (i : nat)
  : result (gmap string value) :=
  match data !! i with
  | Some song => ok song
  | None => raise (IndexError "list index out of range")
  end.

(** The collection handle: the stored documents, and the error with which
    the driver answers a query when the store cannot be reached. *)
Record collection := Collection {
  docs : list (gmap string value);
  find_error : option exn
}.

(** [collection.find().sort("played_at", -1)] *)
Definition find_sorted (c : collection) : result (list (gmap string value)) :=
  match find_error c with
  | Some e => raise e
  | None => ok (docs c)
  end.

(** [collection.update_one({"_id": id}, {"$set": upd})]: the first document
    whose [_id] is [id] gets the fields of [upd]; without a match nothing
    changes. *)
Fixpoint update_one (c : list (gmap string value)) (id : value)
    (upd : gmap string value) : list (gmap string value) :=
  match c with
  | [] => []
  | song :: rest =>
      if decide (song !! "_id" = Some id) then (upd ∪ song) :: rest
      else song :: update_one rest id upd
  end.

(** ** The time-taken updater *)

(** [type(v).__name__] *)
Definition type_name (v : value) : string :=
  match v with
  | VStr _ => "str"
  | VInt _ => "int"
  | ObjectId _ => "ObjectId"
  end.

(** [datetime.strptime(v, "%Y-%m-%d %H:%M:%S")] on a stored value. *)
Definition strptime (v : value) : result datetime :=
  match v with
  | VStr s => Datetime.strptime s
  | _ =>
      raise (TypeError ("strptime() argument 1 must be str, not "
                        +:+ type_name v))
  end.

(** [minutes, seconds = v.split(":")] and
    [int(minutes) * 60 + int(seconds)]. *)
Definition duration_total (v : value) : result Z :=
  match v with
  | VStr s =>
      match Py.split_colon s with
      | [minutes; seconds] =>
          m ←! Py.int minutes;
          s ←! Py.int seconds;
          ok (m * 60 + s)
      | parts =>
          if (List.length parts <? 2)%nat then
            raise (ValueError
                     ("not enough values to unpack (expected 2, got "
                      +:+ Py.str (Z.of_nat (List.length parts)) +:+ ")"))
          else raise (ValueError "too many values to unpack (expected 2)")
      end
  | _ =>
      raise (AttributeError
               ("'" +:+ type_name v +:+ "' object has no attribute 'split'"))
  end.

(** [f"{int(actual // 60)}:{str(int(actual % 60)).zfill(2)}"] *)
Definition time_taken_str (actual : Z) : string :=
  Py.str (actual / 60) +:+ ":" +:+ Py.zfill 2 (Py.str (actual mod 60)).

(** The first half of the [try] block: the [update_fields] computed for
    the song at index [i] of [data]. *)
Definition update_fields (data : list (gmap string value)) (i : nat)
    (song : gmap string value) : result (gmap string value) :=
  if Z.of_nat i <? Z.of_nat (List.length data) - 1 then
    cur ←! getitem song "played_at";
    played_at_current ←! strptime cur;
    next_song ←! list_getitem data (i + 1);
    nxt ←! getitem next_song "played_at";
    played_at_next ←! strptime nxt;
    let diff := Datetime.sub_total_seconds played_at_current played_at_next in
    dur ←! getitem song "duration";
    duration_total ←! duration_total dur;
    let actual := Z.min diff duration_total in
    ok {[ "time_taken" := VStr (time_taken_str actual) ]}
  else
    dur ←! getitem song "duration";
    ok {[ "time_taken" := dur ]}.

Record counters := Counters {
  stored : list (gmap string value);
  updated_count : nat;
  skipped_count : nat;
  error_count : nat
}.

(** One iteration of the loop. *)
Definition loop_body (data : list (gmap string value)) (st : counters)
    (i : nat) (song : gmap string value) : counters :=
  if decide (is_Some (song !! "time_taken")) then
    Counters (stored st) (updated_count st) (S (skipped_count st))
      (error_count st)
  else
    let attempt :=
      upd ←! update_fields data i song;
      id ←! getitem song "_id";
      ok (update_one (stored st) id upd) in
    match attempt with
    | inr c =>
        Counters c (S (updated_count st)) (skipped_count st) (error_count st)
    | inl _ =>
        Counters (stored st) (updated_count st) (skipped_count st)
          (S (error_count st))
    end.

(** [for i, song in enumerate(data)], from index [i] on. *)
Fixpoint for_loop (data : list (gmap string value)) (i : nat)
    (rest : list (gmap string value)) (st : counters) : counters :=
  match rest with
  | [] => st
  | song :: rest' => for_loop data (S i) rest' (loop_body data st i song)
  end.

Record summary := Summary {
  total_docs : nat;
  updated : nat;
  skipped : nat;
  errors : nat;
  elapsed : string
}.

(** [elapsed] is [int(time.time() - start_time)], the whole seconds that
    the pass took. *)
Definition calculate_time_taken_for_collection (c : collection)
    (elapsed : Z) : collection * result summary :=
  match find_sorted c with
  | inl e => (c, raise e)
  | inr data =>
      if decide (data = []) then (c, ok (Summary 0 0 0 0 "00:00"))
      else
        let st := for_loop data 0 data (Counters (docs c) 0 0 0) in
        let elapsed_str :=
          Py.fmt02 (elapsed / 60) +:+ ":" +:+ Py.fmt02 (elapsed mod 60) in
        (Collection (stored st) (find_error c),
         ok (Summary (List.length data) (updated_count st) (skipped_count st)
               (error_count st) elapsed_str))
  end.

(** ** Notification and the entry point *)

(** What [send_sns] is given as its [summary] argument: the summary
    dictionary, or a text. *)
Inductive pyobj :=
  | PSummary (s : summary)
  | PStr (s : string).

(** [summary[key]]: a [str] cannot be indexed by a [str]. *)
Definition summary_item {A} (o : pyobj) (field : summary → A) : result A :=
  match o with
  | PSummary s => ok (field s)
  | PStr _ => raise (TypeError "string indices must be integers, not 'str'")
  end.

Record environment := Environment {
  SNS_TOPIC_ARN : option string;
  publish_error : option exn
}.

Record notification := Notification {
  TopicArn : string;
  Subject : string;
  Message : string
}.

Definition str_nat (n : nat) : string := Py.str (Z.of_nat n).

(** The line feed. *)
Definition nl : string := String "010"%char EmptyString.

(** [send_sns(subject, summary)]: the notification that was published, if
    any. *)
Definition send_sns (E : environment) (subject : string) (summary : pyobj)
  : result (option notification) :=
  match SNS_TOPIC_ARN E with
  | None | Some EmptyString => ok None
  | Some arn =>
      t ←! summary_item summary total_docs;
      u ←! summary_item summary updated;
      s ←! summary_item summary skipped;
      e ←! summary_item summary errors;
      el ←! summary_item summary elapsed;
      let message :=
        "Spotify Time Taken Report" +:+ nl +:+ nl
        +:+ "Status: time_taken calculation completed" +:+ nl +:+ nl
        +:+ "Total Docs: " +:+ str_nat t +:+ nl
        +:+ "Updated: " +:+ str_nat u +:+ nl
        +:+ "Skipped: " +:+ str_nat s +:+ nl
        +:+ "Errors: " +:+ str_nat e +:+ nl
        +:+ "Elapsed: " +:+ el +:+ nl +:+ nl in
      match publish_error E with
      | None => ok (Some (Notification arn subject message))
      | Some _ => ok None
      end
  end.

(** [str(e)]: the message; for a [KeyError], the [repr] of the key. *)
Definition exn_text (e : exn) : string :=
  match e with
  | KeyError key => Py.repr key
  | IndexError msg | ValueError msg | TypeError msg | AttributeError msg
  | PyMongoError msg => msg
  end.

Record response := Response {
  statusCode : Z;
  body_message : string;
  body_summary : summary
}.

Record invocation := Invocation {
  returned : result response;
  published : option notification;
  storage : collection;
  client_closed : bool
}.

Definition lambda_handler (E : environment) (c : collection) (elapsed : Z)
  : invocation :=
  let '(c', r) := calculate_time_taken_for_collection c elapsed in
  let try_block :=
    summary ←! r;
    sent ←! send_sns E "Spotify Time Taken Updater" (PSummary summary);
    ok (sent, Response 200 "time_taken calculation completed" summary) in
  match try_block with
  | inr (sent, resp) => Invocation (ok resp) sent c' true
  | inl e =>
      let error_message := "Updater failed: " +:+ exn_text e in
      match send_sns E "Spotify Time Taken Updater FAILED"
              (PStr error_message) with
      | inr sent => Invocation (raise e) sent c' true
      | inl e' => Invocation (raise e') None c' true
      end
  end.

(** ** The fetcher's duration text *)

(** [minutes = duration_ms // 60000], [seconds = (duration_ms % 60000) // 1000]
    and [f"{minutes:02}:{seconds:02}"]. *)
Definition duration_formatted (duration_ms : Z) : string :=
  let minutes := duration_ms / 60000 in
  let seconds := (duration_ms mod 60000) / 1000 in
  Py.fmt02 minutes +:+ ":" +:+ Py.fmt02 seconds.

(** ** The fetcher: [spotify-lambda-fetcher.py] *)

Module Fetcher.
Import Re.

(** The fetcher raises more than the built-in exceptions. *)
Inductive error :=
  | Builtin (e : exn)
  | OverflowError
  | Exception (msg : string)
  | SpotifyException (msg : string).

Definition fresult (A : Type) : Type := error + A.

Definition fbind {A B} (m : fresult A) (k : A → fresult B) : fresult B :=
  match m with
  | inl e => inl e
  | inr a => k a
  end.

Notation "x ←? m ; k" := (fbind m (λ x, k))
  (at level 100, m at next level, right associativity,
   format "x  ←?  m ;  '/' k").

Definition lift {A} (r : result A) : fresult A :=
  match r with
  | inl e => inl (Builtin e)
  | inr a => inr a
  end.

(** [str(e)] *)
Definition error_text (e : error) : string :=
  match e with
  | Builtin e => exn_text e
  | OverflowError => "date value out of range"
  | Exception msg => msg
  | SpotifyException msg => msg
  end.

(** An item of the Web API's answer, typed as the API documents it: the
    keys that the fetcher reads are present and have these types. *)
Record artist := Artist { artist_name : string }.
Record track := Track {
  artists : list artist;
  name : string;
  duration_ms : Z;
  album_name : string
}.
Record item := Item { item_track : track; played_at : string }.

(** What the fetcher finds around it: the environment variables, the
    Spotify client, the time zone, the notification service and the
    identifiers that the store gives to new documents. *)
Record environment := Environment {
  REFRESH_TOKEN : option string;
  refresh_access_token : string → fresult (option string);
  current_user_recently_played : string → fresult (list item);
  astimezone : datetime → fresult datetime;
  SNS_TOPIC_ARN : string;
  publish_error : option exn;
  new_id : list (gmap string value) → value
}.

(** [send_sns_notification(subject, message)]: everything happens inside
    its [try], so it returns the notification that went out, if any. *)
Definition send_sns_notification (E : environment) (subject message : string)
  : option notification :=
  match publish_error E with
  | None => Some (Notification (SNS_TOPIC_ARN E) subject message)
  | Some _ => None
  end.

(** [get_spotify_client()]: the access token of the client it returns. *)
Definition get_spotify_client (E : environment) : fresult string :=
  match REFRESH_TOKEN E with
  | None | Some EmptyString =>
      inl (Exception
             "Refresh token not found. Please authenticate locally and store the refresh token.")
  | Some token =>
      access_token ←? refresh_access_token E token;
      match access_token with
      | None | Some EmptyString =>
          inl (Exception
                 "Failed to refresh access token. Please re-authenticate.")
      | Some t => inr t
      end
  end.

(** A literal letter of a format, matched without regard to case. *)
Definition letter (upper lower : ascii) : re :=
  Cls (λ x, bool_decide (x = upper) || bool_decide (x = lower)).

Fixpoint rep (n : nat) (r : re) : re :=
  match n with
  | O => r
  | S k => Seq r (rep k r)
  end.

(** [[0-9]{1,6}], greedy: six digits first, one digit last. *)
Definition re_f : re :=
  let digit := range "0" "9" in
  Alt (rep 5 digit)
    (Alt (rep 4 digit)
       (Alt (rep 3 digit) (Alt (rep 2 digit) (Alt (rep 1 digit) digit)))).

(** The pattern of ["%Y-%m-%dT%H:%M:%S.%fZ"]. *)
Definition format_regex_f (s : string)
  : list (string * string * string * string * string * string * string
          * string) :=
  '(gY, s) ← matches Datetime.re_Y s;
  '(_, s) ← matches (chr "-") s;
  '(gm, s) ← matches Datetime.re_m s;
  '(_, s) ← matches (chr "-") s;
  '(gd, s) ← matches Datetime.re_d s;
  '(_, s) ← matches (letter "T" "t") s;
  '(gH, s) ← matches Datetime.re_H s;
  '(_, s) ← matches (chr ":") s;
  '(gM, s) ← matches Datetime.re_M s;
  '(_, s) ← matches (chr ":") s;
  '(gS, s) ← matches Datetime.re_S s;
  '(_, s) ← matches (chr ".") s;
  '(gf, s) ← matches re_f s;
  '(_, s) ← matches (letter "Z" "z") s;
  [(gY, gm, gd, gH, gM, gS, gf, s)].

(** The pattern of ["%Y-%m-%dT%H:%M:%SZ"]. *)
Definition format_regex_z (s : string)
  : list (string * string * string * string * string * string * string) :=
  '(gY, s) ← matches Datetime.re_Y s;
  '(_, s) ← matches (chr "-") s;
  '(gm, s) ← matches Datetime.re_m s;
  '(_, s) ← matches (chr "-") s;
  '(gd, s) ← matches Datetime.re_d s;
  '(_, s) ← matches (letter "T" "t") s;
  '(gH, s) ← matches Datetime.re_H s;
  '(_, s) ← matches (chr ":") s;
  '(gM, s) ← matches Datetime.re_M s;
  '(_, s) ← matches (chr ":") s;
  '(gS, s) ← matches Datetime.re_S s;
  '(_, s) ← matches (letter "Z" "z") s;
  [(gY, gm, gd, gH, gM, gS, s)].

(** The date and time of the six groups of a match. *)
Definition of_groups (gY gm gd gH gM gS : string) : result datetime :=
  y ←! Py.int gY;
  m ←! Py.int gm;
  d ←! Py.int gd;
  h ←! Py.int gH;
  mi ←! Py.int gM;
  s ←! Py.int gS;
  _ ←! Datetime.check_date_fields y m d;
  _ ←! Datetime.check_time_fields h mi s;
  ok (Datetime y m d h mi s).

(** [datetime.strptime(s, "%Y-%m-%dT%H:%M:%S.%fZ")], to the second: the
    microseconds do not reach the stored text. *)
Definition strptime_f (s : string) : result datetime :=
  match format_regex_f s with
  | [] => raise (Datetime.does_not_match s "%Y-%m-%dT%H:%M:%S.%fZ")
  | (gY, gm, gd, gH, gM, gS, gf, rest) :: _ =>
      if negb (bool_decide (rest = EmptyString)) then
        raise (Datetime.unconverted rest)
      else
        t ←! of_groups gY gm gd gH gM gS;
        _ ←! Py.int (gf +:+ Py.zeros (6 - String.length gf));
        ok t
  end.

(** [datetime.strptime(s, "%Y-%m-%dT%H:%M:%SZ")] *)
Definition strptime_z (s : string) : result datetime :=
  match format_regex_z s with
  | [] => raise (Datetime.does_not_match s "%Y-%m-%dT%H:%M:%SZ")
  | (gY, gm, gd, gH, gM, gS, rest) :: _ =>
      if negb (bool_decide (rest = EmptyString)) then
        raise (Datetime.unconverted rest)
      else of_groups gY gm gd gH gM gS
  end.

(** The [try] ... [except ValueError] around the two formats. *)
Definition utc_time (played_at : string) : result datetime :=
  match strptime_f played_at with
  | inl (ValueError _) => strptime_z played_at
  | r => r
  end.

(** [t.strftime("%Y-%m-%d %H:%M:%S")]; the C library of the Linux runtime
    writes the year of [%Y] without padding. *)
Definition strftime (t : datetime) : string :=
  Py.str (year t) +:+ "-" +:+ Py.fmt02 (month t) +:+ "-"
  +:+ Py.fmt02 (day t) +:+ " " +:+ Py.fmt02 (hour t) +:+ ":"
  +:+ Py.fmt02 (minute t) +:+ ":" +:+ Py.fmt02 (second t).

(** The body of the loop up to the [data] dictionary. *)
Definition data_of (E : environment) (it : item)
  : fresult (gmap string value) :=
  let track := item_track it in
  utc ←? lift (utc_time (played_at it));
  local_time ←? astimezone E utc;
  let duration_formatted := duration_formatted (duration_ms track) in
  first_artist ←?
    match artists track with
    | a :: _ => inr a
    | [] => inl (Builtin (IndexError "list index out of range"))
    end;
  inr ({[ "artist" := VStr (artist_name first_artist);
          "title" := VStr (name track);
          "played_at" := VStr (strftime local_time);
          "duration" := VStr duration_formatted;
          "album" := VStr (album_name track) ]} : gmap string value).

(** [collection.update_one({"played_at": key}, {"$set": data}, upsert=True)]:
    the first document with that [played_at] gets the fields of [data];
    without a match a document made of the filter, of [data] and of a new
    [_id] is added. *)
Fixpoint upsert (c : list (gmap string value)) (key : value)
    (data : gmap string value) (id : value) : list (gmap string value) :=
  match c with
  | [] => [ <[ "_id" := id ]> (data ∪ {[ "played_at" := key ]}) ]
  | song :: rest =>
      if decide (song !! "played_at" = Some key) then (data ∪ song) :: rest
      else song :: upsert rest key data id
  end.

(** [for item in recent_tracks['items']] *)
Fixpoint for_items (E : environment) (items : list item)
    (c : list (gmap string value))
  : list (gmap string value) * fresult unit :=
  match items with
  | [] => (c, inr ())
  | it :: rest =>
      match (data ←? data_of E it;
             key ←? lift (getitem data "played_at");
             inr (upsert c key data (new_id E c))) with
      | inl e => (c, inl e)
      | inr c' => for_items E rest c'
      end
  end.

Record run := Run {
  result_of : fresult unit;
  stored_after : list (gmap string value);
  notified : option notification
}.

Definition fetch_recent_tracks (E : environment)
    (c : list (gmap string value)) : run :=
  let '(c', r) :=
    match (token ←? get_spotify_client E;
           current_user_recently_played E token) with
    | inl e => (c, inl e)
    | inr items => for_items E items c
    end in
  match r with
  | inr _ =>
      Run (inr ()) c'
        (send_sns_notification E "Spotify Data Fetch Successful"
           "Recently played tracks have been fetched and stored in MongoDB successfully.")
  | inl e =>
      Run (inl e) c'
        (send_sns_notification E "Spotify Data Fetch Failed"
           ("An error occurred: " +:+ error_text e))
  end.

Record answer := Answer { statusCode : Z; body : string }.

Definition lambda_handler (E : environment) (c : list (gmap string value))
  : answer * run :=
  let r := fetch_recent_tracks E c in
  match result_of r with
  | inr _ =>
      (Answer 200 "Spotify recently played tracks fetched and stored.", r)
  | inl e => (Answer 500 (error_text e), r)
  end.

End Fetcher.

(** * Properties *)

Global Instance exn_eq_dec : EqDecision exn.
Proof. solve_decision. Defined.

(** ** Integers and their text *)

Section text.

Lemma digit_pretty_N_char (x : N) :
  (x < 10)%N → Py.digit (pretty_N_char x) = Some (Z.of_N x).
Proof.
  intros Hx.
  assert (x = 0 ∨ x = 1 ∨ x = 2 ∨ x = 3 ∨ x = 4 ∨ x = 5 ∨ x = 6 ∨ x = 7
          ∨ x = 8 ∨ x = 9)%N as Hc by lia.
  repeat destruct Hc as [-> | Hc]; try subst x; reflexivity.
Qed.

Lemma digit_not_special c d :
  Py.digit c = Some d →
  Py.int_space c = false ∧ c ≠ "-"%char ∧ c ≠ "+"%char ∧ c ≠ ":"%char.
Proof.
  destruct c as [[] [] [] [] [] [] [] []]; vm_compute; intros ?;
    try discriminate; repeat split; discriminate.
Qed.

(** The digits printed for [x] are read back as [x], whatever follows. *)
Lemma int_digits_pretty_N_go (x : N) (prev : bool) (s : string) :
  (0 < x)%N →
  Py.int_digits 0 prev (pretty_N_go x s) = Py.int_digits (Z.of_N x) true s.
Proof.
  revert prev s. induction (N.lt_wf_0 x) as [x _ IH]; intros prev s Hx.
  rewrite pretty_N_go_step by done.
  destruct (decide (x `div` 10 = 0)%N) as [Hq | Hq].
  - rewrite Hq, pretty_N_go_0. cbn [Py.int_digits].
    rewrite digit_pretty_N_char by (apply N.mod_lt; lia).
    f_equal. apply (f_equal Z.of_N) in Hq.
    rewrite N2Z.inj_div in Hq. rewrite N2Z.inj_mod. cbn in Hq |- *.
    Z.div_mod_to_equations. lia.
  - rewrite IH; [| apply N.div_lt; lia | by apply N.neq_0_lt_0].
    cbn [Py.int_digits].
    rewrite digit_pretty_N_char by (apply N.mod_lt; lia).
    f_equal. rewrite N2Z.inj_div, N2Z.inj_mod. cbn.
    Z.div_mod_to_equations. lia.
Qed.

Lemma pretty_N_go_head (x : N) (s : string) :
  (0 < x)%N →
  ∃ c t d, pretty_N_go x s = String c t ∧ Py.digit c = Some d.
Proof.
  revert s. induction (N.lt_wf_0 x) as [x _ IH]; intros s Hx.
  rewrite pretty_N_go_step by done.
  destruct (decide (x `div` 10 = 0)%N) as [Hq | Hq].
  - rewrite Hq, pretty_N_go_0. eexists _, _, _. split; [done |].
    apply digit_pretty_N_char, N.mod_lt. lia.
  - apply IH; [apply N.div_lt; lia | by apply N.neq_0_lt_0].
Qed.

Lemma int_digits_zeros (k : nat) (prev : bool) (s : string) :
  Py.int_digits 0 prev (Py.zeros k +:+ s)
  = Py.int_digits 0 (if k is O then prev else true) s.
Proof.
  revert prev. induction k as [| k IH]; intros prev; [done |].
  change (Py.zeros (S k) +:+ s) with (String "0" (Py.zeros k +:+ s)).
  change (Py.int_digits 0 prev (String "0" (Py.zeros k +:+ s)))
    with (Py.int_digits 0 true (Py.zeros k +:+ s)).
  rewrite IH. by destruct k.
Qed.

Lemma str_pos (p : positive) : Py.str (Z.pos p) = pretty_N_go (N.pos p) "".
Proof. reflexivity. Qed.

Lemma str_neg (p : positive) :
  Py.str (Z.neg p) = String "-" (pretty_N_go (N.pos p) "").
Proof. reflexivity. Qed.

Lemma int_unsigned (c : ascii) (r : string) (z : Z) :
  Py.int_space c = false → c ≠ "-"%char → c ≠ "+"%char →
  Py.int_digits 0 false (String c r) = Some z →
  Py.int (String c r) = ok z.
Proof.
  intros Hsp Hm Hp Hz. unfold Py.int. cbn [Py.lstrip]. rewrite Hsp.
  rewrite !bool_decide_eq_false_2 by done. by rewrite Hz.
Qed.

Lemma int_zero_padded (k : nat) (s : string) (z : Z) :
  (∃ c t d, s = String c t ∧ Py.digit c = Some d) →
  (∀ prev, Py.int_digits 0 prev s = Some z) →
  Py.int (Py.zeros k +:+ s) = ok z.
Proof.
  intros (c & t & d & -> & Hd) Hz.
  destruct (digit_not_special _ _ Hd) as (Hsp & Hm & Hp & _).
  destruct k as [| k].
  - by apply int_unsigned.
  - change (Py.zeros (S k) +:+ String c t)
      with (String "0" (Py.zeros k +:+ String c t)).
    apply int_unsigned; [done .. |].
    change (Py.int_digits 0 false (String "0" ?r))
      with (Py.int_digits 0 true (Py.zeros k +:+ String c t)).
    by rewrite int_digits_zeros, <- (Hz true); destruct k.
Qed.

Lemma zfill_unsigned (w : nat) (c : ascii) (t : string) :
  c ≠ "-"%char → c ≠ "+"%char →
  Py.zfill w (String c t)
  = Py.zeros (w - String.length (String c t)) +:+ String c t.
Proof.
  intros Hm Hp. unfold Py.zfill. by rewrite !bool_decide_eq_false_2.
Qed.

(** [int(str(z).zfill(w)) == z] *)
Lemma int_zfill_str (w : nat) (z : Z) : Py.int (Py.zfill w (Py.str z)) = ok z.
Proof.
  destruct z as [| p | p].
  - change (Py.str 0) with "0". rewrite zfill_unsigned by done.
    apply int_zero_padded; [by eexists _, _, _ | by intros []].
  - rewrite str_pos.
    destruct (pretty_N_go_head (N.pos p) "") as (c & t & d & Heq & Hd);
      [lia |].
    destruct (digit_not_special _ _ Hd) as (_ & Hm & Hp & _).
    rewrite Heq, zfill_unsigned, <- Heq by done.
    apply int_zero_padded; [by eexists _, _, _ |].
    intros prev. by rewrite int_digits_pretty_N_go.
  - rewrite str_neg. unfold Py.zfill.
    rewrite bool_decide_eq_true_2 by done. cbn [orb].
    generalize (w - String.length (String "-" (pretty_N_go (N.pos p) "")))%nat
      as k. intros k.
    unfold Py.int. cbn [Py.lstrip]. change (Py.int_space "-") with false.
    cbn match. rewrite bool_decide_eq_true_2 by done.
    rewrite int_digits_zeros, int_digits_pretty_N_go by lia. done.
Qed.

Lemma zfill_0 (s : string) : Py.zfill 0 s = s.
Proof. unfold Py.zfill. destruct s as [| c r]; [done |]. by case_match. Qed.

(** [int(str(z)) == z] *)
Lemma int_str (z : Z) : Py.int (Py.str z) = ok z.
Proof. rewrite <- (zfill_0 (Py.str z)). apply int_zfill_str. Qed.

Fixpoint no_colon (s : string) : Prop :=
  match s with
  | EmptyString => True
  | String c r => c ≠ ":"%char ∧ no_colon r
  end.

Lemma split_colon_no_colon (s : string) :
  no_colon s → Py.split_colon s = [s].
Proof.
  induction s as [| c r IH]; [done |]. intros [Hc Hr].
  cbn [Py.split_colon]. rewrite bool_decide_eq_false_2 by done.
  by rewrite IH.
Qed.

Lemma split_colon_app (a b : string) :
  no_colon a →
  Py.split_colon (a +:+ ":" +:+ b) = a :: Py.split_colon b.
Proof.
  induction a as [| c r IH]; [done |]. intros [Hc Hr].
  change (String c r +:+ ":" +:+ b) with (String c (r +:+ ":" +:+ b)).
  cbn [Py.split_colon]. rewrite bool_decide_eq_false_2 by done.
  by rewrite IH.
Qed.

Lemma no_colon_app (a b : string) :
  no_colon a → no_colon b → no_colon (a +:+ b).
Proof. induction a as [| c r IH]; [done |]. intros [??] ?. split; auto. Qed.

Lemma no_colon_zeros (k : nat) : no_colon (Py.zeros k).
Proof. induction k; [done |]. split; [done | assumption]. Qed.

Lemma no_colon_pretty_N_go (x : N) (s : string) :
  no_colon s → no_colon (pretty_N_go x s).
Proof.
  revert s. induction (N.lt_wf_0 x) as [x _ IH]; intros s Hs.
  destruct (decide (x = 0)%N) as [-> | Hx]; [done |].
  rewrite pretty_N_go_step by by apply N.neq_0_lt_0.
  apply IH; [apply N.div_lt; lia |].
  split; [| done]. unfold pretty_N_char. by repeat case_match.
Qed.

Lemma no_colon_str (z : Z) : no_colon (Py.str z).
Proof.
  destruct z as [| p | p]; [done | |].
  - rewrite str_pos. by apply no_colon_pretty_N_go.
  - rewrite str_neg. split; [done |]. by apply no_colon_pretty_N_go.
Qed.

Lemma no_colon_zfill (w : nat) (s : string) :
  no_colon s → no_colon (Py.zfill w s).
Proof.
  intros Hs. unfold Py.zfill. destruct s as [| c r].
  - apply no_colon_zeros.
  - destruct Hs as [Hc Hr]. case_match.
    + split; [done |]. apply no_colon_app; [apply no_colon_zeros | done].
    + apply no_colon_app; [apply no_colon_zeros | by split].
Qed.

(** Text of the shape [a:b], both parts integers padded to some width,
    is read back by [duration_total] as [a * 60 + b]. *)
Lemma duration_total_padded (w1 w2 : nat) (a b : Z) :
  duration_total
    (VStr (Py.zfill w1 (Py.str a) +:+ ":" +:+ Py.zfill w2 (Py.str b)))
  = ok (a * 60 + b).
Proof.
  unfold duration_total.
  rewrite split_colon_app by apply no_colon_zfill, no_colon_str.
  rewrite split_colon_no_colon by apply no_colon_zfill, no_colon_str.
  by rewrite !int_zfill_str.
Qed.

(** The stored [time_taken] text reads back as the seconds it was made
    from, negative ones included. *)
Lemma duration_total_time_taken_str (actual : Z) :
  duration_total (VStr (time_taken_str actual)) = ok actual.
Proof.
  unfold time_taken_str. rewrite <- (zfill_0 (Py.str (actual / 60))).
  rewrite duration_total_padded. f_equal.
  Z.div_mod_to_equations. lia.
Qed.

End text.

(** ** The pass over the collection *)

(** What one iteration does with its song: the tagged outcome of the
    iteration, read off [loop_body]. *)
Inductive outcome :=
  | Skipped
  | Updated (id : value) (upd : gmap string value)
  | Failed (e : exn).

Definition classify (data : list (gmap string value)) (i : nat)
    (song : gmap string value) : outcome :=
  if decide (is_Some (song !! "time_taken")) then Skipped
  else
    match update_fields data i song with
    | inl e => Failed e
    | inr upd =>
        match getitem song "_id" with
        | inl e => Failed e
        | inr id => Updated id upd
        end
    end.

Definition is_updated (o : outcome) : bool :=
  match o with Updated _ _ => true | _ => false end.
Definition is_skipped (o : outcome) : bool :=
  match o with Skipped => true | _ => false end.
Definition is_failed (o : outcome) : bool :=
  match o with Failed _ => true | _ => false end.

Fixpoint countp (p : outcome → bool) (os : list outcome) : nat :=
  match os with
  | [] => 0
  | o :: os' => (if p o then 1 else 0) + countp p os'
  end.

(** The document as the pass leaves it. *)
Definition settle (data : list (gmap string value)) (i : nat)
    (song : gmap string value) : gmap string value :=
  match classify data i song with
  | Updated _ upd => upd ∪ song
  | _ => song
  end.

Fixpoint outcomes_from (data : list (gmap string value)) (i : nat)
    (rest : list (gmap string value)) : list outcome :=
  match rest with
  | [] => []
  | song :: rest' => classify data i song :: outcomes_from data (S i) rest'
  end.

Fixpoint settle_from (data : list (gmap string value)) (i : nat)
    (rest : list (gmap string value)) : list (gmap string value) :=
  match rest with
  | [] => []
  | song :: rest' => settle data i song :: settle_from data (S i) rest'
  end.

Definition outcomes (data : list (gmap string value)) : list outcome :=
  outcomes_from data 0 data.
Definition settled (data : list (gmap string value))
  : list (gmap string value) :=
  settle_from data 0 data.

(** The store's guarantee on [_id]: no two documents share one. *)
Definition ids (c : list (gmap string value)) : list value :=
  omap (λ song : gmap string value, song !! "_id") c.
Definition unique_ids (c : list (gmap string value)) : Prop := NoDup (ids c).

Definition elapsed_str (elapsed : Z) : string :=
  Py.fmt02 (elapsed / 60) +:+ ":" +:+ Py.fmt02 (elapsed mod 60).

Section pass.
Implicit Types (data rest pre : list (gmap string value)).
Implicit Types (song upd : gmap string value) (st : counters).

Lemma loop_body_classify data st i song :
  loop_body data st i song =
  match classify data i song with
  | Skipped =>
      Counters (stored st) (updated_count st) (S (skipped_count st))
        (error_count st)
  | Updated id upd =>
      Counters (update_one (stored st) id upd) (S (updated_count st))
        (skipped_count st) (error_count st)
  | Failed _ =>
      Counters (stored st) (updated_count st) (skipped_count st)
        (S (error_count st))
  end.
Proof.
  unfold loop_body, classify. case_decide; [done |].
  destruct (update_fields data i song) as [e | upd]; [done |].
  by destruct (getitem song "_id").
Qed.

Lemma for_loop_counters data i rest st :
  updated_count (for_loop data i rest st)
    = (updated_count st + countp is_updated (outcomes_from data i rest))%nat
  ∧ skipped_count (for_loop data i rest st)
    = (skipped_count st + countp is_skipped (outcomes_from data i rest))%nat
  ∧ error_count (for_loop data i rest st)
    = (error_count st + countp is_failed (outcomes_from data i rest))%nat.
Proof.
  revert i st. induction rest as [| song rest IH]; intros i st.
  - cbn. lia.
  - cbn [for_loop outcomes_from countp].
    destruct (IH (S i) (loop_body data st i song)) as (-> & -> & ->).
    rewrite loop_body_classify.
    destruct (classify data i song); cbn; lia.
Qed.

Lemma countp_total (os : list outcome) :
  (countp is_updated os + countp is_skipped os + countp is_failed os)%nat
  = List.length os.
Proof.
  induction os as [| o os IH]; [done |]. destruct o; cbn in *; lia.
Qed.

Lemma length_outcomes_from data i rest :
  List.length (outcomes_from data i rest) = List.length rest.
Proof.
  revert i. induction rest as [| ? ? IH]; intros i; [done |].
  cbn. by rewrite IH.
Qed.

Lemma lookup_outcomes_from data i rest k :
  outcomes_from data i rest !! k = classify data (i + k) <$> rest !! k.
Proof.
  revert i k. induction rest as [| song rest IH]; intros i k; [done |].
  destruct k as [| k]; cbn.
  - by rewrite Nat.add_0_r.
  - rewrite IH. by rewrite Nat.add_succ_r.
Qed.

Lemma lookup_settle_from data i rest k :
  settle_from data i rest !! k = settle data (i + k) <$> rest !! k.
Proof.
  revert i k. induction rest as [| song rest IH]; intros i k; [done |].
  destruct k as [| k]; cbn.
  - by rewrite Nat.add_0_r.
  - rewrite IH. by rewrite Nat.add_succ_r.
Qed.

Lemma lookup_settled data k :
  settled data !! k = settle data k <$> data !! k.
Proof. apply lookup_settle_from. Qed.

Lemma lookup_outcomes data k :
  outcomes data !! k = classify data k <$> data !! k.
Proof. apply lookup_outcomes_from. Qed.

Lemma length_settle_from data i rest :
  List.length (settle_from data i rest) = List.length rest.
Proof.
  revert i. induction rest as [| ? ? IH]; intros i; [done |].
  cbn. by rewrite IH.
Qed.

(** [update_fields] only ever sets [time_taken]. *)
Lemma update_fields_singleton data i song upd :
  update_fields data i song = inr upd →
  ∃ v, upd = {[ "time_taken" := v ]}.
Proof.
  unfold update_fields, bind, ok, raise. intros H.
  repeat (case_match; try discriminate); simplify_eq; by eexists.
Qed.

Lemma settle_other_key data i song k :
  k ≠ "time_taken" → settle data i song !! k = song !! k.
Proof.
  intros Hk. unfold settle, classify.
  case_decide; [done |].
  destruct (update_fields data i song) as [e | upd] eqn:Hu; [done |].
  destruct (getitem song "_id"); [done |].
  apply update_fields_singleton in Hu as [tt ->].
  rewrite <- insert_union_singleton_l. by rewrite lookup_insert_ne.
Qed.

Lemma classify_updated data i song id upd :
  classify data i song = Updated id upd ↔
  song !! "time_taken" = None ∧ update_fields data i song = inr upd
  ∧ song !! "_id" = Some id.
Proof.
  unfold classify, getitem, ok, raise. split.
  - case_decide as Ht; [done |].
    apply eq_None_not_Some in Ht.
    destruct (update_fields data i song); [done |].
    destruct (song !! "_id"); [| done]. by intros [= -> ->].
  - intros (Ht & -> & ->). rewrite decide_False; [done |].
    by apply eq_None_not_Some.
Qed.

Lemma classify_skipped data i song :
  classify data i song = Skipped ↔ is_Some (song !! "time_taken").
Proof.
  unfold classify, getitem, ok, raise. case_decide; [done |].
  split; [| done].
  destruct (update_fields data i song); [done |].
  by destruct (song !! "_id").
Qed.

Lemma update_one_unique pre song rest id upd :
  song !! "_id" = Some id → id ∉ ids pre →
  update_one (pre ++ song :: rest) id upd = pre ++ (upd ∪ song) :: rest.
Proof.
  intros Hid. induction pre as [| d pre IH]; intros Hpre; cbn.
  - by rewrite decide_True.
  - unfold ids in Hpre. cbn in Hpre.
    destruct (d !! "_id") as [x |] eqn:Hd; cbn in Hpre.
    + apply not_elem_of_cons in Hpre as [Hne Hpre].
      rewrite decide_False by congruence. f_equal. by apply IH.
    + rewrite decide_False by done. f_equal. by apply IH.
Qed.

Lemma ids_app pre rest : ids (pre ++ rest) = ids pre ++ ids rest.
Proof. apply omap_app. Qed.

Lemma for_loop_stored data i rest pre st :
  unique_ids (pre ++ rest) → stored st = pre ++ rest →
  stored (for_loop data i rest st) = pre ++ settle_from data i rest.
Proof.
  revert i pre st. induction rest as [| song rest IH]; intros i pre st Hu Hst.
  - done.
  - cbn [for_loop settle_from].
    rewrite (IH (S i) (pre ++ [settle data i song])).
    + by rewrite <- app_assoc.
    + unfold unique_ids in *. rewrite <- app_assoc. cbn.
      rewrite ids_app in Hu |- *. unfold ids at 2. unfold ids at 2 in Hu.
      cbn [omap list_omap] in Hu |- *.
      by rewrite settle_other_key.
    + rewrite loop_body_classify, <- app_assoc. cbn. unfold settle.
      destruct (classify data i song) as [| id upd | e] eqn:Hc; cbn; try done.
      rewrite Hst. apply update_one_unique.
      * by apply classify_updated in Hc as (_ & _ & ?).
      * apply classify_updated in Hc as (_ & _ & Hid).
        unfold unique_ids in Hu. rewrite ids_app in Hu.
        apply NoDup_app in Hu as (_ & Hu & _). intros Hin.
        apply (Hu _ Hin). unfold ids. cbn. rewrite Hid. left.
Qed.

(** The whole pass, on a reachable store. *)
Lemma run_summary data elapsed :
  ∃ c' el,
    calculate_time_taken_for_collection (Collection data None) elapsed
    = (c', ok (Summary (List.length data)
                 (countp is_updated (outcomes data))
                 (countp is_skipped (outcomes data))
                 (countp is_failed (outcomes data)) el)).
Proof.
  unfold calculate_time_taken_for_collection, find_sorted. cbn.
  case_decide as Hd; [subst; by eexists _, _ |].
  eexists _, _.
  destruct (for_loop_counters data 0 data (Counters data 0 0 0))
    as (-> & -> & ->).
  done.
Qed.

Lemma run_spec data elapsed :
  unique_ids data →
  ∃ el,
    calculate_time_taken_for_collection (Collection data None) elapsed
    = (Collection (settled data) None,
       ok (Summary (List.length data)
             (countp is_updated (outcomes data))
             (countp is_skipped (outcomes data))
             (countp is_failed (outcomes data)) el)).
Proof.
  intros Hu.
  unfold calculate_time_taken_for_collection, find_sorted. cbn.
  case_decide as Hd; [subst; by eexists |].
  eexists.
  destruct (for_loop_counters data 0 data (Counters data 0 0 0))
    as (-> & -> & ->).
  by rewrite (for_loop_stored data 0 data [] (Counters data 0 0 0)).
Qed.

End pass.

(** The documents that a pass over a reachable store leaves behind. *)
Definition after_run (data : list (gmap string value)) (elapsed : Z)
  : list (gmap string value) :=
  docs (calculate_time_taken_for_collection (Collection data None) elapsed).1.

Section events.
Implicit Types (data : list (gmap string value)).
Implicit Types (song nxt upd : gmap string value).

Lemma after_run_settled data elapsed :
  unique_ids data → after_run data elapsed = settled data.
Proof.
  intros Hu. unfold after_run.
  by destruct (run_spec data elapsed Hu) as [el ->].
Qed.

(** The branch for an event that has an older neighbour. *)
Lemma update_fields_newer data i song nxt p q tc tn dv dur :
  data !! (i + 1)%nat = Some nxt →
  song !! "played_at" = Some (VStr p) → Datetime.strptime p = ok tc →
  nxt !! "played_at" = Some (VStr q) → Datetime.strptime q = ok tn →
  song !! "duration" = Some dv → duration_total dv = ok dur →
  update_fields data i song
  = ok {[ "time_taken" :=
            VStr (time_taken_str
                    (Z.min (Datetime.sub_total_seconds tc tn) dur)) ]}.
Proof.
  intros Hn Hp Htc Hq Htn Hd Hdur.
  pose proof (lookup_lt_Some _ _ _ Hn) as Hlt.
  unfold update_fields.
  destruct (Z.ltb_spec (Z.of_nat i) (Z.of_nat (List.length data) - 1));
    [| lia].
  unfold getitem, list_getitem, ok, raise.
  rewrite Hp; cbn [bind strptime]. rewrite Htc; cbn [bind ok].
  rewrite Hn; cbn [bind]. rewrite Hq; cbn [bind strptime].
  rewrite Htn; cbn [bind ok]. rewrite Hd; cbn [bind].
  by rewrite Hdur.
Qed.

Lemma update_fields_newer_inv data i song upd :
  (i + 1 < List.length data)%nat →
  update_fields data i song = inr upd →
  ∃ cur tc nxt nx tn dv dur,
    song !! "played_at" = Some cur ∧ strptime cur = ok tc
    ∧ data !! (i + 1)%nat = Some nxt
    ∧ nxt !! "played_at" = Some nx ∧ strptime nx = ok tn
    ∧ song !! "duration" = Some dv ∧ duration_total dv = ok dur
    ∧ upd = {[ "time_taken" :=
                 VStr (time_taken_str
                         (Z.min (Datetime.sub_total_seconds tc tn) dur)) ]}.
Proof.
  intros Hlt. unfold update_fields.
  destruct (Z.ltb_spec (Z.of_nat i) (Z.of_nat (List.length data) - 1));
    [| lia].
  unfold bind, getitem, list_getitem, ok, raise. intros Hupd.
  repeat (case_match; try discriminate); simplify_eq.
  by eexists _, _, _, _, _, _, _.
Qed.

(** The branch for the last event of the batch. *)
Lemma update_fields_oldest data i song dv :
  (List.length data ≤ i + 1)%nat →
  song !! "duration" = Some dv →
  update_fields data i song = ok {[ "time_taken" := dv ]}.
Proof.
  intros Hlt Hd. unfold update_fields.
  destruct (Z.ltb_spec (Z.of_nat i) (Z.of_nat (List.length data) - 1));
    [lia |].
  unfold getitem. by rewrite Hd.
Qed.

Lemma settle_updated data i song id upd v :
  song !! "time_taken" = None → song !! "_id" = Some id →
  update_fields data i song = ok {[ "time_taken" := v ]} →
  settle data i song = <[ "time_taken" := v ]> song.
Proof.
  intros Ht Hid Hu. unfold settle.
  assert (classify data i song = Updated id {[ "time_taken" := v ]}) as ->
    by by apply classify_updated.
  by rewrite insert_union_singleton_l.
Qed.

Lemma newer_event_settled data elapsed i song nxt id p q tc tn dv dur :
  unique_ids data →
  data !! i = Some song → data !! (i + 1)%nat = Some nxt →
  song !! "time_taken" = None → song !! "_id" = Some id →
  song !! "played_at" = Some (VStr p) → Datetime.strptime p = ok tc →
  nxt !! "played_at" = Some (VStr q) → Datetime.strptime q = ok tn →
  song !! "duration" = Some dv → duration_total dv = ok dur →
  after_run data elapsed !! i
  = Some (<[ "time_taken" :=
               VStr (time_taken_str
                       (Z.min (Datetime.sub_total_seconds tc tn) dur)) ]>
            song).
Proof.
  intros Hu Hi Hn Ht Hid Hp Htc Hq Htn Hd Hdur.
  rewrite after_run_settled, lookup_settled, Hi by done. cbn. f_equal.
  eapply settle_updated; [done .. |].
  by eapply update_fields_newer.
Qed.

Lemma time_taken_str_negative (actual : Z) :
  actual < 0 → ∃ t, time_taken_str actual = String "-" t.
Proof.
  intros Hneg. unfold time_taken_str.
  assert (actual / 60 < 0) as Hq by (Z.div_mod_to_equations; lia).
  destruct (actual / 60) as [| q | q]; [lia .. |].
  rewrite str_neg. by eexists.
Qed.

End events.

(** ** Example data *)

Definition event (id : N) (played_at duration : string)
  : gmap string value :=
  {[ "_id" := ObjectId id;
     "played_at" := VStr played_at;
     "duration" := VStr duration ]}.

(** Two plays three minutes apart, newest first. *)
Definition two_plays : list (gmap string value) :=
  [ event 1 "2024-01-01 10:05:00" "3:30";
    event 2 "2024-01-01 10:02:00" "4:00" ].

(** The same two plays with their timestamps exchanged. *)
Definition out_of_order : list (gmap string value) :=
  [ event 1 "2024-01-01 10:02:00" "3:30";
    event 2 "2024-01-01 10:05:00" "4:00" ].

(** A batch whose second play was already estimated. *)
Definition partly_done : list (gmap string value) :=
  [ event 1 "2024-01-01 10:05:00" "3:30";
    <[ "time_taken" := VStr "1:15" ]> (event 2 "2024-01-01 10:02:00" "4:00");
    event 3 "2024-01-01 09:58:00" "2:45" ].

Ltac by_evaluation := vm_compute; reflexivity.
Ltac ids_distinct :=
  unfold unique_ids; apply (bool_decide_unpack _); vm_compute; exact I.

(** ** The claims about the estimator *)

(** C1. An event that lacks [time_taken] and has an older neighbour gets
    [time_taken = min(gap_seconds, duration_seconds)] as minutes:seconds
    text, where the gap is the difference of the two [played_at] in seconds
    and the duration is [minutes * 60 + seconds] of its duration text; the
    text reads back as that number of seconds. *)
Theorem newer_event_gets_min_of_gap_and_duration
    (data : list (gmap string value)) (elapsed : Z) (i : nat)
    (song nxt : gmap string value) (id : value) (p q : string)
    (tc tn : datetime) (ds : string) (dur : Z) :
  unique_ids data →
  data !! i = Some song → data !! (i + 1)%nat = Some nxt →
  song !! "time_taken" = None → song !! "_id" = Some id →
  song !! "played_at" = Some (VStr p) → Datetime.strptime p = ok tc →
  nxt !! "played_at" = Some (VStr q) → Datetime.strptime q = ok tn →
  song !! "duration" = Some (VStr ds) → duration_total (VStr ds) = ok dur →
  after_run data elapsed !! i
  = Some (<[ "time_taken" :=
               VStr (time_taken_str
                       (Z.min (Datetime.sub_total_seconds tc tn) dur)) ]> song)
  ∧ duration_total
      (VStr (time_taken_str (Z.min (Datetime.sub_total_seconds tc tn) dur)))
    = ok (Z.min (Datetime.sub_total_seconds tc tn) dur).
Proof.
  intros. split.
  - by eapply newer_event_settled.
  - apply duration_total_time_taken_str.
Qed.

(** The example of the specification: a gap of 180 s against a duration of
    210 s gives ["3:00"]. *)
Lemma newer_event_gets_min_of_gap_and_duration_witness :
  after_run two_plays 0 !! 0%nat
  = Some (<[ "time_taken" := VStr "3:00" ]>
            (event 1 "2024-01-01 10:05:00" "3:30"))
  ∧ duration_total (VStr "3:00") = ok 180.
Proof.
  apply (newer_event_gets_min_of_gap_and_duration two_plays 0 0
           (event 1 "2024-01-01 10:05:00" "3:30")
           (event 2 "2024-01-01 10:02:00" "4:00")
           (ObjectId 1) "2024-01-01 10:05:00" "2024-01-01 10:02:00"
           (Datetime 2024 1 1 10 5 0) (Datetime 2024 1 1 10 2 0) "3:30" 210);
    first [ids_distinct | by_evaluation].
Defined.

(** C2. The last (oldest) event of a non-empty batch, if it lacks
    [time_taken], gets its [duration] value verbatim. *)
Theorem oldest_event_gets_duration_verbatim
    (data : list (gmap string value)) (elapsed : Z)
    (song : gmap string value) (id dv : value) :
  unique_ids data →
  last data = Some song →
  song !! "time_taken" = None → song !! "_id" = Some id →
  song !! "duration" = Some dv →
  last (after_run data elapsed) = Some (<[ "time_taken" := dv ]> song).
Proof.
  intros Hu Hl Ht Hid Hd.
  rewrite after_run_settled by done.
  rewrite last_lookup in Hl |- *.
  unfold settled at 1. rewrite length_settle_from.
  rewrite lookup_settled, Hl. cbn. f_equal.
  eapply settle_updated; [done .. |].
  apply update_fields_oldest; [lia | done].
Qed.

Lemma oldest_event_gets_duration_verbatim_witness :
  last (after_run two_plays 0)
  = Some (<[ "time_taken" := VStr "4:00" ]>
            (event 2 "2024-01-01 10:02:00" "4:00")).
Proof.
  apply (oldest_event_gets_duration_verbatim two_plays 0
           (event 2 "2024-01-01 10:02:00" "4:00") (ObjectId 2) (VStr "4:00"));
    first [ids_distinct | by_evaluation].
Defined.

(** C3. When the event's [played_at] is earlier than that of the next
    event of the batch, the gap is negative and nothing clamps it: the
    stored text is that of [min(gap_seconds, duration_seconds)], which is
    negative, starts with a minus sign and reads back as that number. *)
Theorem negative_gap_is_not_clamped
    (data : list (gmap string value)) (elapsed : Z) (i : nat)
    (song nxt : gmap string value) (id : value) (p q : string)
    (tc tn : datetime) (ds : string) (dur : Z) :
  unique_ids data →
  data !! i = Some song → data !! (i + 1)%nat = Some nxt →
  song !! "time_taken" = None → song !! "_id" = Some id →
  song !! "played_at" = Some (VStr p) → Datetime.strptime p = ok tc →
  nxt !! "played_at" = Some (VStr q) → Datetime.strptime q = ok tn →
  song !! "duration" = Some (VStr ds) → duration_total (VStr ds) = ok dur →
  Datetime.sub_total_seconds tc tn < 0 →
  ∃ text,
    after_run data elapsed !! i
    = Some (<[ "time_taken" := VStr (String "-" text) ]> song)
    ∧ String "-" text
      = time_taken_str (Z.min (Datetime.sub_total_seconds tc tn) dur)
    ∧ Z.min (Datetime.sub_total_seconds tc tn) dur < 0
    ∧ duration_total (VStr (String "-" text))
      = ok (Z.min (Datetime.sub_total_seconds tc tn) dur).
Proof.
  intros Hu Hi Hn Ht Hid Hp Htc Hq Htn Hd Hdur Hneg.
  assert (Z.min (Datetime.sub_total_seconds tc tn) dur < 0) as Hmin by lia.
  destruct (time_taken_str_negative _ Hmin) as [text Htext].
  exists text. rewrite <- Htext.
  split; [by eapply newer_event_settled |].
  split; [done |]. split; [done |].
  apply duration_total_time_taken_str.
Qed.

Lemma negative_gap_is_not_clamped_witness :
  ∃ text,
    after_run out_of_order 0 !! 0%nat
    = Some (<[ "time_taken" := VStr (String "-" text) ]>
              (event 1 "2024-01-01 10:02:00" "3:30"))
    ∧ String "-" text = time_taken_str (Z.min (-180) 210)
    ∧ Z.min (-180) 210 < 0
    ∧ duration_total (VStr (String "-" text)) = ok (Z.min (-180) 210).
Proof.
  apply (negative_gap_is_not_clamped out_of_order 0 0
           (event 1 "2024-01-01 10:02:00" "3:30")
           (event 2 "2024-01-01 10:05:00" "4:00")
           (ObjectId 1) "2024-01-01 10:02:00" "2024-01-01 10:05:00"
           (Datetime 2024 1 1 10 2 0) (Datetime 2024 1 1 10 5 0) "3:30" 210);
    first [ids_distinct | by_evaluation].
Defined.

Example negative_gap_text : time_taken_str (Z.min (-180) 210) = "-3:00".
Proof. by_evaluation. Qed.

Section counting.
Implicit Types (data rest : list (gmap string value)).

Lemma countp_skipped_from data i rest :
  countp is_skipped (outcomes_from data i rest)
  = List.length
      (filter (λ song : gmap string value,
                 is_Some (song !! "time_taken")) rest).
Proof.
  revert i. induction rest as [| song rest IH]; intros i; [done |].
  cbn [outcomes_from countp]. rewrite IH.
  destruct (decide (is_Some (song !! "time_taken"))) as [Ht | Ht].
  - rewrite filter_cons_True by done.
    by rewrite (proj2 (classify_skipped data i song) Ht).
  - rewrite filter_cons_False by done.
    destruct (classify data i song) eqn:Hc; [| done ..].
    by apply classify_skipped in Hc.
Qed.

(** Exactly one failure among outcomes that are otherwise updates. *)
Lemma countp_single_failure (os : list outcome) (k : nat) (e : exn) :
  os !! k = Some (Failed e) →
  (∀ j o, j ≠ k → os !! j = Some o → is_updated o = true) →
  countp is_failed os = 1%nat
  ∧ countp is_updated os = (List.length os - 1)%nat
  ∧ countp is_skipped os = 0%nat.
Proof.
  revert k. induction os as [| o os IH]; intros k Hk Hrest; [done |].
  destruct k as [| k]; cbn in Hk.
  - simplify_eq. cbn.
    assert (countp is_failed os = 0 ∧ countp is_updated os = List.length os
            ∧ countp is_skipped os = 0)%nat as (-> & -> & ->); [| lia].
    clear IH.
    assert (∀ j o, os !! j = Some o → is_updated o = true) as Hall
      by (intros j o Ho; by apply (Hrest (S j) o)).
    clear Hrest. induction os as [| o os IH]; [done |].
    pose proof (Hall 0%nat o eq_refl) as Ho.
    destruct IH as (? & ? & ?);
      [intros j o' Ho'; by apply (Hall (S j) o') |].
    destruct o; try discriminate. cbn. lia.
  - pose proof (Hrest 0%nat o ltac:(done) eq_refl) as Ho.
    cbn [countp List.length].
    destruct (IH k Hk) as (-> & -> & ->).
    { intros j o' Hj Ho'. apply (Hrest (S j) o'); [lia | done]. }
    apply lookup_lt_Some in Hk.
    destruct o; try discriminate. cbn. lia.
Qed.

End counting.

(** C4. An event that already has [time_taken] is counted as skipped and is
    left exactly as it was: the iteration only increments the skip counter,
    the pass leaves the document unchanged, and the summary's [skipped] is
    the number of events that already had the field. *)
Theorem already_estimated_is_skipped_and_unchanged
    (data : list (gmap string value)) (elapsed : Z) (i : nat)
    (song : gmap string value) :
  unique_ids data →
  data !! i = Some song →
  is_Some (song !! "time_taken") →
  (∀ st, loop_body data st i song
         = Counters (stored st) (updated_count st) (S (skipped_count st))
             (error_count st))
  ∧ ∃ c' s,
      calculate_time_taken_for_collection (Collection data None) elapsed
      = (c', ok s)
      ∧ docs c' !! i = Some song
      ∧ skipped s
        = List.length
            (filter (λ song : gmap string value,
                       is_Some (song !! "time_taken")) data).
Proof.
  intros Hu Hi Ht. split.
  - intros st. unfold loop_body. by rewrite decide_True.
  - destruct (run_spec data elapsed Hu) as [el ->].
    eexists _, _. split; [done |]. cbn. split.
    + rewrite lookup_settled, Hi. cbn. unfold settle.
      by rewrite (proj2 (classify_skipped data i song) Ht).
    + apply countp_skipped_from.
Qed.

Lemma already_estimated_is_skipped_and_unchanged_witness :
  (∀ st, loop_body partly_done st 1
           (<[ "time_taken" := VStr "1:15" ]>
              (event 2 "2024-01-01 10:02:00" "4:00"))
         = Counters (stored st) (updated_count st) (S (skipped_count st))
             (error_count st))
  ∧ ∃ c' s,
      calculate_time_taken_for_collection (Collection partly_done None) 7
      = (c', ok s)
      ∧ docs c' !! 1%nat
        = Some (<[ "time_taken" := VStr "1:15" ]>
                  (event 2 "2024-01-01 10:02:00" "4:00"))
      ∧ skipped s
        = List.length
            (filter (λ song : gmap string value,
                       is_Some (song !! "time_taken")) partly_done).
Proof.
  apply (already_estimated_is_skipped_and_unchanged partly_done 7 1
           (<[ "time_taken" := VStr "1:15" ]>
              (event 2 "2024-01-01 10:02:00" "4:00")));
    [ids_distinct | by_evaluation | by eexists].
Defined.

(** C7. A non-oldest event that the pass has given a [time_taken] has one
    that, read back as seconds, is at most its duration in seconds. *)
Theorem time_taken_at_most_duration
    (data : list (gmap string value)) (elapsed : Z) (i : nat)
    (song song' : gmap string value) (v : value) :
  unique_ids data →
  data !! i = Some song → (i + 1 < List.length data)%nat →
  song !! "time_taken" = None →
  after_run data elapsed !! i = Some song' →
  song' !! "time_taken" = Some v →
  ∃ ts ds taken dur,
    v = VStr ts ∧ song !! "duration" = Some (VStr ds)
    ∧ duration_total (VStr ts) = ok taken
    ∧ duration_total (VStr ds) = ok dur
    ∧ taken ≤ dur.
Proof.
  intros Hu Hi Hlt Ht Hafter Hv.
  rewrite after_run_settled, lookup_settled, Hi in Hafter by done.
  cbn in Hafter. injection Hafter as <-.
  unfold settle in Hv.
  destruct (classify data i song) as [| id upd | e] eqn:Hc;
    [congruence | | congruence].
  apply classify_updated in Hc as (_ & Hupd & _).
  apply update_fields_newer_inv in Hupd
    as (cur & tc & nxt & nx & tn & dv & dur & _ & _ & _ & _ & _ & Hd & Hdur
        & ->); [| done].
  rewrite <- insert_union_singleton_l, lookup_insert_eq in Hv.
  injection Hv as <-.
  destruct dv as [ds | |]; try discriminate.
  eexists _, ds, _, dur. split; [done |]. split; [done |].
  split; [apply duration_total_time_taken_str |]. split; [done | lia].
Qed.

Lemma time_taken_at_most_duration_witness :
  ∃ ts ds taken dur,
    VStr "3:00" = VStr ts
    ∧ event 1 "2024-01-01 10:05:00" "3:30" !! "duration" = Some (VStr ds)
    ∧ duration_total (VStr ts) = ok taken
    ∧ duration_total (VStr ds) = ok dur
    ∧ taken ≤ dur.
Proof.
  apply (time_taken_at_most_duration two_plays 0 0
           (event 1 "2024-01-01 10:05:00" "3:30")
           (<[ "time_taken" := VStr "3:00" ]>
              (event 1 "2024-01-01 10:05:00" "3:30")) (VStr "3:00"));
    first [ids_distinct | by_evaluation | vm_compute; lia].
Defined.

(** C10. For every input, the empty one included, the pass returns a
    summary whose [total_docs] is the number of events and the sum of
    [updated], [skipped] and [errors]. *)
Theorem summary_counters_partition_the_events
    (data : list (gmap string value)) (elapsed : Z) :
  ∃ c' s,
    calculate_time_taken_for_collection (Collection data None) elapsed
    = (c', ok s)
    ∧ total_docs s = List.length data
    ∧ total_docs s = (updated s + skipped s + errors s)%nat.
Proof.
  destruct (run_summary data elapsed) as (c' & el & ->).
  eexists _, _. split; [done |]. cbn. split; [done |].
  rewrite countp_total. unfold outcomes. by rewrite length_outcomes_from.
Qed.

(** ** A second pass *)

(** What a second pass makes of an event, given what the first made of it:
    a failure fails again, everything else now carries [time_taken]. *)
Definition again (o : outcome) : outcome :=
  match o with
  | Failed e => Failed e
  | _ => Skipped
  end.

Section second_pass.
Implicit Types (data rest : list (gmap string value)).
Implicit Types (song : gmap string value).

Lemma ids_settle_from data i rest : ids (settle_from data i rest) = ids rest.
Proof.
  revert i. induction rest as [| song rest IH]; intros i; [done |].
  unfold ids in *. cbn. by rewrite settle_other_key, IH.
Qed.

Lemma unique_ids_settled data : unique_ids data → unique_ids (settled data).
Proof. unfold unique_ids, settled. by rewrite ids_settle_from. Qed.

(** [update_fields] looks at the batch only for its length and for the
    [played_at] of the next event. *)
Lemma update_fields_ext data data' i song :
  List.length data' = List.length data →
  (λ d : gmap string value, d !! "played_at") <$> data' !! (i + 1)%nat
  = (λ d : gmap string value, d !! "played_at") <$> data !! (i + 1)%nat →
  update_fields data' i song = update_fields data i song.
Proof.
  intros Hlen Hnext. unfold update_fields. rewrite Hlen.
  case_match; [| done].
  unfold bind, list_getitem, getitem, ok, raise.
  destruct (song !! "played_at") as [cur |]; [| done].
  destruct (strptime cur); [done |].
  destruct (data' !! (i + 1)%nat) as [n' |], (data !! (i + 1)%nat) as [n |];
    cbn in Hnext; try done.
  injection Hnext as ->. done.
Qed.

Lemma update_fields_settled data i song :
  update_fields (settled data) i song = update_fields data i song.
Proof.
  apply update_fields_ext.
  - apply length_settle_from.
  - rewrite lookup_settled. destruct (data !! (i + 1)%nat); [| done].
    cbn. by rewrite settle_other_key.
Qed.

Lemma classify_settled data i song :
  classify (settled data) i (settle data i song)
  = again (classify data i song).
Proof.
  unfold settle.
  destruct (classify data i song) as [| id upd | e] eqn:Hc; cbn.
  - apply classify_skipped. by apply classify_skipped in Hc.
  - apply classify_skipped.
    apply classify_updated in Hc as (_ & Hupd & _).
    apply update_fields_singleton in Hupd as [v ->].
    rewrite <- insert_union_singleton_l, lookup_insert_eq. by eexists.
  - unfold classify in Hc |- *. rewrite update_fields_settled.
    case_decide; [done |].
    destruct (update_fields data i song); [done |].
    by destruct (getitem song "_id").
Qed.

Lemma outcomes_settled data :
  outcomes (settled data) = again <$> outcomes data.
Proof.
  apply list_eq. intros k.
  rewrite list_lookup_fmap, !lookup_outcomes, lookup_settled.
  destruct (data !! k) as [song |]; [| done].
  cbn. by rewrite classify_settled.
Qed.

Lemma settled_settled data : settled (settled data) = settled data.
Proof.
  apply list_eq. intros k. rewrite !lookup_settled.
  destruct (data !! k) as [song |]; [| done].
  cbn. f_equal. unfold settle at 1. rewrite classify_settled.
  by destruct (classify data k song).
Qed.

Lemma countp_again (os : list outcome) :
  countp is_updated (again <$> os) = 0%nat
  ∧ countp is_failed (again <$> os) = countp is_failed os
  ∧ (countp is_skipped (again <$> os) + countp is_failed os)%nat
    = List.length os.
Proof.
  induction os as [| o os (IH1 & IH2 & IH3)]; [done |].
  cbn [fmap list_fmap countp List.length]. rewrite IH1, IH2.
  destruct o; cbn; lia.
Qed.

End second_pass.

(** A batch whose newer play has a duration that is no [minutes:seconds]
    text. *)
Definition bad_newer : list (gmap string value) :=
  [ event 1 "2024-01-01 10:05:00" "abc";
    event 2 "2024-01-01 10:02:00" "4:00" ].

(** Five plays none of which has [time_taken]; the third has the duration
    ["abc"]. *)
Definition five_bad_third : list (gmap string value) :=
  [ event 1 "2024-01-01 10:20:00" "3:30";
    event 2 "2024-01-01 10:16:00" "4:00";
    event 3 "2024-01-01 10:12:00" "abc";
    event 4 "2024-01-01 10:08:00" "2:45";
    event 5 "2024-01-01 10:04:00" "5:10" ].

(** The same five plays with the duration ["abc"] on the oldest one. *)
Definition five_bad_oldest : list (gmap string value) :=
  [ event 1 "2024-01-01 10:20:00" "3:30";
    event 2 "2024-01-01 10:16:00" "4:00";
    event 3 "2024-01-01 10:12:00" "1:59";
    event 4 "2024-01-01 10:08:00" "2:45";
    event 5 "2024-01-01 10:04:00" "abc" ].

Example abc_is_no_duration :
  duration_total (VStr "abc")
  = raise (ValueError "not enough values to unpack (expected 2, got 1)").
Proof. reflexivity. Qed.

(** A malformed duration fails the iteration of an event that has an older
    neighbour. *)
Lemma malformed_duration_fails (data : list (gmap string value)) (i : nat)
    (song nxt : gmap string value) (p q : string) (tc tn : datetime)
    (dv : value) (e : exn) :
  data !! (i + 1)%nat = Some nxt →
  song !! "played_at" = Some (VStr p) → Datetime.strptime p = ok tc →
  nxt !! "played_at" = Some (VStr q) → Datetime.strptime q = ok tn →
  song !! "duration" = Some dv → duration_total dv = raise e →
  update_fields data i song = raise e.
Proof.
  intros Hn Hp Htc Hq Htn Hd Hdur.
  pose proof (lookup_lt_Some _ _ _ Hn) as Hlt.
  unfold update_fields.
  destruct (Z.ltb_spec (Z.of_nat i) (Z.of_nat (List.length data) - 1));
    [| lia].
  unfold getitem, list_getitem, ok, raise.
  rewrite Hp; cbn [bind strptime]. rewrite Htc; cbn [bind ok].
  rewrite Hn; cbn [bind]. rewrite Hq; cbn [bind strptime].
  rewrite Htn; cbn [bind ok]. rewrite Hd; cbn [bind].
  by rewrite Hdur.
Qed.

(** C5, as the code has it.  A second pass over what a first pass left
    changes no document and updates nothing; the events that failed in the
    first pass fail again, and all the others are skipped: [skipped] is
    [total_docs] less the errors, hence [total_docs] when the first pass
    had no error. *)
Theorem second_pass_changes_nothing
    (data : list (gmap string value)) (elapsed1 elapsed2 : Z) :
  unique_ids data →
  ∃ c1 s1 s2,
    calculate_time_taken_for_collection (Collection data None) elapsed1
    = (c1, ok s1)
    ∧ calculate_time_taken_for_collection c1 elapsed2 = (c1, ok s2)
    ∧ updated s2 = 0%nat
    ∧ errors s2 = errors s1
    ∧ (skipped s2 + errors s1)%nat = total_docs s1
    ∧ total_docs s2 = total_docs s1.
Proof.
  intros Hu.
  destruct (run_spec data elapsed1 Hu) as [el1 H1].
  destruct (run_spec (settled data) elapsed2 (unique_ids_settled _ Hu))
    as [el2 H2].
  rewrite settled_settled in H2.
  eexists _, _, _. split; [exact H1 |]. split; [exact H2 |]. cbn.
  rewrite outcomes_settled.
  destruct (countp_again (outcomes data)) as (-> & -> & ->).
  unfold settled, outcomes.
  by rewrite length_settle_from, length_outcomes_from.
Qed.

Lemma second_pass_changes_nothing_witness :
  ∃ c1 s1 s2,
    calculate_time_taken_for_collection (Collection bad_newer None) 3
    = (c1, ok s1)
    ∧ calculate_time_taken_for_collection c1 4 = (c1, ok s2)
    ∧ updated s2 = 0%nat
    ∧ errors s2 = errors s1
    ∧ (skipped s2 + errors s1)%nat = total_docs s1
    ∧ total_docs s2 = total_docs s1.
Proof.
  apply (second_pass_changes_nothing bad_newer 3 4). ids_distinct.
Defined.

(** C5 as it is stated fails when the first pass had an error: the event
    that failed is not skipped by the second pass. *)
Lemma second_pass_skips_fewer_than_total :
  ∃ c1 s1 s2,
    calculate_time_taken_for_collection (Collection bad_newer None) 3
    = (c1, ok s1)
    ∧ calculate_time_taken_for_collection c1 4 = (c1, ok s2)
    ∧ updated s2 = 0%nat ∧ errors s2 = 1%nat
    ∧ skipped s2 = 1%nat ∧ total_docs s2 = 2%nat
    ∧ skipped s2 ≠ total_docs s2.
Proof.
  eexists _, _, _.
  split; [by_evaluation |]. split; [by_evaluation |].
  cbn. repeat split; lia.
Qed.

(** Five plays in the order of the sort, none of which has [time_taken];
    the [played_at] of the third has the second 60 and cannot be read. *)
Definition five_unreadable_third : list (gmap string value) :=
  [ event 1 "2024-01-01 10:20:00" "3:30";
    event 2 "2024-01-01 10:16:00" "4:00";
    event 3 "2024-01-01 10:12:60" "1:59";
    event 4 "2024-01-01 10:08:00" "2:45";
    event 5 "2024-01-01 10:04:00" "5:10" ].

Section failures.
Implicit Types (data : list (gmap string value)).
Implicit Types (song bad nxt older : gmap string value).

(** Two failures among the outcomes. *)
Lemma countp_two_failures (os : list outcome) (i j : nat) (e1 e2 : exn) :
  i ≠ j → os !! i = Some (Failed e1) → os !! j = Some (Failed e2) →
  (2 ≤ countp is_failed os)%nat.
Proof.
  assert (∀ os k e, os !! k = Some (Failed e) →
            (1 ≤ countp is_failed os)%nat) as Hone.
  { clear. intros os. induction os as [| o os IH]; intros k e Hk; [done |].
    destruct k as [| k]; cbn in Hk.
    - simplify_eq. cbn. lia.
    - specialize (IH k e Hk). cbn. lia. }
  revert i j. induction os as [| o os IH]; intros i j Hij Hi Hj; [done |].
  destruct i as [| i], j as [| j]; cbn in Hi, Hj; simplify_eq.
  - specialize (Hone os j e2 Hj). cbn. lia.
  - specialize (Hone os i e1 Hi). cbn. lia.
  - assert (i ≠ j) as Hne by lia. specialize (IH i j Hne Hi Hj). cbn. lia.
Qed.

(** An unreadable [played_at] fails the event before it, which reads it
    for its gap, and the event that carries it when that has an older
    neighbour. *)
Lemma unreadable_next_fails data i song bad e :
  data !! (i + 1)%nat = Some bad →
  (cur ←! getitem bad "played_at"; strptime cur) = raise e →
  ∃ e', update_fields data i song = raise e'.
Proof.
  intros Hb Hbad.
  pose proof (lookup_lt_Some _ _ _ Hb) as Hlt.
  unfold update_fields.
  destruct (Z.ltb_spec (Z.of_nat i) (Z.of_nat (List.length data) - 1));
    [| lia].
  destruct (getitem song "played_at") as [e1 | cur]; [by exists e1 |].
  cbn [bind]. destruct (strptime cur) as [e2 | tc]; [by exists e2 |].
  cbn [bind]. unfold list_getitem, ok. rewrite Hb; cbn [bind].
  exists e. unfold bind in Hbad |- *. by destruct (getitem bad "played_at");
    [injection Hbad as -> | rewrite Hbad].
Qed.

Lemma unreadable_own_fails data i bad older e :
  data !! (i + 1)%nat = Some older →
  (cur ←! getitem bad "played_at"; strptime cur) = raise e →
  update_fields data i bad = raise e.
Proof.
  intros Ho Hbad.
  pose proof (lookup_lt_Some _ _ _ Ho) as Hlt.
  unfold update_fields.
  destruct (Z.ltb_spec (Z.of_nat i) (Z.of_nat (List.length data) - 1));
    [| lia].
  unfold bind in Hbad |- *. by destruct (getitem bad "played_at");
    [injection Hbad as -> | rewrite Hbad].
Qed.

(** The iteration of an event without [time_taken] fails when its
    [update_fields] cannot be computed or its [_id] cannot be read. *)
Lemma classify_failed data i song e :
  song !! "time_taken" = None →
  update_fields data i song = raise e
  ∨ (∃ upd, update_fields data i song = ok upd
            ∧ getitem song "_id" = raise e) →
  classify data i song = Failed e.
Proof.
  intros Ht Hfail. unfold classify.
  rewrite decide_False by by apply eq_None_not_Some.
  destruct Hfail as [-> | (upd & -> & ->)]; done.
Qed.

(** An event whose own fields and whose neighbour's [played_at] are sound
    is updated. *)
Lemma sound_event_is_updated data k j song :
  (∀ i s, data !! i = Some s →
     s !! "time_taken" = None ∧ is_Some (s !! "_id")
     ∧ (∃ p t, s !! "played_at" = Some (VStr p) ∧ Datetime.strptime p = ok t)
     ∧ ∃ dv, s !! "duration" = Some dv
             ∧ (i ≠ k → (i + 1 < List.length data)%nat →
                ∃ d, duration_total dv = ok d)) →
  j ≠ k → data !! j = Some song →
  is_updated (classify data j song) = true.
Proof.
  intros Hall Hj Hs.
  destruct (Hall j song Hs) as (Ht & [id Hid] & (p & t & Hp & Hpt)
                                & dv & Hd & Hdur).
  destruct (decide (j + 1 < List.length data)%nat) as [Hlt | Hge].
  - destruct (lookup_lt_is_Some_2 data (j + 1) Hlt) as [nxt Hn].
    destruct (Hall (j + 1)%nat nxt Hn)
      as (_ & _ & (q & tn & Hq & Hqt) & _).
    destruct (Hdur Hj Hlt) as [d Hdv].
    by rewrite (proj2 (classify_updated data j song id _)
                  (conj Ht (conj (update_fields_newer data j song nxt p q t
                                    tn dv d Hn Hp Hpt Hq Hqt Hd Hdv) Hid))).
  - by rewrite (proj2 (classify_updated data j song id _)
                  (conj Ht (conj (update_fields_oldest data j song dv
                                    ltac:(lia) Hd) Hid))).
Qed.

End failures.

(** C6, as the code has it.  The pass always completes, and [errors] is
    the number of events whose iteration failed.  An iteration that fails,
    in [update_fields] or at the [_id], only increments the error counter
    and leaves its event as it was, and every event without [time_taken]
    whose own iteration succeeds is updated, whatever failed elsewhere.
    When the only fault of the batch is a malformed duration on one event
    that is not the oldest, that is the only failure: one error, all the
    others updated.  On the oldest event the duration is copied as it is,
    malformed or not.  An unreadable or missing [played_at] on an event
    between two others is read by two iterations, its own and that of the
    event before it, and fails both: at least two errors, both events left
    as they were. *)
Theorem event_failures_are_isolated
    (data : list (gmap string value)) (elapsed : Z) :
  unique_ids data →
  ∃ c' s,
    calculate_time_taken_for_collection (Collection data None) elapsed
    = (c', ok s)
    ∧ errors s = countp is_failed (outcomes data)
    ∧ (∀ k song e,
         data !! k = Some song → song !! "time_taken" = None →
         update_fields data k song = raise e
         ∨ (∃ upd, update_fields data k song = ok upd
                   ∧ getitem song "_id" = raise e) →
         (∀ st, loop_body data st k song
                = Counters (stored st) (updated_count st) (skipped_count st)
                    (S (error_count st)))
         ∧ docs c' !! k = Some song)
    ∧ (∀ j song upd,
         data !! j = Some song → song !! "time_taken" = None →
         is_Some (song !! "_id") → update_fields data j song = ok upd →
         ∃ v, upd = {[ "time_taken" := v ]}
              ∧ docs c' !! j = Some (<[ "time_taken" := v ]> song))
    ∧ (∀ k bad dv e,
         data !! k = Some bad → (k + 1 < List.length data)%nat →
         bad !! "duration" = Some dv → duration_total dv = raise e →
         (∀ i song, data !! i = Some song →
            song !! "time_taken" = None ∧ is_Some (song !! "_id")
            ∧ (∃ p t, song !! "played_at" = Some (VStr p)
                      ∧ Datetime.strptime p = ok t)
            ∧ ∃ dv', song !! "duration" = Some dv'
                     ∧ (i ≠ k → (i + 1 < List.length data)%nat →
                        ∃ d, duration_total dv' = ok d)) →
         errors s = 1%nat ∧ updated s = (List.length data - 1)%nat
         ∧ skipped s = 0%nat ∧ docs c' !! k = Some bad)
    ∧ (∀ k song dv,
         data !! k = Some song → (List.length data ≤ k + 1)%nat →
         song !! "time_taken" = None → is_Some (song !! "_id") →
         song !! "duration" = Some dv →
         docs c' !! k = Some (<[ "time_taken" := dv ]> song))
    ∧ (∀ k song bad older e,
         data !! k = Some song → data !! (k + 1)%nat = Some bad →
         data !! (k + 2)%nat = Some older →
         song !! "time_taken" = None → bad !! "time_taken" = None →
         (cur ←! getitem bad "played_at"; strptime cur) = raise e →
         (2 ≤ errors s)%nat
         ∧ docs c' !! k = Some song ∧ docs c' !! (k + 1)%nat = Some bad).
Proof.
  intros Hu. destruct (run_spec data elapsed Hu) as [el ->].
  eexists _, _. split; [done |]. cbn [errors updated skipped docs].
  assert (∀ k song e,
            data !! k = Some song → song !! "time_taken" = None →
            update_fields data k song = raise e
            ∨ (∃ upd, update_fields data k song = ok upd
                      ∧ getitem song "_id" = raise e) →
            settled data !! k = Some song) as Hkept.
  { intros k song e Hk Ht Hfail.
    rewrite lookup_settled, Hk. cbn. unfold settle.
    by rewrite (classify_failed data k song e). }
  assert (∀ j song v,
            data !! j = Some song → song !! "time_taken" = None →
            is_Some (song !! "_id") →
            update_fields data j song = ok {[ "time_taken" := v ]} →
            settled data !! j = Some (<[ "time_taken" := v ]> song))
    as Hupdated.
  { intros j song v Hj Ht [id Hid] Hupd.
    rewrite lookup_settled, Hj. cbn. f_equal. by eapply settle_updated. }
  split; [done |]. split; [| split; [| split; [| split]]].
  - intros k song e Hk Ht Hfail. split; [| by eapply Hkept].
    intros st. by rewrite loop_body_classify, (classify_failed data k song e).
  - intros j song upd Hj Ht Hid Hupd.
    destruct (update_fields_singleton _ _ _ _ Hupd) as [v ->].
    exists v. split; [done |]. by apply Hupdated.
  - intros k bad dv e Hk Hlt Hd Hdur Hall.
    destruct (Hall k bad Hk) as (Ht & _ & (p & t & Hp & Hpt) & _).
    destruct (lookup_lt_is_Some_2 data (k + 1) Hlt) as [nxt Hn].
    destruct (Hall (k + 1)%nat nxt Hn) as (_ & _ & (q & tn & Hq & Hqt) & _).
    pose proof (malformed_duration_fails data k bad nxt p q t tn dv e
                  Hn Hp Hpt Hq Hqt Hd Hdur) as Hfail.
    destruct (countp_single_failure (outcomes data) k e) as (-> & -> & ->).
    { rewrite lookup_outcomes, Hk. cbn.
      rewrite (classify_failed data k bad e); [done .. |]. by left. }
    { intros j o Hj. rewrite lookup_outcomes.
      destruct (data !! j) as [song |] eqn:Hs; [| done].
      cbn. intros [= <-]. by eapply sound_event_is_updated. }
    unfold outcomes. rewrite length_outcomes_from.
    do 3 (split; [done |]). eapply Hkept; [done .. |]. by left.
  - intros k song dv Hk Hlast Ht Hid Hd.
    apply Hupdated; [done .. |]. by apply update_fields_oldest.
  - intros k song bad older e Hk Hb Ho Ht Htb Hbad.
    destruct (unreadable_next_fails data k song bad e Hb Hbad) as [e' H1].
    replace (k + 2)%nat with (k + 1 + 1)%nat in Ho by lia.
    pose proof (unreadable_own_fails data (k + 1) bad older e Ho Hbad) as H2.
    split; [| split; [apply (Hkept k song e' Hk Ht); by left
                     | apply (Hkept (k + 1)%nat bad e Hb Htb); by left]].
    apply (countp_two_failures (outcomes data) k (k + 1) e' e); [lia | |].
    + rewrite lookup_outcomes, Hk. cbn.
      rewrite (classify_failed data k song e'); [done .. |]. by left.
    + rewrite lookup_outcomes, Hb. cbn.
      rewrite (classify_failed data (k + 1) bad e); [done .. |]. by left.
Qed.

(** The example of C6, one event with the duration ["abc"] among five,
    when it is not the oldest: one error and four updates; and five events
    of which the third has an unreadable [played_at]: two errors. *)
Lemma event_failures_are_isolated_witness :
  (∃ c' s,
     calculate_time_taken_for_collection (Collection five_bad_third None) 0
     = (c', ok s)
     ∧ errors s = 1%nat ∧ updated s = 4%nat ∧ skipped s = 0%nat
     ∧ docs c' !! 2%nat = Some (event 3 "2024-01-01 10:12:00" "abc"))
  ∧ ∃ c' s,
      calculate_time_taken_for_collection
        (Collection five_unreadable_third None) 0
      = (c', ok s)
      ∧ (2 ≤ errors s)%nat
      ∧ docs c' !! 1%nat = Some (event 2 "2024-01-01 10:16:00" "4:00")
      ∧ docs c' !! 2%nat = Some (event 3 "2024-01-01 10:12:60" "1:59").
Proof.
  split.
  - destruct (event_failures_are_isolated five_bad_third 0
                ltac:(ids_distinct))
      as (c' & s & Hrun & _ & _ & _ & Hone & _).
    exists c', s. split; [exact Hrun |].
    apply (Hone 2%nat (event 3 "2024-01-01 10:12:00" "abc") (VStr "abc")
             (ValueError "not enough values to unpack (expected 2, got 1)"));
      [reflexivity | cbn; lia | reflexivity | reflexivity |].
    intros i song Hs.
    do 5 (destruct i as [| i];
          [injection Hs as <-;
           split; [reflexivity |]; split; [by eexists |];
           split; [eexists _, _; split; [reflexivity | by_evaluation] |];
           eexists; split; [reflexivity |];
           first [by intros [] | intros _ _; eexists; by_evaluation] |]).
    discriminate Hs.
  - destruct (event_failures_are_isolated five_unreadable_third 0
                ltac:(ids_distinct))
      as (c' & s & Hrun & _ & _ & _ & _ & _ & Htwo).
    exists c', s. split; [exact Hrun |].
    apply (Htwo 1%nat (event 2 "2024-01-01 10:16:00" "4:00")
             (event 3 "2024-01-01 10:12:60" "1:59")
             (event 4 "2024-01-01 10:08:00" "2:45")
             (ValueError "second must be in 0..59"));
      first [reflexivity | by_evaluation].
Defined.

(** C6 as it is stated fails when the malformed duration is on the oldest
    event: its duration is copied without being read, so the pass has no
    error and five updates. *)
Lemma malformed_duration_on_oldest_is_no_error :
  ∃ c' s,
    calculate_time_taken_for_collection (Collection five_bad_oldest None) 0
    = (c', ok s)
    ∧ errors s = 0%nat ∧ updated s = 5%nat
    ∧ last (docs c')
      = Some (<[ "time_taken" := VStr "abc" ]>
                (event 5 "2024-01-01 10:04:00" "abc"))
    ∧ ¬ (errors s = 1%nat ∧ updated s = 4%nat).
Proof.
  eexists _, _. split; [by_evaluation |].
  cbn [errors updated docs]. do 2 (split; [done |]).
  split; [by_evaluation | lia].
Qed.

(** ** The entry point and its notification *)

(** On the completion path the outcome of the notification does not change
    what the entry point returns. *)
Lemma completion_ignores_notification
    (E E' : environment) (data : list (gmap string value)) (elapsed : Z) :
  returned (lambda_handler E (Collection data None) elapsed)
  = returned (lambda_handler E' (Collection data None) elapsed)
  ∧ ∃ s, returned (lambda_handler E (Collection data None) elapsed)
         = ok (Response 200 "time_taken calculation completed" s).
Proof.
  unfold lambda_handler.
  destruct (run_summary data elapsed) as (c' & el & ->).
  assert (∀ F s, ∃ sent,
            send_sns F "Spotify Time Taken Updater" (PSummary s) = ok sent)
    as Hsend.
  { intros F s. unfold send_sns.
    destruct (SNS_TOPIC_ARN F) as [[| a arn] |]; [by eexists | | by eexists].
    cbn. destruct (publish_error F); by eexists. }
  cbn [bind ok].
  destruct (Hsend E (Summary (List.length data)
                       (countp is_updated (outcomes data))
                       (countp is_skipped (outcomes data))
                       (countp is_failed (outcomes data)) el)) as [s1 ->].
  destruct (Hsend E' (Summary (List.length data)
                        (countp is_updated (outcomes data))
                        (countp is_skipped (outcomes data))
                        (countp is_failed (outcomes data)) el)) as [s2 ->].
  cbn. split; [done | by eexists].
Qed.

(** On the failure path, without a topic the original error is raised
    again. *)
Lemma failure_without_topic_reraises
    (E : environment) (c : collection) (elapsed : Z) (e : exn) :
  find_error c = Some e → SNS_TOPIC_ARN E = None →
  returned (lambda_handler E c elapsed) = raise e.
Proof.
  intros Hf Ht. unfold lambda_handler, calculate_time_taken_for_collection,
    find_sorted, send_sns.
  by rewrite Hf, Ht.
Qed.

(** C8 on the failure path with a topic configured: [send_sns] is given
    the error text where it indexes a summary, the [TypeError] it raises
    escapes the [except] block, and the entry point raises that instead of
    the storage error; nothing is published. *)
Theorem failure_notification_replaces_the_error :
  let E := Environment (Some "arn:aws:sns:ap-southeast-1:1:updates") None in
  let c := Collection two_plays (Some (PyMongoError "connection refused")) in
  returned (lambda_handler E c 0)
  = raise (TypeError "string indices must be integers, not 'str'")
  ∧ published (lambda_handler E c 0) = None
  ∧ returned (lambda_handler (Environment None None) c 0)
    = raise (PyMongoError "connection refused").
Proof. split; [| split]; reflexivity. Qed.

(** ** The fetcher *)

(** C9. The duration text is made of [minutes = ms div 60000] and
    [seconds = (ms mod 60000) div 1000], each padded to two digits; the
    seconds lie in 0..59, both parts read back as those numbers, and the
    text denotes [ms div 1000] seconds, the duration cut to whole seconds. *)
Theorem duration_text_of_milliseconds (duration_ms : Z) :
  let minutes := duration_ms / 60000 in
  let seconds := (duration_ms mod 60000) / 1000 in
  duration_formatted duration_ms = Py.fmt02 minutes +:+ ":" +:+ Py.fmt02 seconds
  ∧ 0 ≤ seconds < 60
  ∧ Py.split_colon (duration_formatted duration_ms)
    = [Py.fmt02 minutes; Py.fmt02 seconds]
  ∧ Py.int (Py.fmt02 minutes) = ok minutes
  ∧ Py.int (Py.fmt02 seconds) = ok seconds
  ∧ duration_total (VStr (duration_formatted duration_ms))
    = ok (duration_ms / 1000).
Proof.
  intros minutes seconds. split; [done |].
  split; [subst seconds; Z.div_mod_to_equations; lia |].
  split.
  { unfold duration_formatted, Py.fmt02.
    rewrite split_colon_app by apply no_colon_zfill, no_colon_str.
    by rewrite split_colon_no_colon by apply no_colon_zfill, no_colon_str. }
  split; [apply int_zfill_str |]. split; [apply int_zfill_str |].
  unfold duration_formatted, Py.fmt02. rewrite duration_total_padded.
  f_equal. Z.div_mod_to_equations. lia.
Qed.

Example duration_text_3_30 : duration_formatted 210999 = "03:30".
Proof. by_evaluation. Qed.

(** * Further properties of the updater *)

Section more_pass.
Implicit Types (data rest : list (gmap string value)).
Implicit Types (song : gmap string value).

Lemma classify_failed_no_time_taken data i song e :
  classify data i song = Failed e → song !! "time_taken" = None.
Proof.
  unfold classify. case_decide as Ht; [done |].
  intros _. by apply eq_None_not_Some.
Qed.

(** After the pass a document carries [time_taken] unless its iteration
    failed. *)
Lemma settle_has_time_taken data i song :
  is_Some (settle data i song !! "time_taken")
  ↔ is_failed (classify data i song) = false.
Proof.
  unfold settle.
  destruct (classify data i song) as [| id upd | e] eqn:Hc; cbn.
  - split; [done |]. intros _. by apply classify_skipped in Hc.
  - split; [done |]. intros _.
    apply classify_updated in Hc as (_ & Hupd & _).
    apply update_fields_singleton in Hupd as [v ->].
    rewrite <- insert_union_singleton_l, lookup_insert_eq. by eexists.
  - split; [| done]. apply classify_failed_no_time_taken in Hc.
    rewrite Hc. by intros [? ?].
Qed.

Lemma count_settled_from data i rest :
  List.length
    (filter (λ song : gmap string value, song !! "time_taken" = None)
       (settle_from data i rest))
  = countp is_failed (outcomes_from data i rest)
  ∧ List.length
      (filter (λ song : gmap string value, is_Some (song !! "time_taken"))
         (settle_from data i rest))
    = (countp is_updated (outcomes_from data i rest)
       + countp is_skipped (outcomes_from data i rest))%nat.
Proof.
  revert i. induction rest as [| song rest IH]; intros i; [done |].
  cbn [settle_from outcomes_from countp].
  destruct (IH (S i)) as [IH1 IH2].
  pose proof (settle_has_time_taken data i song) as Hs.
  destruct (is_failed (classify data i song)) eqn:Hf.
  - assert (settle data i song !! "time_taken" = None) as Hn.
    { apply eq_None_not_Some. intros H. by apply Hs in H. }
    rewrite filter_cons_True by done.
    rewrite filter_cons_False by (rewrite Hn; by intros [? ?]).
    cbn [List.length]. rewrite IH1, IH2.
    destruct (classify data i song); try discriminate. cbn. lia.
  - assert (is_Some (settle data i song !! "time_taken")) as Hn
      by by apply Hs.
    rewrite filter_cons_False by (destruct Hn as [? Hn]; by rewrite Hn).
    rewrite filter_cons_True by done.
    cbn [List.length]. rewrite IH1, IH2.
    destruct (classify data i song); try discriminate; cbn; lia.
Qed.

(** [update_fields] reads the batch only at the next index. *)
Lemma update_fields_local data data' i song :
  (i < List.length data)%nat → (i < List.length data')%nat →
  (λ d : gmap string value, d !! "played_at") <$> data' !! (i + 1)%nat
  = (λ d : gmap string value, d !! "played_at") <$> data !! (i + 1)%nat →
  update_fields data' i song = update_fields data i song.
Proof.
  intros Hi Hi' Hnext. unfold update_fields.
  assert ((Z.of_nat i <? Z.of_nat (List.length data') - 1)
          = (Z.of_nat i <? Z.of_nat (List.length data) - 1)) as ->.
  { destruct (data' !! (i + 1)%nat) as [n' |] eqn:H',
      (data !! (i + 1)%nat) as [n |] eqn:H; cbn in Hnext; try done.
    - apply lookup_lt_Some in H, H'.
      transitivity true; [| symmetry]; apply Z.ltb_lt; lia.
    - apply lookup_ge_None in H, H'.
      transitivity false; [| symmetry]; apply Z.ltb_ge; lia. }
  case_match; [| done].
  unfold bind, list_getitem, getitem, ok, raise.
  destruct (song !! "played_at") as [cur |]; [| done].
  destruct (strptime cur); [done |].
  destruct (data' !! (i + 1)%nat) as [n' |], (data !! (i + 1)%nat) as [n |];
    cbn in Hnext; try done.
  injection Hnext as ->. done.
Qed.

Lemma classify_local data data' i song :
  (i < List.length data)%nat → (i < List.length data')%nat →
  (λ d : gmap string value, d !! "played_at") <$> data' !! (i + 1)%nat
  = (λ d : gmap string value, d !! "played_at") <$> data !! (i + 1)%nat →
  classify data' i song = classify data i song.
Proof.
  intros. unfold classify. by rewrite (update_fields_local data data').
Qed.

Lemma settle_failed data i song e :
  song !! "time_taken" = None → update_fields data i song = raise e →
  settle data i song = song.
Proof.
  intros Ht Hu. unfold settle, classify.
  rewrite decide_False by by apply eq_None_not_Some.
  by rewrite Hu.
Qed.

End more_pass.

(** X1. The pass changes nothing but [time_taken]: it keeps the number and
    the order of the documents, every other field of every document, and
    the distinctness of the [_id]s. *)
Theorem pass_only_writes_time_taken
    (data : list (gmap string value)) (elapsed : Z) :
  unique_ids data →
  List.length (after_run data elapsed) = List.length data
  ∧ unique_ids (after_run data elapsed)
  ∧ ∀ i song k, data !! i = Some song → k ≠ "time_taken" →
      ∃ song', after_run data elapsed !! i = Some song'
               ∧ song' !! k = song !! k.
Proof.
  intros Hu. rewrite after_run_settled by done.
  split; [apply length_settle_from |].
  split; [by apply unique_ids_settled |].
  intros i song k Hi Hk. eexists. rewrite lookup_settled, Hi.
  split; [done |]. by apply settle_other_key.
Qed.

Lemma pass_only_writes_time_taken_witness :
  List.length (after_run partly_done 7) = List.length partly_done
  ∧ unique_ids (after_run partly_done 7)
  ∧ ∀ i song k, partly_done !! i = Some song → k ≠ "time_taken" →
      ∃ song', after_run partly_done 7 !! i = Some song'
               ∧ song' !! k = song !! k.
Proof. apply (pass_only_writes_time_taken partly_done 7). ids_distinct. Defined.

(** X2. After the pass the documents that still lack [time_taken] are as
    many as the summary's [errors], and those that carry it as many as
    [updated + skipped]. *)
Theorem errors_are_the_events_left_without_time_taken
    (data : list (gmap string value)) (elapsed : Z) :
  unique_ids data →
  ∃ c' s,
    calculate_time_taken_for_collection (Collection data None) elapsed
    = (c', ok s)
    ∧ List.length
        (filter (λ song : gmap string value, song !! "time_taken" = None)
           (docs c'))
      = errors s
    ∧ List.length
        (filter (λ song : gmap string value, is_Some (song !! "time_taken"))
           (docs c'))
      = (updated s + skipped s)%nat.
Proof.
  intros Hu. destruct (run_spec data elapsed Hu) as [el ->].
  eexists _, _. split; [done |]. cbn [docs errors updated skipped].
  apply count_settled_from.
Qed.

Lemma errors_are_the_events_left_without_time_taken_witness :
  ∃ c' s,
    calculate_time_taken_for_collection (Collection five_bad_third None) 0
    = (c', ok s)
    ∧ List.length
        (filter (λ song : gmap string value, song !! "time_taken" = None)
           (docs c'))
      = errors s
    ∧ List.length
        (filter (λ song : gmap string value, is_Some (song !! "time_taken"))
           (docs c'))
      = (updated s + skipped s)%nat.
Proof.
  apply (errors_are_the_events_left_without_time_taken five_bad_third 0).
  ids_distinct.
Defined.

(** A longer batch that starts like [two_plays]: same first event, same
    [played_at] on the second, everything else different. *)
Definition two_plays_and_more : list (gmap string value) :=
  [ event 1 "2024-01-01 10:05:00" "3:30";
    <[ "time_taken" := VStr "0:10" ]> (event 7 "2024-01-01 10:02:00" "9:59");
    event 8 "2024-01-01 09:00:00" "1:00" ].

(** A batch whose middle event has a [played_at] that is no timestamp. *)
Definition bad_middle : list (gmap string value) :=
  [ event 1 "2024-01-01 10:05:00" "3:30";
    event 2 "yesterday" "4:00";
    event 3 "2024-01-01 09:58:00" "2:45" ].

(** X3. What the pass makes of an event depends only on the event itself,
    on whether it is the last of the batch, and on the [played_at] of the
    event after it: two batches that agree there leave the same document
    at that index. *)
Theorem estimate_depends_on_event_and_next_only
    (data data' : list (gmap string value)) (elapsed elapsed' : Z) (i : nat)
    (song : gmap string value) :
  unique_ids data → unique_ids data' →
  data !! i = Some song → data' !! i = Some song →
  (λ d : gmap string value, d !! "played_at") <$> data' !! (i + 1)%nat
  = (λ d : gmap string value, d !! "played_at") <$> data !! (i + 1)%nat →
  after_run data' elapsed' !! i = after_run data elapsed !! i.
Proof.
  intros Hu Hu' Hi Hi' Hnext.
  rewrite !after_run_settled, !lookup_settled, Hi, Hi' by done.
  cbn. f_equal. unfold settle.
  rewrite (classify_local data data'); [done | | | done];
    by eapply lookup_lt_Some.
Qed.

Lemma estimate_depends_on_event_and_next_only_witness :
  after_run two_plays_and_more 9 !! 0%nat = after_run two_plays 0 !! 0%nat.
Proof.
  apply (estimate_depends_on_event_and_next_only two_plays two_plays_and_more
           0 9 0 (event 1 "2024-01-01 10:05:00" "3:30"));
    first [ids_distinct | by_evaluation].
Defined.

(** X4. A [played_at] that cannot be read costs two events: the event that
    carries it, when it is not the oldest, and the event before it, whose
    own fields are fine, both fail and are left as they were. *)
Theorem unreadable_played_at_fails_two_events
    (data : list (gmap string value)) (elapsed : Z) (i : nat)
    (song bad older : gmap string value) (p : string) (tc : datetime)
    (e : exn) :
  unique_ids data →
  data !! i = Some song → data !! (i + 1)%nat = Some bad →
  data !! (i + 2)%nat = Some older →
  song !! "time_taken" = None → bad !! "time_taken" = None →
  song !! "played_at" = Some (VStr p) → Datetime.strptime p = ok tc →
  (cur ←! getitem bad "played_at"; strptime cur) = raise e →
  update_fields data i song = raise e
  ∧ update_fields data (i + 1) bad = raise e
  ∧ after_run data elapsed !! i = Some song
  ∧ after_run data elapsed !! (i + 1)%nat = Some bad.
Proof.
  intros Hu Hi Hb Ho Ht Htb Hp Htc Hbad.
  assert (update_fields data i song = raise e) as H1.
  { pose proof (lookup_lt_Some _ _ _ Hb) as Hlt.
    unfold update_fields.
    destruct (Z.ltb_spec (Z.of_nat i) (Z.of_nat (List.length data) - 1));
      [| lia].
    unfold getitem at 1. unfold list_getitem, ok.
    rewrite Hp; cbn [bind strptime]. rewrite Htc; cbn [bind ok].
    rewrite Hb; cbn [bind].
    unfold bind in Hbad |- *. by destruct (getitem bad "played_at");
      [injection Hbad as -> | rewrite Hbad]. }
  assert (update_fields data (i + 1) bad = raise e) as H2.
  { replace (i + 2)%nat with (i + 1 + 1)%nat in Ho by lia.
    pose proof (lookup_lt_Some _ _ _ Ho) as Hlt.
    unfold update_fields.
    destruct (Z.ltb_spec (Z.of_nat (i + 1))
                (Z.of_nat (List.length data) - 1)); [| lia].
    unfold bind in Hbad |- *. by destruct (getitem bad "played_at");
      [injection Hbad as -> | rewrite Hbad]. }
  do 2 (split; [done |]).
  rewrite after_run_settled, !lookup_settled, Hi, Hb by done. cbn.
  by rewrite (settle_failed _ _ _ e), (settle_failed _ _ _ e).
Qed.

Lemma unreadable_played_at_fails_two_events_witness :
  update_fields bad_middle 0 (event 1 "2024-01-01 10:05:00" "3:30")
  = raise (ValueError
             "time data 'yesterday' does not match format '%Y-%m-%d %H:%M:%S'")
  ∧ update_fields bad_middle (0 + 1) (event 2 "yesterday" "4:00")
    = raise (ValueError
             "time data 'yesterday' does not match format '%Y-%m-%d %H:%M:%S'")
  ∧ after_run bad_middle 0 !! 0%nat
    = Some (event 1 "2024-01-01 10:05:00" "3:30")
  ∧ after_run bad_middle 0 !! (0 + 1)%nat
    = Some (event 2 "yesterday" "4:00").
Proof.
  apply (unreadable_played_at_fails_two_events bad_middle 0 0
           (event 1 "2024-01-01 10:05:00" "3:30")
           (event 2 "yesterday" "4:00")
           (event 3 "2024-01-01 09:58:00" "2:45")
           "2024-01-01 10:05:00" (Datetime 2024 1 1 10 5 0)
           (ValueError
              "time data 'yesterday' does not match format '%Y-%m-%d %H:%M:%S'"));
    first [ids_distinct | by_evaluation].
Defined.

(** The report that [send_sns] builds from a summary. *)
Definition report (s : summary) : string :=
  "Spotify Time Taken Report" +:+ nl +:+ nl
  +:+ "Status: time_taken calculation completed" +:+ nl +:+ nl
  +:+ "Total Docs: " +:+ str_nat (total_docs s) +:+ nl
  +:+ "Updated: " +:+ str_nat (updated s) +:+ nl
  +:+ "Skipped: " +:+ str_nat (skipped s) +:+ nl
  +:+ "Errors: " +:+ str_nat (errors s) +:+ nl
  +:+ "Elapsed: " +:+ elapsed s +:+ nl +:+ nl.

(** X5. Given a summary, [send_sns] never raises, whatever the publisher
    does; it publishes exactly when a non-empty topic is configured and
    the publisher does not fail, and then to that topic, under the given
    subject, the report of that summary.  Given a text instead, it raises
    [TypeError] exactly when a non-empty topic is configured. *)
Theorem send_sns_outcomes (E : environment) (subject : string) :
  (∀ s, ∃ sent,
     send_sns E subject (PSummary s) = ok sent
     ∧ (is_Some sent ↔
        (∃ a arn, SNS_TOPIC_ARN E = Some (String a arn))
        ∧ publish_error E = None)
     ∧ ∀ n, sent = Some n →
         SNS_TOPIC_ARN E = Some (TopicArn n) ∧ Subject n = subject
         ∧ Message n = report s)
  ∧ ∀ text,
      (send_sns E subject (PStr text)
       = raise (TypeError "string indices must be integers, not 'str'")
       ↔ ∃ a arn, SNS_TOPIC_ARN E = Some (String a arn))
      ∧ (send_sns E subject (PStr text) = ok None
         ∨ send_sns E subject (PStr text)
           = raise (TypeError "string indices must be integers, not 'str'")).
Proof.
  split.
  - intros s. unfold send_sns.
    destruct (SNS_TOPIC_ARN E) as [[| a arn] |] eqn:Harn.
    + exists None. split; [done |]. split; [| done].
      split; [by intros [? ?] | by intros [(? & ? & ?) _]].
    + cbn. destruct (publish_error E) as [pe |] eqn:Hpe.
      * exists None. split; [done |]. split; [| done].
        split; [by intros [? ?] | by intros [_ ?]].
      * eexists. split; [done |]. split.
        -- split; [intros _; split; [by eexists _, _ | done] | by eexists].
        -- by intros n [= <-].
    + exists None. split; [done |]. split; [| done].
      split; [by intros [? ?] | by intros [(? & ? & ?) _]].
  - intros text. unfold send_sns.
    destruct (SNS_TOPIC_ARN E) as [[| a arn] |] eqn:Harn; cbn.
    + split; [| by left]. split; [done | by intros (? & ? & ?)].
    + split; [| by right]. split; [by eexists _, _ | done].
    + split; [| by left]. split; [done | by intros (? & ? & ?)].
Qed.

(** X6. The updater's entry point returns its 200 answer exactly when the
    store can be read; the answer then carries the summary of the pass and
    the store is as the pass left it, whatever happens to the
    notification.  When the store cannot be read the entry point raises
    and the store is untouched.  The client is closed either way. *)
Theorem updater_answers_when_the_store_is_read
    (E : environment) (c : collection) (secs : Z) :
  (find_error c = None →
   ∃ c' s,
     calculate_time_taken_for_collection c secs = (c', ok s)
     ∧ returned (lambda_handler E c secs)
       = ok (Response 200 "time_taken calculation completed" s)
     ∧ storage (lambda_handler E c secs) = c')
  ∧ (∀ e, find_error c = Some e →
     (∃ e', returned (lambda_handler E c secs) = raise e')
     ∧ storage (lambda_handler E c secs) = c
     ∧ published (lambda_handler E c secs) = None)
  ∧ client_closed (lambda_handler E c secs) = true.
Proof.
  destruct c as [data [e |]].
  - split; [done |]. cbn [find_error].
    unfold lambda_handler, calculate_time_taken_for_collection, find_sorted.
    cbn [find_error bind raise].
    destruct (send_sns_outcomes E "Spotify Time Taken Updater FAILED")
      as [_ Htext].
    destruct (Htext ("Updater failed: " +:+ exn_text e)) as [_ [-> | ->]].
    + split; [| done]. intros ? [= <-].
      split; [by eexists |]. done.
    + split; [| done]. intros ? [= <-].
      split; [by eexists |]. done.
  - unfold lambda_handler.
    destruct (run_summary data secs) as (c' & el & ->).
    destruct (send_sns_outcomes E "Spotify Time Taken Updater") as [Hsum _].
    cbn [bind ok].
    match goal with
    | |- context [send_sns E _ (PSummary ?s)] =>
        destruct (Hsum s) as (sent & -> & _)
    end.
    cbn. split; [| done]. intros _. by eexists _, _.
Qed.

(** X7. The summary's [elapsed] is ["00:00"] on an empty store, whatever
    the time spent; otherwise it is the whole seconds spent as
    minutes:seconds, both padded to two digits, the seconds in 0..59, and
    it reads back as those seconds. *)
Theorem elapsed_text_of_the_pass
    (data : list (gmap string value)) (secs : Z) :
  ∃ c' s,
    calculate_time_taken_for_collection (Collection data None) secs
    = (c', ok s)
    ∧ (data = [] → elapsed s = "00:00")
    ∧ (data ≠ [] →
       elapsed s = Py.fmt02 (secs / 60) +:+ ":" +:+ Py.fmt02 (secs mod 60)
       ∧ 0 ≤ secs mod 60 < 60
       ∧ duration_total (VStr (elapsed s)) = ok secs).
Proof.
  unfold calculate_time_taken_for_collection, find_sorted. cbn.
  case_decide as Hd.
  - eexists _, _. split; [done |]. split; [done | by intros []].
  - eexists _, _. split; [done |]. split; [done |]. intros _.
    cbn [elapsed].
    split; [done |]. split; [Z.div_mod_to_equations; lia |].
    change (duration_total
              (VStr (Py.zfill 2 (Py.str (secs / 60)) +:+ ":"
                     +:+ Py.zfill 2 (Py.str (secs mod 60)))) = ok secs).
    rewrite duration_total_padded. f_equal.
    Z.div_mod_to_equations. lia.
Qed.

(** * Properties of the fetcher *)

(** The [played_at] values of the stored documents, and the invariant
    that the upsert key gives the store. *)
Definition played_ats (c : list (gmap string value)) : list value :=
  omap (λ song : gmap string value, song !! "played_at") c.
Definition unique_played_at (c : list (gmap string value)) : Prop :=
  NoDup (played_ats c).

(** The fields that a fetch may overwrite in a stored document. *)
Definition fetched_keys : list string :=
  ["artist"; "title"; "duration"; "album"].

(** [data] is keyed by [key] and has no field beyond the fetched ones. *)
Definition well_keyed (key : value) (data : gmap string value) : Prop :=
  data !! "played_at" = Some key
  ∧ ∀ k, k ∉ fetched_keys → k ≠ "played_at" → data !! k = None.

Section fetcher_store.
Import Fetcher.
Implicit Types (c : list (gmap string value)).
Implicit Types (song data : gmap string value) (key id : value).

Lemma data_of_inv E it data :
  data_of E it = inr data →
  ∃ utc local_time a,
    utc_time (played_at it) = ok utc
    ∧ astimezone E utc = inr local_time
    ∧ head (artists (item_track it)) = Some a
    ∧ data = {[ "artist" := VStr (artist_name a);
                "title" := VStr (name (item_track it));
                "played_at" := VStr (strftime local_time);
                "duration" :=
                  VStr (duration_formatted (duration_ms (item_track it)));
                "album" := VStr (album_name (item_track it)) ]}.
Proof.
  unfold data_of, fbind, lift. intros H.
  destruct (utc_time (played_at it)) as [| utc] eqn:Hutc; [done |].
  destruct (astimezone E utc) as [| local_time] eqn:Hloc; [done |].
  destruct (artists (item_track it)) as [| a l] eqn:Hart; [done |].
  injection H as <-. by eexists _, _, _.
Qed.

Lemma data_of_well_keyed E it data :
  data_of E it = inr data → ∃ p, well_keyed (VStr p) data.
Proof.
  intros (utc & lt & a & _ & _ & _ & ->)%data_of_inv.
  eexists. split; [done |].
  intros k Hk Hp. unfold fetched_keys in Hk.
  rewrite !not_elem_of_cons in Hk. destruct Hk as (? & ? & ? & ? & _).
  rewrite !lookup_insert_ne by congruence.
  apply lookup_singleton_ne. congruence.
Qed.

Lemma upsert_kept c key data id i song :
  well_keyed key data → c !! i = Some song →
  ∃ song', upsert c key data id !! i = Some song'
           ∧ ∀ k, k ∉ fetched_keys → song' !! k = song !! k.
Proof.
  intros [Hkey Hothers]. revert i.
  induction c as [| d c IH]; intros i Hi; [done |].
  cbn [upsert]. case_decide as Hd.
  - destruct i as [| i]; cbn in Hi |- *; [| by eexists].
    injection Hi as ->. eexists. split; [done |]. intros k Hk.
    destruct (decide (k = "played_at")) as [-> | Hp].
    + rewrite Hd. by apply lookup_union_Some_l.
    + by rewrite lookup_union_r by by apply Hothers.
  - destruct i as [| i]; cbn in Hi |- *; [by eexists |]. by apply IH.
Qed.

Lemma upsert_new c key data id i d :
  well_keyed key data → (List.length c ≤ i)%nat →
  upsert c key data id !! i = Some d →
  d !! "time_taken" = None ∧ d !! "played_at" = Some key
  ∧ d !! "_id" = Some id.
Proof.
  intros [Hkey Hothers]. revert i.
  induction c as [| song c IH]; intros i Hi Hd.
  - destruct i as [| i]; [| done]. cbn in Hd. injection Hd as <-.
    rewrite lookup_insert_eq, !lookup_insert_ne by done.
    split; [| split; [by apply lookup_union_Some_l | done]].
    apply lookup_union_None. split; [| done].
    apply Hothers; [| done]. unfold fetched_keys.
    rewrite !not_elem_of_cons. repeat split; try done. apply not_elem_of_nil.
  - cbn [upsert] in Hd. cbn in Hi. case_decide.
    + destruct i as [| i]; [lia |]. cbn in Hd.
      apply lookup_lt_Some in Hd. lia.
    + destruct i as [| i]; [lia |]. cbn in Hd. apply (IH i); [lia | done].
Qed.

Lemma played_ats_upsert c key data id x :
  well_keyed key data →
  x ∈ played_ats (upsert c key data id) → x ∈ played_ats c ∨ x = key.
Proof.
  intros [Hkey Hothers]. unfold played_ats.
  induction c as [| song c IH]; cbn [upsert].
  - cbn. rewrite lookup_insert_ne by done.
    rewrite (lookup_union_Some_l _ _ _ _ Hkey). cbn.
    intros ->%list_elem_of_singleton. by right.
  - case_decide as Hd.
    + cbn. rewrite (lookup_union_Some_l _ _ _ _ Hkey), Hd. cbn. by left.
    + cbn. destruct (song !! "played_at") as [p |]; cbn.
      * intros [-> | Hin]%elem_of_cons; [left; left |].
        destruct (IH Hin) as [? | ?]; [left; by right | by right].
      * done.
Qed.

Lemma upsert_unique c key data id :
  well_keyed key data →
  unique_played_at c → unique_played_at (upsert c key data id).
Proof.
  intros Hw. pose proof Hw as [Hkey Hothers]. unfold unique_played_at.
  induction c as [| song c IH]; cbn [upsert]; intros Hu.
  - unfold played_ats. cbn. rewrite lookup_insert_ne by done.
    rewrite (lookup_union_Some_l _ _ _ _ Hkey). cbn. apply NoDup_singleton.
  - case_decide as Hd.
    + unfold played_ats in *. cbn in Hu |- *.
      rewrite Hd in Hu. by rewrite (lookup_union_Some_l _ _ _ _ Hkey).
    + unfold played_ats in Hu |- *. cbn in Hu |- *.
      destruct (song !! "played_at") as [p |] eqn:Hp; cbn in Hu |- *.
      * apply NoDup_cons in Hu as [Hnin Hu]. apply NoDup_cons.
        split; [| by apply IH].
        intros Hin. apply (played_ats_upsert _ _ _ _ _ Hw) in Hin.
        destruct Hin as [? | ->]; [done | congruence].
      * by apply IH.
Qed.

(** What the loop keeps, from one store to the next. *)
Definition grows (c c' : list (gmap string value)) : Prop :=
  (unique_played_at c → unique_played_at c')
  ∧ (∀ i song, c !! i = Some song →
       ∃ song', c' !! i = Some song'
                ∧ ∀ k, k ∉ fetched_keys → song' !! k = song !! k)
  ∧ (∀ i d, (List.length c ≤ i)%nat → c' !! i = Some d →
       d !! "time_taken" = None).

Lemma grows_refl c : grows c c.
Proof.
  split; [done |]. split; [by eexists |].
  intros i d Hi Hd. apply lookup_lt_Some in Hd. lia.
Qed.

Lemma grows_upsert c key data id :
  well_keyed key data → grows c (upsert c key data id).
Proof.
  intros Hw. split; [by apply upsert_unique |].
  split; [intros; by eapply upsert_kept |].
  intros i d Hi Hd. by eapply upsert_new.
Qed.

Lemma grows_trans c1 c2 c3 : grows c1 c2 → grows c2 c3 → grows c1 c3.
Proof.
  intros (Hu1 & Hk1 & Hn1) (Hu2 & Hk2 & Hn2).
  split; [auto |]. split.
  - intros i song Hi.
    destruct (Hk1 i song Hi) as (song1 & H1 & Hs1).
    destruct (Hk2 i song1 H1) as (song2 & H2 & Hs2).
    exists song2. split; [done |]. intros k Hk.
    by rewrite Hs2, Hs1.
  - intros i d Hi Hd.
    destruct (c2 !! i) as [d2 |] eqn:H2.
    + destruct (Hk2 i d2 H2) as (d' & Hd' & Hs). simplify_eq.
      rewrite Hs; [by eapply Hn1 |].
      unfold fetched_keys. rewrite !not_elem_of_cons.
      repeat split; try done. apply not_elem_of_nil.
    + apply lookup_ge_None in H2. by eapply Hn2.
Qed.

Lemma for_items_grows E items c : grows c (for_items E items c).1.
Proof.
  revert c. induction items as [| it items IH]; intros c.
  - apply grows_refl.
  - cbn [for_items]. unfold fbind, lift.
    destruct (data_of E it) as [e | data] eqn:Hd; [apply grows_refl |].
    destruct (data_of_well_keyed _ _ _ Hd) as [p Hw].
    unfold getitem. rewrite (proj1 Hw). cbn.
    eapply grows_trans; [by apply grows_upsert | apply IH].
Qed.

Lemma fetch_grows E c : grows c (stored_after (fetch_recent_tracks E c)).
Proof.
  unfold fetch_recent_tracks.
  destruct (token ←? get_spotify_client E;
            current_user_recently_played E token) as [e | items].
  - apply grows_refl.
  - pose proof (for_items_grows E items c) as Hg.
    destruct (for_items E items c) as [c' [e | []]]; apply Hg.
Qed.

End fetcher_store.

(** The same surroundings with another notification service. *)
Definition with_publisher (E : Fetcher.environment) (topic : string)
    (failure : option exn) : Fetcher.environment :=
  Fetcher.Environment (Fetcher.REFRESH_TOKEN E)
    (Fetcher.refresh_access_token E)
    (Fetcher.current_user_recently_played E) (Fetcher.astimezone E)
    topic failure (Fetcher.new_id E).

Section fetcher_run.
Import Fetcher.
Implicit Types (c : list (gmap string value)) (items : list item).

Lemma for_items_app E pre rest c :
  for_items E (pre ++ rest) c
  = match for_items E pre c with
    | (c', inr _) => for_items E rest c'
    | (c', inl e) => (c', inl e)
    end.
Proof.
  revert c. induction pre as [| it pre IH]; intros c; [done |].
  cbn [app for_items].
  destruct (data ←? data_of E it; key ←? lift (getitem data "played_at");
            inr (upsert c key data (new_id E c))); [done | apply IH].
Qed.

Lemma for_items_all_ok E items c :
  (∀ it, it ∈ items → ∃ data, data_of E it = inr data) →
  (for_items E items c).2 = inr ().
Proof.
  revert c. induction items as [| it items IH]; intros c Hall; [done |].
  cbn [for_items]. destruct (Hall it) as [data Hd]; [left |].
  destruct (data_of_well_keyed _ _ _ Hd) as [p [Hp _]].
  unfold fbind, lift, getitem. rewrite Hd, Hp. cbn.
  apply IH. intros it' Hin. apply Hall. by right.
Qed.

Lemma for_items_fails_at E bad post c e :
  data_of E bad = inl e → for_items E (bad :: post) c = (c, inl e).
Proof. intros Hd. cbn [for_items]. unfold fbind. by rewrite Hd. Qed.

Lemma played_ats_grows c c' p :
  grows c c' → p ∈ played_ats c → p ∈ played_ats c'.
Proof.
  intros (_ & Hk & _). unfold played_ats.
  rewrite !list_elem_of_omap.
  intros (song & (i & Hi)%list_elem_of_lookup & Hp).
  destruct (Hk i song Hi) as (song' & Hi' & Hs).
  exists song'. split; [by eapply list_elem_of_lookup_2 |].
  rewrite Hs; [done |]. unfold fetched_keys.
  rewrite !not_elem_of_cons. repeat split; try done. apply not_elem_of_nil.
Qed.

Lemma key_in_upsert c key data id :
  well_keyed key data → key ∈ played_ats (upsert c key data id).
Proof.
  intros [Hkey _]. unfold played_ats.
  induction c as [| song c IH]; cbn [upsert].
  - cbn. rewrite lookup_insert_ne by done.
    rewrite (lookup_union_Some_l _ _ _ _ Hkey). cbn. left.
  - case_decide.
    + cbn. rewrite (lookup_union_Some_l _ _ _ _ Hkey). cbn. left.
    + cbn. destruct (song !! "played_at"); cbn; [by right | done].
Qed.

Lemma for_items_stores_all E items c :
  (for_items E items c).2 = inr () →
  ∀ it, it ∈ items →
    ∃ data key, data_of E it = inr data ∧ data !! "played_at" = Some key
                ∧ key ∈ played_ats (for_items E items c).1.
Proof.
  revert c. induction items as [| it items IH]; intros c Hok it' Hin.
  { by apply elem_of_nil in Hin. }
  cbn [for_items] in Hok |- *. unfold fbind, lift in Hok |- *.
  destruct (data_of E it) as [e | data] eqn:Hd; [done |].
  destruct (data_of_well_keyed _ _ _ Hd) as [p Hw].
  unfold getitem in Hok |- *. rewrite (proj1 Hw) in Hok |- *.
  cbn in Hok |- *.
  apply elem_of_cons in Hin as [-> | Hin].
  - exists data, (VStr p). split; [done |]. split; [apply Hw |].
    eapply played_ats_grows; [apply for_items_grows |].
    by apply key_in_upsert.
  - by apply IH.
Qed.

Lemma data_of_with_publisher E topic failure it :
  data_of (with_publisher E topic failure) it = data_of E it.
Proof. done. Qed.

Lemma for_items_with_publisher E topic failure items c :
  for_items (with_publisher E topic failure) items c = for_items E items c.
Proof.
  revert c. induction items as [| it items IH]; intros c; [done |].
  cbn [for_items]. rewrite data_of_with_publisher.
  change (new_id (with_publisher E topic failure) c) with (new_id E c).
  destruct (data ←? data_of E it; key ←? lift (getitem data "played_at");
            inr (upsert c key data (new_id E c))); [done | apply IH].
Qed.

End fetcher_run.

(** Surroundings for the examples: a client that works, the zone of
    Greenwich, and three items of which two share a [played_at]. *)
Definition three_items : list Fetcher.item :=
  [ Fetcher.Item
      (Fetcher.Track [Fetcher.Artist "Nina Simone"] "Sinnerman" 622000
         "Pastel Blues") "2024-01-01T10:05:00.123Z";
    Fetcher.Item
      (Fetcher.Track [Fetcher.Artist "Can"; Fetcher.Artist "Guest"]
         "Vitamin C" 214999 "Ege Bamyasi") "2024-01-01T10:02:00Z";
    Fetcher.Item
      (Fetcher.Track [Fetcher.Artist "Can"] "Vitamin C (live)" 60000
         "Live") "2024-01-01T10:02:00.9Z" ].

Definition surroundings (items : list Fetcher.item) : Fetcher.environment :=
  Fetcher.Environment (Some "refresh") (λ _, inr (Some "access"))
    (λ _, inr items) (λ t, inr t) "arn:aws:sns:ap-southeast-1:1:fetch" None
    (λ c, ObjectId (100 + N.of_nat (List.length c))).

(** A store that already holds the play of 10:02:00, estimated. *)
Definition one_stored : list (gmap string value) :=
  [ <[ "time_taken" := VStr "1:15" ]>
      (<[ "artist" := VStr "Can" ]> (event 2 "2024-01-01 10:02:00" "3:34")) ].

Ltac played_at_distinct :=
  unfold unique_played_at; apply (bool_decide_unpack _); vm_compute; exact I.

(** X8. A fetch keeps the [played_at] values of the store distinct, whether
    it succeeds or fails: items that share a [played_at] with each other or
    with a stored document end up in one document. *)
Theorem fetch_keeps_played_at_unique
    (E : Fetcher.environment) (c : list (gmap string value)) :
  unique_played_at c →
  unique_played_at (Fetcher.stored_after (Fetcher.fetch_recent_tracks E c)).
Proof. apply fetch_grows. Qed.

Lemma fetch_keeps_played_at_unique_witness :
  unique_played_at
    (Fetcher.stored_after
       (Fetcher.fetch_recent_tracks (surroundings three_items) one_stored)).
Proof.
  apply (fetch_keeps_played_at_unique (surroundings three_items) one_stored).
  played_at_distinct.
Defined.

Example three_items_give_two_documents :
  List.length
    (Fetcher.stored_after
       (Fetcher.fetch_recent_tracks (surroundings three_items) one_stored))
  = 2%nat.
Proof. by_evaluation. Qed.

(** X9. A fetch never removes or reorders a stored document and only ever
    overwrites its [artist], [title], [duration] and [album]: [_id],
    [played_at], [time_taken] and any other field stay as they were.  The
    documents it adds have no [time_taken]. *)
Theorem fetch_keeps_estimates_and_ids
    (E : Fetcher.environment) (c : list (gmap string value)) :
  (∀ i song, c !! i = Some song →
     ∃ song',
       Fetcher.stored_after (Fetcher.fetch_recent_tracks E c) !! i
       = Some song'
       ∧ song' !! "_id" = song !! "_id"
       ∧ song' !! "played_at" = song !! "played_at"
       ∧ song' !! "time_taken" = song !! "time_taken"
       ∧ ∀ k, k ∉ fetched_keys → song' !! k = song !! k)
  ∧ (∀ i d, (List.length c ≤ i)%nat →
       Fetcher.stored_after (Fetcher.fetch_recent_tracks E c) !! i = Some d →
       d !! "time_taken" = None).
Proof.
  destruct (fetch_grows E c) as (_ & Hk & Hn). split; [| done].
  intros i song Hi. destruct (Hk i song Hi) as (song' & Hi' & Hs).
  exists song'. split; [done |].
  assert (∀ k, k ≠ "artist" → k ≠ "title" → k ≠ "duration" → k ≠ "album" →
               k ∉ fetched_keys) as Hout.
  { intros k ????. unfold fetched_keys. rewrite !not_elem_of_cons.
    repeat split; try done. apply not_elem_of_nil. }
  repeat split; try (apply Hs, Hout; done). done.
Qed.

(** Three items of which the second has no artist. *)
Definition items_bad_second : list Fetcher.item :=
  [ Fetcher.Item
      (Fetcher.Track [Fetcher.Artist "Nina Simone"] "Sinnerman" 622000
         "Pastel Blues") "2024-01-01T10:05:00.123Z";
    Fetcher.Item (Fetcher.Track [] "Untitled" 1000 "Unknown")
      "2024-01-01T10:02:00Z";
    Fetcher.Item
      (Fetcher.Track [Fetcher.Artist "Can"] "Vitamin C" 214999
         "Ege Bamyasi") "2024-01-01T09:58:00Z" ].

(** X10. The first item that cannot be turned into a document ends the
    fetch: the items before it are stored as if the answer had ended
    there, the items after it are not looked at, the error is raised again
    after the failure notification, and the entry point answers 500 with
    the error's text. *)
Theorem fetch_stops_at_the_first_bad_item
    (E : Fetcher.environment) (c : list (gmap string value))
    (token : string) (pre post : list Fetcher.item) (bad : Fetcher.item)
    (e : Fetcher.error) :
  Fetcher.get_spotify_client E = inr token →
  Fetcher.current_user_recently_played E token = inr (pre ++ bad :: post) →
  (∀ it, it ∈ pre → ∃ data, Fetcher.data_of E it = inr data) →
  Fetcher.data_of E bad = inl e →
  Fetcher.for_items E pre c
  = (Fetcher.stored_after (Fetcher.fetch_recent_tracks E c), inr ())
  ∧ Fetcher.result_of (Fetcher.fetch_recent_tracks E c) = inl e
  ∧ Fetcher.notified (Fetcher.fetch_recent_tracks E c)
    = Fetcher.send_sns_notification E "Spotify Data Fetch Failed"
        ("An error occurred: " +:+ Fetcher.error_text e)
  ∧ (Fetcher.lambda_handler E c).1
    = Fetcher.Answer 500 (Fetcher.error_text e).
Proof.
  intros Hc Hitems Hpre Hbad.
  unfold Fetcher.lambda_handler, Fetcher.fetch_recent_tracks.
  rewrite Hc. cbn [Fetcher.fbind]. rewrite Hitems, for_items_app.
  pose proof (for_items_all_ok E pre c Hpre) as Hok.
  destruct (Fetcher.for_items E pre c) as [c' r]. cbn in Hok. subst r.
  by rewrite (for_items_fails_at E bad post c' e Hbad).
Qed.

Lemma fetch_stops_at_the_first_bad_item_witness :
  Fetcher.for_items (surroundings items_bad_second)
    [ Fetcher.Item
        (Fetcher.Track [Fetcher.Artist "Nina Simone"] "Sinnerman" 622000
           "Pastel Blues") "2024-01-01T10:05:00.123Z" ] one_stored
  = (Fetcher.stored_after
       (Fetcher.fetch_recent_tracks (surroundings items_bad_second)
          one_stored), inr ())
  ∧ Fetcher.result_of
      (Fetcher.fetch_recent_tracks (surroundings items_bad_second)
         one_stored)
    = inl (Fetcher.Builtin (IndexError "list index out of range"))
  ∧ Fetcher.notified
      (Fetcher.fetch_recent_tracks (surroundings items_bad_second)
         one_stored)
    = Fetcher.send_sns_notification (surroundings items_bad_second)
        "Spotify Data Fetch Failed"
        "An error occurred: list index out of range"
  ∧ (Fetcher.lambda_handler (surroundings items_bad_second) one_stored).1
    = Fetcher.Answer 500 "list index out of range".
Proof.
  apply (fetch_stops_at_the_first_bad_item (surroundings items_bad_second)
           one_stored "access"
           [ Fetcher.Item
               (Fetcher.Track [Fetcher.Artist "Nina Simone"] "Sinnerman"
                  622000 "Pastel Blues") "2024-01-01T10:05:00.123Z" ]
           [ Fetcher.Item
               (Fetcher.Track [Fetcher.Artist "Can"] "Vitamin C" 214999
                  "Ege Bamyasi") "2024-01-01T09:58:00Z" ]
           (Fetcher.Item (Fetcher.Track [] "Untitled" 1000 "Unknown")
              "2024-01-01T10:02:00Z")
           (Fetcher.Builtin (IndexError "list index out of range")));
    [reflexivity | reflexivity | | by_evaluation].
  intros it Hin. apply list_elem_of_singleton in Hin as ->.
  eexists. reflexivity.
Defined.

(** A timestamp in neither form: the error that is reported is the one of
    the second format, since the first is caught. *)
Example unreadable_timestamp_is_reported :
  let bad :=
    Fetcher.Item
      (Fetcher.Track [Fetcher.Artist "Can"] "Vitamin C" 214999 "Ege Bamyasi")
      "2024-01-01 09:58:00" in
  Fetcher.lambda_handler (surroundings [bad]) one_stored
  = (Fetcher.Answer 500
       "time data '2024-01-01 09:58:00' does not match format '%Y-%m-%dT%H:%M:%SZ'",
     Fetcher.Run
       (inl (Fetcher.Builtin
               (ValueError
                  "time data '2024-01-01 09:58:00' does not match format '%Y-%m-%dT%H:%M:%SZ'")))
       one_stored
       (Some (Notification "arn:aws:sns:ap-southeast-1:1:fetch"
                "Spotify Data Fetch Failed"
                "An error occurred: time data '2024-01-01 09:58:00' does not match format '%Y-%m-%dT%H:%M:%SZ'"))).
Proof. by_evaluation. Qed.

(** X11. When the client is there and every item of the answer can be
    turned into a document, the fetch succeeds: the entry point answers
    200, the success notification goes out, and every item has a stored
    document with its local [played_at] text. *)
Theorem fetch_stores_every_item
    (E : Fetcher.environment) (c : list (gmap string value))
    (token : string) (items : list Fetcher.item) :
  Fetcher.get_spotify_client E = inr token →
  Fetcher.current_user_recently_played E token = inr items →
  (∀ it, it ∈ items → ∃ data, Fetcher.data_of E it = inr data) →
  (Fetcher.lambda_handler E c).1
  = Fetcher.Answer 200 "Spotify recently played tracks fetched and stored."
  ∧ Fetcher.notified (Fetcher.fetch_recent_tracks E c)
    = Fetcher.send_sns_notification E "Spotify Data Fetch Successful"
        "Recently played tracks have been fetched and stored in MongoDB successfully."
  ∧ ∀ it, it ∈ items →
      ∃ data key,
        Fetcher.data_of E it = inr data
        ∧ data !! "played_at" = Some key
        ∧ key ∈ played_ats
                  (Fetcher.stored_after (Fetcher.fetch_recent_tracks E c)).
Proof.
  intros Hc Hitems Hall.
  unfold Fetcher.lambda_handler, Fetcher.fetch_recent_tracks.
  rewrite Hc. cbn [Fetcher.fbind]. rewrite Hitems.
  pose proof (for_items_all_ok E items c Hall) as Hok.
  pose proof (for_items_stores_all E items c Hok) as Hstored.
  destruct (Fetcher.for_items E items c) as [c' r]. cbn in Hok. subst r.
  done.
Qed.

Lemma fetch_stores_every_item_witness :
  (Fetcher.lambda_handler (surroundings three_items) one_stored).1
  = Fetcher.Answer 200 "Spotify recently played tracks fetched and stored."
  ∧ Fetcher.notified
      (Fetcher.fetch_recent_tracks (surroundings three_items) one_stored)
    = Fetcher.send_sns_notification (surroundings three_items)
        "Spotify Data Fetch Successful"
        "Recently played tracks have been fetched and stored in MongoDB successfully."
  ∧ ∀ it, it ∈ three_items →
      ∃ data key,
        Fetcher.data_of (surroundings three_items) it = inr data
        ∧ data !! "played_at" = Some key
        ∧ key ∈ played_ats
                  (Fetcher.stored_after
                     (Fetcher.fetch_recent_tracks (surroundings three_items)
                        one_stored)).
Proof.
  apply (fetch_stores_every_item (surroundings three_items) one_stored
           "access" three_items); [reflexivity | reflexivity |].
  intros it Hin. unfold three_items in Hin.
  repeat (apply elem_of_cons in Hin as [-> | Hin];
          [eexists; reflexivity |]).
  by apply elem_of_nil in Hin.
Defined.

(** X12. What a fetch answers, raises and stores does not depend on the
    notification service: with another topic, or with a publisher that
    fails, the entry point's answer, the result and the store are the
    same. *)
Theorem fetch_does_not_depend_on_the_notification
    (E : Fetcher.environment) (c : list (gmap string value))
    (topic : string) (failure : option exn) :
  (Fetcher.lambda_handler (with_publisher E topic failure) c).1
  = (Fetcher.lambda_handler E c).1
  ∧ Fetcher.result_of
      (Fetcher.fetch_recent_tracks (with_publisher E topic failure) c)
    = Fetcher.result_of (Fetcher.fetch_recent_tracks E c)
  ∧ Fetcher.stored_after
      (Fetcher.fetch_recent_tracks (with_publisher E topic failure) c)
    = Fetcher.stored_after (Fetcher.fetch_recent_tracks E c).
Proof.
  unfold Fetcher.lambda_handler, Fetcher.fetch_recent_tracks.
  change (Fetcher.get_spotify_client (with_publisher E topic failure))
    with (Fetcher.get_spotify_client E).
  change (Fetcher.current_user_recently_played
            (with_publisher E topic failure))
    with (Fetcher.current_user_recently_played E).
  destruct (Fetcher.fbind (Fetcher.get_spotify_client E)
              (λ token, Fetcher.current_user_recently_played E token))
    as [e | items]; [done |].
  rewrite for_items_with_publisher.
  by destruct (Fetcher.for_items E items c) as [c' [e | []]].
Qed.

(** X13. When the client cannot be had or the Web API call fails, nothing
    is stored, the failure notification carries the error's text and the
    entry point answers 500 with it; without a refresh token that text is
    the one of the missing-token exception and the Web API is not asked. *)
Theorem fetch_without_client_stores_nothing
    (E : Fetcher.environment) (c : list (gmap string value)) :
  (∀ e,
     Fetcher.fbind (Fetcher.get_spotify_client E)
       (λ token, Fetcher.current_user_recently_played E token) = inl e →
     Fetcher.lambda_handler E c
     = (Fetcher.Answer 500 (Fetcher.error_text e),
        Fetcher.Run (inl e) c
          (Fetcher.send_sns_notification E "Spotify Data Fetch Failed"
             ("An error occurred: " +:+ Fetcher.error_text e))))
  ∧ (Fetcher.REFRESH_TOKEN E = None ∨ Fetcher.REFRESH_TOKEN E = Some "" →
     Fetcher.fbind (Fetcher.get_spotify_client E)
       (λ token, Fetcher.current_user_recently_played E token)
     = inl (Fetcher.Exception
              "Refresh token not found. Please authenticate locally and store the refresh token."))
  ∧ (∀ token,
       Fetcher.REFRESH_TOKEN E = Some token → token ≠ "" →
       (Fetcher.refresh_access_token E token = inr None
        ∨ Fetcher.refresh_access_token E token = inr (Some "")) →
       Fetcher.fbind (Fetcher.get_spotify_client E)
         (λ token, Fetcher.current_user_recently_played E token)
       = inl (Fetcher.Exception
                "Failed to refresh access token. Please re-authenticate.")).
Proof.
  split; [| split].
  - intros e He. unfold Fetcher.lambda_handler, Fetcher.fetch_recent_tracks.
    by rewrite He.
  - unfold Fetcher.get_spotify_client. by intros [-> | ->].
  - intros token Ht Hne Hr. unfold Fetcher.get_spotify_client. rewrite Ht.
    destruct token as [| a token]; [done |].
    by destruct Hr as [-> | ->].
Qed.

(** * The texts that pass from the fetcher to the updater *)

(** A date and time that [datetime] accepts. *)
Definition valid_datetime (t : datetime) : Prop :=
  Datetime.check_date_fields (year t) (month t) (day t) = ok ()
  ∧ Datetime.check_time_fields (hour t) (minute t) (second t) = ok ().

(** [l] is [x] followed by further, lesser matches. *)
Definition starts {A} (l : list A) (x : A) : Prop := ∃ tail, l = x :: tail.

(** The text left after a match begins with a digit. *)
Definition digit_led (m : string * string) : Prop :=
  ∃ c r, m.2 = String c r ∧ Py.is_digit c = true.

Section canonical_text.
Import Re.

Lemma starts_bind {A B} (f : A → list B) (l : list A) (x : A) (y : B) :
  starts l x → starts (f x) y → starts (l ≫= f) y.
Proof. intros [t ->] [t' Hy]. cbn. rewrite Hy. by eexists. Qed.

Lemma Z_range_ind (P : Z → Prop) (lo : Z) (n : nat) :
  (∀ k : nat, (k < n)%nat → P (lo + Z.of_nat k)) →
  ∀ v, lo ≤ v < lo + Z.of_nat n → P v.
Proof.
  intros H v Hv. replace v with (lo + Z.of_nat (Z.to_nat (v - lo))) by lia.
  apply H. lia.
Qed.

Lemma valid_ranges (t : datetime) :
  valid_datetime t →
  1 ≤ year t ≤ 9999 ∧ 1 ≤ month t ≤ 12 ∧ 1 ≤ day t ≤ 31
  ∧ 0 ≤ hour t ≤ 23 ∧ 0 ≤ minute t ≤ 59 ∧ 0 ≤ second t ≤ 59.
Proof.
  intros [Hd Ht].
  unfold Datetime.check_date_fields, Datetime.check_time_fields,
    Datetime.MINYEAR, Datetime.MAXYEAR, ok, raise in *.
  repeat (case_match; try discriminate).
  repeat match goal with
         | H : negb _ = false |- _ =>
             apply negb_false_iff, andb_true_iff in H; destruct H
         end.
  assert (Datetime.days_in_month (year t) (month t) ≤ 31).
  { unfold Datetime.days_in_month, Datetime.DAYS_IN_MONTH.
    repeat case_match; lia. }
  lia.
Qed.

Lemma app_String (c : ascii) (a b : string) :
  String c a +:+ b = String c (a +:+ b).
Proof. reflexivity. Qed.

Lemma app_empty (a : string) : a +:+ "" = a.
Proof. induction a as [| c a IH]; [done |]. by rewrite app_String, IH. Qed.

(** The four digits of a year from 1000 on. *)
Lemma str_four_digits (y : Z) :
  1000 ≤ y ≤ 9999 →
  ∃ a b c d,
    Py.str y = String a (String b (String c (String d "")))
    ∧ Py.is_digit a = true ∧ Py.is_digit b = true
    ∧ Py.is_digit c = true ∧ Py.is_digit d = true.
Proof.
  intros Hy. destruct y as [| p | p]; [lia | | lia].
  rewrite str_pos.
  assert (∀ x, Py.is_digit (pretty_N_char (x `mod` 10)) = true) as Hdig.
  { intros x. unfold Py.is_digit.
    by rewrite digit_pretty_N_char by (apply N.mod_lt; lia). }
  assert (∀ x : N, (1 ≤ Z.of_N x)%Z → (0 < x)%N) as Hpos by (intros; lia).
  assert (∀ x : N, Z.of_N (x `div` 10) = Z.of_N x / 10) as Hdiv
    by (intros; by rewrite N2Z.inj_div).
  rewrite pretty_N_go_step by lia.
  rewrite pretty_N_go_step
    by (apply Hpos; rewrite Hdiv; Z.div_mod_to_equations; lia).
  rewrite pretty_N_go_step
    by (apply Hpos; rewrite !Hdiv; Z.div_mod_to_equations; lia).
  rewrite pretty_N_go_step
    by (apply Hpos; rewrite !Hdiv; Z.div_mod_to_equations; lia).
  assert ((((N.pos p `div` 10) `div` 10) `div` 10) `div` 10 = 0)%N as ->.
  { apply N2Z.inj. rewrite !Hdiv. Z.div_mod_to_equations. lia. }
  rewrite pretty_N_go_0. by eexists _, _, _, _.
Qed.

Lemma matches_re_Y (y : Z) (s : string) :
  1000 ≤ y ≤ 9999 →
  matches Datetime.re_Y (Py.str y +:+ s) = [(Py.str y, s)].
Proof.
  intros (a & b & c & d & -> & Ha & Hb & Hc & Hd)%str_four_digits.
  rewrite !app_String.
  unfold Datetime.re_Y, Re.d. cbn [matches].
  rewrite Ha. cbn [mbind list_bind app]. rewrite Hb.
  cbn [mbind list_bind app]. rewrite Hc. cbn [mbind list_bind app].
  rewrite Hd. reflexivity.
Qed.

End canonical_text.

(** One case of a two-digit field: the padded text is the first match, and
    what the lesser matches leave begins with a digit. *)
Ltac first_match_by_evaluation :=
  intros ?; eexists; split;
  [ vm_compute; reflexivity
  | repeat (apply Forall_cons_2; [unfold digit_led; by eexists _, _ |]);
    apply Forall_nil_2 ].

Tactic Notation "each_of" integer(n) tactic3(tac) :=
  intros [| ?k] ?Hk; [tac |];
  do n (try match goal with
            | k : nat |- _ => destruct k as [| k]; [tac |]
            end);
  lia.

Section two_digit_fields.
Import Re.

Lemma matches_re_m (v : Z) :
  1 ≤ v ≤ 12 →
  ∀ s, ∃ tail,
    matches Datetime.re_m (Py.fmt02 v +:+ s) = (Py.fmt02 v, s) :: tail
    ∧ Forall digit_led tail.
Proof.
  intros Hv.
  refine (Z_range_ind
           (λ v, ∀ s, ∃ tail,
              matches Datetime.re_m (Py.fmt02 v +:+ s)
              = (Py.fmt02 v, s) :: tail ∧ Forall digit_led tail)
           1 12 _ v ltac:(lia)).
  each_of 12 first_match_by_evaluation.
Qed.

Lemma matches_re_d (v : Z) :
  1 ≤ v ≤ 31 →
  ∀ s, ∃ tail,
    matches Datetime.re_d (Py.fmt02 v +:+ s) = (Py.fmt02 v, s) :: tail
    ∧ Forall digit_led tail.
Proof.
  intros Hv.
  refine (Z_range_ind
           (λ v, ∀ s, ∃ tail,
              matches Datetime.re_d (Py.fmt02 v +:+ s)
              = (Py.fmt02 v, s) :: tail ∧ Forall digit_led tail) 1 31 _ v ltac:(lia)).
  each_of 31 first_match_by_evaluation.
Qed.

Lemma matches_re_H (v : Z) :
  0 ≤ v ≤ 23 →
  ∀ s, ∃ tail,
    matches Datetime.re_H (Py.fmt02 v +:+ s) = (Py.fmt02 v, s) :: tail
    ∧ Forall digit_led tail.
Proof.
  intros Hv.
  refine (Z_range_ind
           (λ v, ∀ s, ∃ tail,
              matches Datetime.re_H (Py.fmt02 v +:+ s)
              = (Py.fmt02 v, s) :: tail ∧ Forall digit_led tail) 0 24 _ v ltac:(lia)).
  each_of 24 first_match_by_evaluation.
Qed.

Lemma matches_re_M (v : Z) :
  0 ≤ v ≤ 59 →
  ∀ s, ∃ tail,
    matches Datetime.re_M (Py.fmt02 v +:+ s) = (Py.fmt02 v, s) :: tail
    ∧ Forall digit_led tail.
Proof.
  intros Hv.
  refine (Z_range_ind
           (λ v, ∀ s, ∃ tail,
              matches Datetime.re_M (Py.fmt02 v +:+ s)
              = (Py.fmt02 v, s) :: tail ∧ Forall digit_led tail) 0 60 _ v ltac:(lia)).
  each_of 60 first_match_by_evaluation.
Qed.

Lemma matches_re_S (v : Z) :
  0 ≤ v ≤ 59 →
  ∀ s, ∃ tail,
    matches Datetime.re_S (Py.fmt02 v +:+ s) = (Py.fmt02 v, s) :: tail
    ∧ Forall digit_led tail.
Proof.
  intros Hv.
  refine (Z_range_ind
           (λ v, ∀ s, ∃ tail,
              matches Datetime.re_S (Py.fmt02 v +:+ s)
              = (Py.fmt02 v, s) :: tail ∧ Forall digit_led tail) 0 60 _ v ltac:(lia)).
  each_of 60 first_match_by_evaluation.
Qed.

(** The single blank before the hour is the only match of [\s+]. *)
Lemma matches_blank (v : Z) :
  0 ≤ v ≤ 23 →
  ∀ s, matches (Plus Py.re_space) (String " " (Py.fmt02 v +:+ s))
       = [(" ", Py.fmt02 v +:+ s)].
Proof.
  intros Hv.
  refine (Z_range_ind
           (λ v, ∀ s,
              matches (Plus Py.re_space) (String " " (Py.fmt02 v +:+ s))
              = [(" ", Py.fmt02 v +:+ s)]) 0 24 _ v ltac:(lia)).
  each_of 24 ltac:(intros ?; vm_compute; reflexivity).
Qed.

Lemma matches_chr (c : ascii) (s : string) :
  matches (chr c) (String c s) = [(String c "", s)].
Proof. unfold chr. cbn [matches]. by rewrite bool_decide_eq_true_2. Qed.

End two_digit_fields.

Section round_trip.
Import Re.

Lemma strftime_shape (t : datetime) :
  Fetcher.strftime t
  = Py.str (year t)
    +:+ String "-"
          (Py.fmt02 (month t)
           +:+ String "-"
                 (Py.fmt02 (day t)
                  +:+ String " "
                        (Py.fmt02 (hour t)
                         +:+ String ":"
                               (Py.fmt02 (minute t)
                                +:+ String ":"
                                      (Py.fmt02 (second t) +:+ ""))))).
Proof. unfold Fetcher.strftime. by rewrite app_empty. Qed.

Lemma starts_first {A} (x : A) (tail : list A) (l : list A) :
  l = x :: tail → starts l x.
Proof. intros ->. by eexists. Qed.

Lemma format_regex_strftime (t : datetime) :
  valid_datetime t → 1000 ≤ year t →
  starts (Datetime.format_regex (Fetcher.strftime t))
    (Py.str (year t), Py.fmt02 (month t), Py.fmt02 (day t),
     Py.fmt02 (hour t), Py.fmt02 (minute t), Py.fmt02 (second t), "").
Proof.
  intros Hv Hy.
  destruct (valid_ranges t Hv) as (Hyr & Hm & Hd & HH & HM & HS).
  rewrite strftime_shape. unfold Datetime.format_regex.
  eapply starts_bind; [rewrite matches_re_Y by lia; by eexists |].
  cbv beta iota.
  eapply starts_bind; [rewrite matches_chr; by eexists |]. cbv beta iota.
  eapply starts_bind.
  { edestruct (matches_re_m (month t) Hm) as (tl & Heq & _).
    eapply starts_first, Heq. }
  cbv beta iota.
  eapply starts_bind; [rewrite matches_chr; by eexists |]. cbv beta iota.
  eapply starts_bind.
  { edestruct (matches_re_d (day t) Hd) as (tl & Heq & _).
    eapply starts_first, Heq. }
  cbv beta iota.
  eapply starts_bind; [rewrite matches_blank by lia; by eexists |].
  cbv beta iota.
  eapply starts_bind.
  { edestruct (matches_re_H (hour t) HH) as (tl & Heq & _).
    eapply starts_first, Heq. }
  cbv beta iota.
  eapply starts_bind; [rewrite matches_chr; by eexists |]. cbv beta iota.
  eapply starts_bind.
  { edestruct (matches_re_M (minute t) HM) as (tl & Heq & _).
    eapply starts_first, Heq. }
  cbv beta iota.
  eapply starts_bind; [rewrite matches_chr; by eexists |]. cbv beta iota.
  eapply starts_bind.
  { edestruct (matches_re_S (second t) HS) as (tl & Heq & _).
    eapply starts_first, Heq. }
  cbv beta iota. by eexists.
Qed.

Lemma strptime_strftime (t : datetime) :
  valid_datetime t → 1000 ≤ year t →
  Datetime.strptime (Fetcher.strftime t) = ok t.
Proof.
  intros Hv Hy. destruct (format_regex_strftime t Hv Hy) as [tail Heq].
  unfold Datetime.strptime. rewrite Heq.
  rewrite bool_decide_eq_true_2 by done. cbn [negb].
  unfold Py.fmt02. rewrite int_str, !int_zfill_str. cbn [bind ok].
  destruct Hv as [-> ->]. cbn [bind ok]. by destruct t.
Qed.

End round_trip.

(** X14. What the fetcher writes as [played_at], the updater reads back:
    for a valid local date and time of a year from 1000 on, the text of
    [strftime] is accepted by the updater's [strptime], which returns that
    same date and time. *)
Theorem updater_reads_the_played_at_of_the_fetcher (t : datetime) :
  valid_datetime t → 1000 ≤ year t →
  strptime (VStr (Fetcher.strftime t)) = ok t.
Proof. apply strptime_strftime. Qed.

Lemma updater_reads_the_played_at_of_the_fetcher_witness :
  strptime (VStr (Fetcher.strftime (Datetime 2024 2 29 23 59 7)))
  = ok (Datetime 2024 2 29 23 59 7).
Proof.
  apply (updater_reads_the_played_at_of_the_fetcher
           (Datetime 2024 2 29 23 59 7)); [split; reflexivity | cbn; lia].
Defined.

(** Before the year 1000 the text has fewer than four year digits and the
    updater does not accept it. *)
Example played_at_of_the_year_999 :
  Fetcher.strftime (Datetime 999 1 2 3 4 5) = "999-01-02 03:04:05"
  ∧ strptime (VStr (Fetcher.strftime (Datetime 999 1 2 3 4 5)))
    = raise (ValueError
               "time data '999-01-02 03:04:05' does not match format '%Y-%m-%d %H:%M:%S'").
Proof. split; by_evaluation. Qed.

(** ** The two forms of the Web API's timestamps *)

(** The text of a UTC date and time as the Web API writes it, up to the
    seconds. *)
Definition utc_text (t : datetime) : string :=
  Py.str (year t) +:+ "-" +:+ Py.fmt02 (month t) +:+ "-"
  +:+ Py.fmt02 (day t) +:+ "T" +:+ Py.fmt02 (hour t) +:+ ":"
  +:+ Py.fmt02 (minute t) +:+ ":" +:+ Py.fmt02 (second t).

(** The first [n] characters of [s] when they are all digits, and what
    follows them. *)
Fixpoint digits_prefix (n : nat) (s : string) : option (string * string) :=
  match n with
  | O => Some (EmptyString, s)
  | S k =>
      match s with
      | String c r =>
          if Py.is_digit c
          then prod_map (String c) id <$> digits_prefix k r
          else None
      | EmptyString => None
      end
  end.

Section both_formats.
Import Re.

Lemma app_assoc_s (a b c : string) : (a +:+ b) +:+ c = a +:+ (b +:+ c).
Proof. induction a as [| x a IH]; [done |]. by rewrite !app_String, IH. Qed.

Lemma utc_text_shape (t : datetime) (suffix : string) :
  utc_text t +:+ suffix
  = Py.str (year t)
    +:+ String "-"
          (Py.fmt02 (month t)
           +:+ String "-"
                 (Py.fmt02 (day t)
                  +:+ String "T"
                        (Py.fmt02 (hour t)
                         +:+ String ":"
                               (Py.fmt02 (minute t)
                                +:+ String ":"
                                      (Py.fmt02 (second t) +:+ suffix))))).
Proof. unfold utc_text. by rewrite !app_assoc_s. Qed.

Lemma bind_first {A B} (f : A → list B) (l : list A) (x : A)
    (tail : list A) :
  l = x :: tail → Forall (λ y, f y = []) tail → l ≫= f = f x.
Proof.
  intros -> Htail. cbn.
  assert (tail ≫= f = []) as ->; [| by rewrite app_nil_r].
  induction Htail as [| y tail Hy _ IH]; [done |]. cbn. by rewrite Hy, IH.
Qed.

Lemma digit_class (c : ascii) : Py.is_digit c = true →
  Py.re_space c = false
  ∧ (∀ sep, Py.is_digit sep = false → bool_decide (c = sep) = false).
Proof.
  intros Hc. split.
  - revert Hc. by destruct c as [[] [] [] [] [] [] [] []]; vm_compute.
  - intros sep Hsep. apply bool_decide_eq_false_2. congruence.
Qed.

(** After a lesser match of a field no separator follows. *)
Lemma no_chr_after (sep : ascii) (g s : string) :
  Py.is_digit sep = false → digit_led (g, s) → matches (chr sep) s = [].
Proof.
  intros Hsep (c & r & Hs & Hc). cbn in Hs. subst s.
  unfold chr. cbn [matches].
  by rewrite (proj2 (digit_class c Hc) sep Hsep).
Qed.

Lemma no_letter_after (upper lower : ascii) (g s : string) :
  Py.is_digit upper = false → Py.is_digit lower = false →
  digit_led (g, s) → matches (Fetcher.letter upper lower) s = [].
Proof.
  intros Hu Hl (c & r & Hs & Hc). cbn in Hs. subst s.
  unfold Fetcher.letter. cbn [matches].
  by rewrite (proj2 (digit_class c Hc) upper Hu),
    (proj2 (digit_class c Hc) lower Hl).
Qed.

Lemma matches_letter (upper lower : ascii) (s : string) :
  matches (Fetcher.letter upper lower) (String upper s) = [(String upper "", s)].
Proof. unfold Fetcher.letter. cbn [matches]. by rewrite bool_decide_eq_true_2. Qed.

Lemma matches_rep (k : nat) (s : string) :
  matches (Fetcher.rep k (range "0" "9")) s
  = match digits_prefix (S k) s with
    | Some m => [m]
    | None => []
    end.
Proof.
  assert (∀ c, (Py.code "0" <=? Py.code c)%N && (Py.code c <=? Py.code "9")%N
               = Py.is_digit c) as Hcls.
  { intros c. unfold Py.is_digit, Py.digit.
    change (Py.code "0") with 48%N. change (Py.code "9") with 57%N.
    by destruct ((48 <=? Py.code c)%N && (Py.code c <=? 57)%N). }
  assert (∀ c r, matches (range "0" "9") (String c r)
                 = if Py.is_digit c then [(String c "", r)] else []) as Hdg.
  { intros c r. unfold range. cbn [matches]. by rewrite Hcls. }
  revert s. induction k as [| k IH]; intros s.
  - cbn [Fetcher.rep digits_prefix].
    destruct s as [| c r]; [done |]. rewrite Hdg. by case_match.
  - cbn [Fetcher.rep]. cbn [matches].
    destruct s as [| c r]; [done |].
    rewrite Hdg.
    change (digits_prefix (S (S k)) (String c r))
      with (if Py.is_digit c
            then prod_map (String c) id <$> digits_prefix (S k) r
            else None).
    destruct (Py.is_digit c); [| done].
    cbn [mbind list_bind]. rewrite IH, app_nil_r.
    by destruct (digits_prefix (S k) r) as [[p rest] |].
Qed.

Lemma digits_prefix_all (f r : string) :
  Py.all_chars Py.is_digit f = true →
  digits_prefix (String.length f) (f +:+ r) = Some (f, r).
Proof.
  induction f as [| c f IH]; [done |]. cbn [Py.all_chars].
  intros [Hc Hf]%andb_true_iff. rewrite app_String.
  cbn [String.length digits_prefix]. by rewrite Hc, IH.
Qed.

Lemma digits_prefix_short (f r : string) (x : ascii) (n : nat) :
  Py.all_chars Py.is_digit f = true → Py.is_digit x = false →
  (String.length f < n)%nat →
  digits_prefix n (f +:+ String x r) = None.
Proof.
  revert n. induction f as [| c f IH]; intros n.
  - intros _ Hx Hn. destruct n as [| n]; [cbn in Hn; lia |].
    change ("" +:+ String x r) with (String x r).
    cbn [digits_prefix]. by rewrite Hx.
  - cbn [Py.all_chars]. intros [Hc Hf]%andb_true_iff Hx Hn.
    destruct n as [| n]; [lia |]. cbn in Hn.
    rewrite app_String. cbn [digits_prefix]. rewrite Hc.
    by rewrite IH by (done || lia).
Qed.

(** Up to six digits before a letter are the first match of the fraction. *)
Lemma starts_re_f (f r : string) (x : ascii) :
  Py.all_chars Py.is_digit f = true → Py.is_digit x = false →
  (1 ≤ String.length f ≤ 6)%nat →
  starts (matches Fetcher.re_f (f +:+ String x r)) (f, String x r).
Proof.
  intros Hf Hx Hlen. unfold Fetcher.re_f. cbn [matches].
  change (matches (range "0" "9") ?s) with (matches (Fetcher.rep 0 (range "0" "9")) s).
  rewrite !matches_rep.
  pose proof (digits_prefix_all f (String x r) Hf) as Hall.
  pose proof (λ n, digits_prefix_short f r x n Hf Hx) as Hshort.
  assert (String.length f = 1 ∨ String.length f = 2 ∨ String.length f = 3
          ∨ String.length f = 4 ∨ String.length f = 5
          ∨ String.length f = 6)%nat as Hcases by lia.
  repeat destruct Hcases as [Hl | Hcases]; try rename Hcases into Hl;
    rewrite Hl in Hall;
    rewrite ?(Hshort 6%nat), ?(Hshort 5%nat), ?(Hshort 4%nat),
      ?(Hshort 3%nat), ?(Hshort 2%nat) by lia;
    rewrite Hall; cbn [app]; by eexists.
Qed.

End both_formats.

Ltac next_separator :=
  eapply starts_bind; [rewrite ?matches_chr, ?matches_letter; by eexists |];
  cbv beta iota.

Ltac next_field lem H :=
  eapply starts_bind;
  [ edestruct (lem _ H) as (? & ?Heq & _); eapply starts_first, Heq |];
  cbv beta iota.

(** The same steps when every lesser match has to be ruled out. *)
Ltac only_separator :=
  rewrite ?matches_chr, ?matches_letter; cbn [mbind list_bind];
  rewrite app_nil_r; cbv beta iota.

Ltac only_field lem H no_next :=
  let tl := fresh "tl" in
  let Heq := fresh "Heq" in
  let Htl := fresh "Htl" in
  edestruct (lem _ H) as (tl & Heq & Htl);
  erewrite (bind_first _ _ _ tl Heq);
  [ cbv beta iota
  | eapply Forall_impl; [exact Htl |];
    intros [? ?] ?Hled; cbv beta iota;
    by erewrite no_next by (reflexivity || eassumption) ];
  clear tl Heq Htl.

Section utc_forms.
Import Re.

Lemma of_groups_canonical (t : datetime) :
  valid_datetime t →
  Fetcher.of_groups (Py.str (year t)) (Py.fmt02 (month t))
    (Py.fmt02 (day t)) (Py.fmt02 (hour t)) (Py.fmt02 (minute t))
    (Py.fmt02 (second t)) = ok t.
Proof.
  intros [Hd Ht]. unfold Fetcher.of_groups, Py.fmt02.
  rewrite int_str, !int_zfill_str. cbn [bind ok].
  rewrite Hd, Ht. cbn [bind ok]. by destruct t.
Qed.

Lemma format_regex_z_utc (t : datetime) :
  valid_datetime t → 1000 ≤ year t →
  starts (Fetcher.format_regex_z (utc_text t +:+ "Z"))
    (Py.str (year t), Py.fmt02 (month t), Py.fmt02 (day t),
     Py.fmt02 (hour t), Py.fmt02 (minute t), Py.fmt02 (second t), "").
Proof.
  intros Hv Hy.
  destruct (valid_ranges t Hv) as (Hyr & Hm & Hd & HH & HM & HS).
  rewrite utc_text_shape. unfold Fetcher.format_regex_z.
  eapply starts_bind; [rewrite matches_re_Y by lia; by eexists |].
  cbv beta iota.
  next_separator. next_field matches_re_m Hm.
  next_separator. next_field matches_re_d Hd.
  next_separator. next_field matches_re_H HH.
  next_separator. next_field matches_re_M HM.
  next_separator. next_field matches_re_S HS.
  next_separator. by eexists.
Qed.

Lemma format_regex_f_utc (t : datetime) (f : string) :
  valid_datetime t → 1000 ≤ year t →
  Py.all_chars Py.is_digit f = true → (1 ≤ String.length f ≤ 6)%nat →
  starts (Fetcher.format_regex_f (utc_text t +:+ "." +:+ f +:+ "Z"))
    (Py.str (year t), Py.fmt02 (month t), Py.fmt02 (day t),
     Py.fmt02 (hour t), Py.fmt02 (minute t), Py.fmt02 (second t), f, "").
Proof.
  intros Hv Hy Hf Hlen.
  destruct (valid_ranges t Hv) as (Hyr & Hm & Hd & HH & HM & HS).
  rewrite utc_text_shape.
  change ("." +:+ f +:+ "Z") with (String "." (f +:+ String "Z" "")).
  unfold Fetcher.format_regex_f.
  eapply starts_bind; [rewrite matches_re_Y by lia; by eexists |].
  cbv beta iota.
  next_separator. next_field matches_re_m Hm.
  next_separator. next_field matches_re_d Hd.
  next_separator. next_field matches_re_H HH.
  next_separator. next_field matches_re_M HM.
  next_separator. next_field matches_re_S HS.
  next_separator.
  eapply starts_bind; [by apply starts_re_f |]. cbv beta iota.
  next_separator. by eexists.
Qed.

(** Without a fraction the first format has no match at all. *)
Lemma format_regex_f_whole (t : datetime) :
  valid_datetime t → 1000 ≤ year t →
  Fetcher.format_regex_f (utc_text t +:+ "Z") = [].
Proof.
  intros Hv Hy.
  destruct (valid_ranges t Hv) as (Hyr & Hm & Hd & HH & HM & HS).
  rewrite utc_text_shape. unfold Fetcher.format_regex_f.
  rewrite matches_re_Y by lia. cbn [mbind list_bind].
  rewrite app_nil_r. cbv beta iota.
  only_separator. only_field matches_re_m Hm (no_chr_after "-").
  only_separator.
  only_field matches_re_d Hd (no_letter_after "T" "t").
  only_separator. only_field matches_re_H HH (no_chr_after ":").
  only_separator. only_field matches_re_M HM (no_chr_after ":").
  only_separator. only_field matches_re_S HS (no_chr_after ".").
  reflexivity.
Qed.

Lemma all_chars_app (p : ascii → bool) (a b : string) :
  Py.all_chars p (a +:+ b) = Py.all_chars p a && Py.all_chars p b.
Proof.
  induction a as [| c a IH]; [done |].
  rewrite app_String. cbn [Py.all_chars]. rewrite IH. by destruct (p c).
Qed.

Lemma all_chars_zeros (k : nat) : Py.all_chars Py.is_digit (Py.zeros k) = true.
Proof. induction k as [| k IH]; [done |]. cbn. by rewrite IH. Qed.

Lemma int_digits_all_digits (s : string) (acc : Z) (prev : bool) :
  Py.all_chars Py.is_digit s = true → prev = true ∨ s ≠ "" →
  ∃ z, Py.int_digits acc prev s = Some z.
Proof.
  revert acc prev. induction s as [| c r IH]; intros acc prev Hs Hp.
  - destruct Hp as [-> | ?]; [by eexists | done].
  - cbn [Py.all_chars] in Hs. apply andb_true_iff in Hs as [Hc Hr].
    cbn [Py.int_digits]. unfold Py.is_digit in Hc.
    destruct (Py.digit c) as [d |]; [| done]. apply IH; [done | by left].
Qed.

Lemma int_all_digits (s : string) :
  Py.all_chars Py.is_digit s = true → s ≠ "" → ∃ z, Py.int s = ok z.
Proof.
  intros Hs Hne. destruct s as [| c r]; [done |].
  destruct (int_digits_all_digits (String c r) 0 false Hs) as [z Hz];
    [by right |].
  exists z. cbn [Py.all_chars] in Hs. apply andb_true_iff in Hs as [Hc _].
  unfold Py.is_digit in Hc. destruct (Py.digit c) as [d |] eqn:Hd; [| done].
  destruct (digit_not_special _ _ Hd) as (Hsp & Hm & Hp & _).
  by apply int_unsigned.
Qed.

End utc_forms.

(** X15. The fetcher accepts both forms of the Web API's timestamps and
    drops the fraction: for a valid UTC date and time of a year from 1000
    on, the text with [Z] alone is refused by the first format and read by
    the second, the text with a fraction of one to six digits is read by
    the first, and both give that date and time. *)
Theorem both_timestamp_forms_give_the_same_time (t : datetime) :
  valid_datetime t → 1000 ≤ year t →
  Fetcher.strptime_f (utc_text t +:+ "Z")
  = raise (Datetime.does_not_match (utc_text t +:+ "Z")
             "%Y-%m-%dT%H:%M:%S.%fZ")
  ∧ Fetcher.utc_time (utc_text t +:+ "Z") = ok t
  ∧ ∀ f, Py.all_chars Py.is_digit f = true →
         (1 ≤ String.length f ≤ 6)%nat →
         Fetcher.strptime_f (utc_text t +:+ "." +:+ f +:+ "Z") = ok t
         ∧ Fetcher.utc_time (utc_text t +:+ "." +:+ f +:+ "Z") = ok t.
Proof.
  intros Hv Hy.
  assert (Fetcher.strptime_f (utc_text t +:+ "Z")
          = raise (Datetime.does_not_match (utc_text t +:+ "Z")
                     "%Y-%m-%dT%H:%M:%S.%fZ")) as Hf.
  { unfold Fetcher.strptime_f. by rewrite format_regex_f_whole. }
  split; [done |]. split.
  - unfold Fetcher.utc_time. rewrite Hf. unfold raise.
    unfold Fetcher.strptime_z.
    destruct (format_regex_z_utc t Hv Hy) as [tail ->].
    rewrite bool_decide_eq_true_2 by done. cbn [negb].
    by apply of_groups_canonical.
  - intros f Hdig Hlen.
    assert (Fetcher.strptime_f (utc_text t +:+ "." +:+ f +:+ "Z") = ok t)
      as Hfr.
    { unfold Fetcher.strptime_f.
      destruct (format_regex_f_utc t f Hv Hy Hdig Hlen) as [tail ->].
      rewrite bool_decide_eq_true_2 by done. cbn [negb].
      rewrite of_groups_canonical by done. cbn [bind].
      destruct (int_all_digits (f +:+ Py.zeros (6 - String.length f)))
        as [z ->]; [| | done].
      - by rewrite all_chars_app, Hdig, all_chars_zeros.
      - destruct f; [cbn in Hlen; lia | done]. }
    split; [done |]. unfold Fetcher.utc_time. by rewrite Hfr.
Qed.

Lemma both_timestamp_forms_give_the_same_time_witness :
  Fetcher.strptime_f (utc_text (Datetime 2024 2 29 23 59 7) +:+ "Z")
  = raise (ValueError
             "time data '2024-02-29T23:59:07Z' does not match format '%Y-%m-%dT%H:%M:%S.%fZ'")
  ∧ Fetcher.utc_time (utc_text (Datetime 2024 2 29 23 59 7) +:+ "Z")
    = ok (Datetime 2024 2 29 23 59 7)
  ∧ ∀ f, Py.all_chars Py.is_digit f = true →
         (1 ≤ String.length f ≤ 6)%nat →
         Fetcher.strptime_f
           (utc_text (Datetime 2024 2 29 23 59 7) +:+ "." +:+ f +:+ "Z")
         = ok (Datetime 2024 2 29 23 59 7)
         ∧ Fetcher.utc_time
             (utc_text (Datetime 2024 2 29 23 59 7) +:+ "." +:+ f +:+ "Z")
           = ok (Datetime 2024 2 29 23 59 7).
Proof.
  apply (both_timestamp_forms_give_the_same_time
           (Datetime 2024 2 29 23 59 7)); [split; reflexivity | cbn; lia].
Defined.

Example utc_text_of_leap_day :
  utc_text (Datetime 2024 2 29 23 59 7) +:+ "." +:+ "123" +:+ "Z"
  = "2024-02-29T23:59:07.123Z".
Proof. by_evaluation. Qed.

(** * From a fetch to a pass *)

(** X16. A document that the fetcher builds from an item can be read by the
    updater: when the time zone gives a valid local time of a year from
    1000 on, the document has no [time_taken], its [played_at] is read
    back as that local time and its [duration] as the item's milliseconds
    cut to whole seconds. *)
Theorem fetched_document_is_read_by_the_updater
    (E : Fetcher.environment) (it : Fetcher.item)
    (data : gmap string value) :
  Fetcher.data_of E it = inr data →
  (∀ utc local_time,
     Fetcher.utc_time (Fetcher.played_at it) = ok utc →
     Fetcher.astimezone E utc = inr local_time →
     valid_datetime local_time ∧ 1000 ≤ year local_time) →
  data !! "time_taken" = None
  ∧ (∃ utc local_time,
       Fetcher.utc_time (Fetcher.played_at it) = ok utc
       ∧ Fetcher.astimezone E utc = inr local_time
       ∧ (cur ←! getitem data "played_at"; strptime cur) = ok local_time)
  ∧ (dur ←! getitem data "duration"; duration_total dur)
    = ok (Fetcher.duration_ms (Fetcher.item_track it) / 1000).
Proof.
  intros Hd Hzone.
  destruct (data_of_inv _ _ _ Hd) as (utc & lt & a & Hutc & Hlt & _ & ->).
  destruct (Hzone utc lt Hutc Hlt) as [Hv Hy].
  split; [done |]. split.
  - exists utc, lt. do 2 (split; [done |]).
    unfold getitem. rewrite lookup_insert_ne, lookup_insert_ne by done.
    rewrite lookup_insert_eq. cbn [bind ok strptime].
    by apply strptime_strftime.
  - unfold getitem.
    rewrite lookup_insert_ne, lookup_insert_ne, lookup_insert_ne by done.
    rewrite lookup_insert_eq. cbn [bind ok].
    unfold duration_formatted, Py.fmt02. rewrite duration_total_padded.
    f_equal. Z.div_mod_to_equations. lia.
Qed.

Lemma fetched_document_is_read_by_the_updater_witness :
  ∃ data,
    Fetcher.data_of (surroundings three_items)
      (Fetcher.Item
         (Fetcher.Track [Fetcher.Artist "Nina Simone"] "Sinnerman" 622000
            "Pastel Blues") "2024-01-01T10:05:00.123Z") = inr data
    ∧ data !! "time_taken" = None
    ∧ (∃ utc local_time,
         Fetcher.utc_time "2024-01-01T10:05:00.123Z" = ok utc
         ∧ inr utc = (inr local_time : Fetcher.fresult datetime)
         ∧ (cur ←! getitem data "played_at"; strptime cur) = ok local_time)
    ∧ (dur ←! getitem data "duration"; duration_total dur)
      = ok (622000 / 1000).
Proof.
  eexists. split; [reflexivity |].
  apply (fetched_document_is_read_by_the_updater (surroundings three_items)
           (Fetcher.Item
              (Fetcher.Track [Fetcher.Artist "Nina Simone"] "Sinnerman"
                 622000 "Pastel Blues") "2024-01-01T10:05:00.123Z"));
    [reflexivity |].
  intros utc local_time Hutc Hlt. vm_compute in Hutc.
  injection Hutc as <-. injection Hlt as <-.
  split; [split; reflexivity | cbn; lia].
Defined.

(** X17. On events that the fetcher stored the updater does not fail: when
    an event and the next one of the batch carry the [played_at] and
    [duration] that the fetcher made from two items, the update computed
    for the event is the text of [min(gap, ms div 1000)], the gap being
    the difference of the two local times. *)
Theorem updater_estimates_fetched_events
    (E : Fetcher.environment) (it1 it2 : Fetcher.item)
    (data1 data2 : gmap string value) (utc1 utc2 local1 local2 : datetime)
    (batch : list (gmap string value)) (i : nat)
    (song nxt : gmap string value) :
  Fetcher.data_of E it1 = inr data1 → Fetcher.data_of E it2 = inr data2 →
  Fetcher.utc_time (Fetcher.played_at it1) = ok utc1 →
  Fetcher.utc_time (Fetcher.played_at it2) = ok utc2 →
  Fetcher.astimezone E utc1 = inr local1 →
  Fetcher.astimezone E utc2 = inr local2 →
  valid_datetime local1 → 1000 ≤ year local1 →
  valid_datetime local2 → 1000 ≤ year local2 →
  batch !! i = Some song → batch !! (i + 1)%nat = Some nxt →
  song !! "played_at" = data1 !! "played_at" →
  song !! "duration" = data1 !! "duration" →
  nxt !! "played_at" = data2 !! "played_at" →
  update_fields batch i song
  = ok {[ "time_taken" :=
            VStr (time_taken_str
                    (Z.min (Datetime.sub_total_seconds local1 local2)
                       (Fetcher.duration_ms (Fetcher.item_track it1)
                        / 1000))) ]}.
Proof.
  intros Hd1 Hd2 Hu1 Hu2 Hl1 Hl2 Hv1 Hy1 Hv2 Hy2 Hi Hn Hp Hdur Hq.
  destruct (data_of_inv _ _ _ Hd1) as (u1 & l1 & a1 & Hu1' & Hl1' & _ & ->).
  destruct (data_of_inv _ _ _ Hd2) as (u2 & l2 & a2 & Hu2' & Hl2' & _ & ->).
  rewrite Hu1 in Hu1'. injection Hu1' as <-.
  rewrite Hu2 in Hu2'. injection Hu2' as <-.
  rewrite Hl1 in Hl1'. injection Hl1' as <-.
  rewrite Hl2 in Hl2'. injection Hl2' as <-.
  rewrite lookup_insert_ne, lookup_insert_ne, lookup_insert_eq in Hp by done.
  rewrite lookup_insert_ne, lookup_insert_ne, lookup_insert_eq in Hq by done.
  rewrite lookup_insert_ne, lookup_insert_ne, lookup_insert_ne,
    lookup_insert_eq in Hdur by done.
  eapply update_fields_newer; try done.
  - by apply strptime_strftime.
  - by apply strptime_strftime.
  - unfold duration_formatted, Py.fmt02. rewrite duration_total_padded.
    f_equal. Z.div_mod_to_equations. lia.
Qed.

(** The store after the fetch of [three_items] into an empty store, with
    the newer play first. *)
Definition fetched_batch : list (gmap string value) :=
  Fetcher.stored_after (Fetcher.fetch_recent_tracks (surroundings three_items) []).

Example fetched_batch_played_at :
  (λ song : gmap string value, song !! "played_at") <$> fetched_batch
  = [ Some (VStr "2024-01-01 10:05:00"); Some (VStr "2024-01-01 10:02:00") ].
Proof. by_evaluation. Qed.

Lemma updater_estimates_fetched_events_witness :
  ∃ song,
    fetched_batch !! 0%nat = Some song
    ∧ update_fields fetched_batch 0 song
      = ok {[ "time_taken" := VStr "3:00" ]}.
Proof.
  eexists. split; [reflexivity |].
  eapply (updater_estimates_fetched_events (surroundings three_items)
            (Fetcher.Item
               (Fetcher.Track [Fetcher.Artist "Nina Simone"] "Sinnerman"
                  622000 "Pastel Blues") "2024-01-01T10:05:00.123Z")
            (Fetcher.Item
               (Fetcher.Track [Fetcher.Artist "Can"; Fetcher.Artist "Guest"]
                  "Vitamin C" 214999 "Ege Bamyasi") "2024-01-01T10:02:00Z")
            _ _ (Datetime 2024 1 1 10 5 0) (Datetime 2024 1 1 10 2 0)
            (Datetime 2024 1 1 10 5 0) (Datetime 2024 1 1 10 2 0));
    first [reflexivity | split; reflexivity | cbn; lia].
Defined.

(** * The order of the texts and the order of the times *)

(** The seconds from the start of the calendar to [t]. *)
Definition seconds_of (t : datetime) : Z :=
  Datetime.toordinal t * 86400
  + (second t + minute t * 60 + hour t * 3600).

Section calendar.
Import Datetime.

Lemma sub_total_seconds_seconds_of (a b : datetime) :
  sub_total_seconds a b = seconds_of a - seconds_of b.
Proof. unfold sub_total_seconds, seconds_of. lia. Qed.

Lemma year_length (y : Z) :
  days_before_year (y + 1)
  = days_before_year y + 365 + (if is_leap y then 1 else 0).
Proof.
  unfold days_before_year, is_leap. cbn zeta.
  replace (y + 1 - 1) with y by lia.
  destruct (Z.eqb_spec (y mod 4) 0), (Z.eqb_spec (y mod 100) 0),
    (Z.eqb_spec (y mod 400) 0); cbn [negb andb orb];
    Z.div_mod_to_equations; lia.
Qed.

Lemma days_before_year_mono (a b : Z) :
  a ≤ b → days_before_year a ≤ days_before_year b.
Proof.
  intros Hab. unfold days_before_year. cbn zeta.
  Z.div_mod_to_equations. lia.
Qed.

Lemma month_cases (m : Z) :
  1 ≤ m ≤ 12 →
  m = 1 ∨ m = 2 ∨ m = 3 ∨ m = 4 ∨ m = 5 ∨ m = 6 ∨ m = 7 ∨ m = 8 ∨ m = 9
  ∨ m = 10 ∨ m = 11 ∨ m = 12.
Proof. lia. Qed.

Lemma day_of_year_bound (y m d : Z) :
  1 ≤ m ≤ 12 → 1 ≤ d ≤ days_in_month y m →
  1 ≤ days_before_month y m + d ≤ 365 + (if is_leap y then 1 else 0).
Proof.
  intros Hm Hd. apply month_cases in Hm.
  unfold days_before_month, days_in_month in *.
  destruct (is_leap y);
    repeat destruct Hm as [-> | Hm]; try subst m; cbn in Hd |- *; lia.
Qed.

Lemma month_before (y m1 m2 d1 d2 : Z) :
  1 ≤ m1 → m1 < m2 → m2 ≤ 12 →
  1 ≤ d1 ≤ days_in_month y m1 → 1 ≤ d2 →
  days_before_month y m1 + d1 < days_before_month y m2 + d2.
Proof.
  intros H1 H12 H2 Hd1 Hd2.
  assert (1 ≤ m1 ≤ 12) as Hc1 by lia. assert (1 ≤ m2 ≤ 12) as Hc2 by lia.
  apply month_cases in Hc1, Hc2.
  unfold days_before_month, days_in_month in *.
  destruct (is_leap y);
    repeat destruct Hc1 as [-> | Hc1]; try subst m1;
    repeat destruct Hc2 as [-> | Hc2]; try subst m2;
    cbn in Hd1 |- *; lia.
Qed.

(** A date is a year, a month and a day that [datetime] accepts. *)
Lemma date_fields (t : datetime) :
  valid_datetime t →
  1 ≤ year t ∧ 1 ≤ month t ≤ 12
  ∧ 1 ≤ day t ≤ days_in_month (year t) (month t)
  ∧ 0 ≤ second t + minute t * 60 + hour t * 3600 < 86400.
Proof.
  intros [Hd Ht].
  unfold check_date_fields, check_time_fields, MINYEAR, MAXYEAR, ok, raise
    in *.
  repeat (case_match; try discriminate).
  repeat match goal with
         | H : negb _ = false |- _ =>
             apply negb_false_iff, andb_true_iff in H; destruct H
         end.
  lia.
Qed.

(** The ordinal of a date grows with the year, then the month, then the
    day. *)
Lemma ordinal_lt (t1 t2 : datetime) :
  valid_datetime t1 → valid_datetime t2 →
  year t1 < year t2
  ∨ (year t1 = year t2 ∧ month t1 < month t2)
  ∨ (year t1 = year t2 ∧ month t1 = month t2 ∧ day t1 < day t2) →
  toordinal t1 < toordinal t2.
Proof.
  intros (Hy1 & Hm1 & Hd1 & _)%date_fields (Hy2 & Hm2 & Hd2 & _)%date_fields.
  unfold toordinal, ymd2ord.
  pose proof (day_of_year_bound _ _ _ Hm1 Hd1) as Hb1.
  pose proof (day_of_year_bound _ _ _ Hm2 Hd2) as Hb2.
  intros [Hy | [[Hy Hm] | (Hy & Hm & Hd)]].
  - pose proof (year_length (year t1)) as Hlen.
    pose proof (days_before_year_mono (year t1 + 1) (year t2)) as Hmono.
    lia.
  - rewrite Hy in *.
    pose proof (month_before (year t2) (month t1) (month t2) (day t1)
                  (day t2)).
    lia.
  - rewrite Hy, Hm in *. lia.
Qed.

End calendar.

(** The number that a text of digits writes. *)
Fixpoint digits_val (s : string) : Z :=
  match s with
  | EmptyString => 0
  | String c r =>
      default 0 (Py.digit c) * 10 ^ Z.of_nat (String.length r)
      + digits_val r
  end.

Section text_order.

Lemma compare_app (a b s1 s2 : string) :
  String.length a = String.length b →
  String.compare (a +:+ s1) (b +:+ s2)
  = match String.compare a b with
    | Eq => String.compare s1 s2
    | c => c
    end.
Proof.
  revert b. induction a as [| x a IH]; intros [| y b] Hlen; try done.
  rewrite !app_String. cbn [String.compare].
  destruct (Ascii.compare x y); [| done ..].
  apply IH. by injection Hlen.
Qed.

Lemma compare_same_head (c : ascii) (s1 s2 : string) :
  String.compare (String c s1) (String c s2) = String.compare s1 s2.
Proof.
  cbn [String.compare]. unfold Ascii.compare. by rewrite N.compare_refl.
Qed.

Lemma digit_code (c : ascii) (d : Z) :
  Py.digit c = Some d → Z.of_N (N_of_ascii c) = d + 48 ∧ 0 ≤ d ≤ 9.
Proof.
  unfold Py.digit, Py.code.
  destruct (N.leb_spec 48 (N_of_ascii c)), (N.leb_spec (N_of_ascii c) 57);
    cbn [andb]; intros [= <-]; lia.
Qed.

Lemma digits_val_bound (s : string) :
  Py.all_chars Py.is_digit s = true →
  0 ≤ digits_val s < 10 ^ Z.of_nat (String.length s).
Proof.
  induction s as [| c r IH]; [done |]. cbn [Py.all_chars].
  intros [Hc Hr]%andb_true_iff. specialize (IH Hr).
  cbn [digits_val String.length].
  unfold Py.is_digit in Hc. destruct (Py.digit c) as [d |] eqn:Hd; [| done].
  apply digit_code in Hd as [_ Hd]. cbn [from_option id].
  rewrite Nat2Z.inj_succ, Z.pow_succ_r by lia.
  set (P := 10 ^ Z.of_nat (String.length r)) in *.
  assert (0 ≤ d * P ≤ 9 * P) by (split; [| apply Z.mul_le_mono_nonneg_r]; lia).
  lia.
Qed.

(** Texts of digits of one length are ordered as their numbers. *)
Lemma compare_digits (a b : string) :
  Py.all_chars Py.is_digit a = true → Py.all_chars Py.is_digit b = true →
  String.length a = String.length b →
  String.compare a b = (digits_val a ?= digits_val b).
Proof.
  revert b. induction a as [| x a IH]; intros [| y b]; try done.
  cbn [Py.all_chars]. intros [Hx Ha]%andb_true_iff [Hy Hb]%andb_true_iff Hlen.
  injection Hlen as Hlen.
  pose proof (digits_val_bound a Ha) as Hba.
  pose proof (digits_val_bound b Hb) as Hbb.
  unfold Py.is_digit in Hx, Hy.
  cbn [String.compare digits_val]. unfold Ascii.compare.
  destruct (Py.digit x) as [dx |] eqn:Hdx; [| done].
  destruct (Py.digit y) as [dy |] eqn:Hdy; [| done].
  apply digit_code in Hdx as [Hcx Hrx], Hdy as [Hcy Hry].
  cbn [from_option id].
  rewrite <- N2Z.inj_compare, Hcx, Hcy. rewrite Hlen in Hba |- *.
  set (P := 10 ^ Z.of_nat (String.length b)) in *.
  destruct (Z.compare_spec (dx + 48) (dy + 48)) as [Heq | Hlt | Hgt].
  - assert (dx = dy) as -> by lia. rewrite (IH b Ha Hb Hlen).
    destruct (Z.compare_spec (digits_val a) (digits_val b));
      symmetry; [apply Z.compare_eq_iff | apply Z.compare_lt_iff
                | apply Z.compare_gt_iff]; lia.
  - symmetry. apply Z.compare_lt_iff.
    assert ((dx + 1) * P ≤ dy * P) by (apply Z.mul_le_mono_nonneg_r; lia).
    lia.
  - symmetry. apply Z.compare_gt_iff.
    assert ((dy + 1) * P ≤ dx * P) by (apply Z.mul_le_mono_nonneg_r; lia).
    lia.
Qed.

Lemma int_digits_val (s : string) (acc : Z) (prev : bool) :
  Py.all_chars Py.is_digit s = true → prev = true ∨ s ≠ "" →
  Py.int_digits acc prev s
  = Some (acc * 10 ^ Z.of_nat (String.length s) + digits_val s).
Proof.
  revert acc prev. induction s as [| c r IH]; intros acc prev Hs Hp.
  - destruct Hp as [-> | ?]; [| done]. cbn. f_equal. lia.
  - cbn [Py.all_chars] in Hs. apply andb_true_iff in Hs as [Hc Hr].
    cbn [Py.int_digits digits_val String.length]. unfold Py.is_digit in Hc.
    destruct (Py.digit c) as [d |]; [| done].
    rewrite IH by (done || by left). cbn [from_option id]. f_equal.
    rewrite Nat2Z.inj_succ, Z.pow_succ_r by lia. lia.
Qed.

Lemma int_is_digits_val (s : string) :
  Py.all_chars Py.is_digit s = true → s ≠ "" →
  Py.int s = ok (digits_val s).
Proof.
  intros Hs Hne. destruct s as [| c r]; [done |].
  pose proof (int_digits_val (String c r) 0 false Hs (or_intror Hne)) as Hz.
  cbn [Py.all_chars] in Hs. apply andb_true_iff in Hs as [Hc _].
  unfold Py.is_digit in Hc. destruct (Py.digit c) as [d |] eqn:Hd; [| done].
  destruct (digit_not_special _ _ Hd) as (Hsp & Hm & Hp & _).
  apply int_unsigned; [done .. |]. rewrite Hz. by f_equal.
Qed.

(** A padded field is two digits that write its number. *)
Lemma fmt02_digits (v : Z) :
  0 ≤ v ≤ 59 →
  Py.all_chars Py.is_digit (Py.fmt02 v) = true
  ∧ String.length (Py.fmt02 v) = 2%nat
  ∧ digits_val (Py.fmt02 v) = v.
Proof.
  intros Hv.
  refine (Z_range_ind
            (λ v, Py.all_chars Py.is_digit (Py.fmt02 v) = true
                  ∧ String.length (Py.fmt02 v) = 2%nat
                  ∧ digits_val (Py.fmt02 v) = v) 0 60 _ v ltac:(lia)).
  each_of 60 (vm_compute; by repeat split).
Qed.

Lemma str_year_digits (y : Z) :
  1000 ≤ y ≤ 9999 →
  Py.all_chars Py.is_digit (Py.str y) = true
  ∧ String.length (Py.str y) = 4%nat
  ∧ digits_val (Py.str y) = y.
Proof.
  intros Hy.
  destruct (str_four_digits y Hy) as (a & b & c & d & Heq & Ha & Hb & Hc & Hd).
  assert (Py.all_chars Py.is_digit (Py.str y) = true) as Hall.
  { rewrite Heq. cbn. by rewrite Ha, Hb, Hc, Hd. }
  split; [done |]. split; [by rewrite Heq |].
  pose proof (int_str y) as Hint.
  rewrite int_is_digits_val in Hint; [by injection Hint | done |].
  by rewrite Heq.
Qed.

End text_order.

Section played_at_order.

(** Two fields of digits of one length, each followed by the same
    separator, are compared as numbers before what follows them. *)
Lemma compare_field (a1 a2 : string) (c : ascii) (s1 s2 : string) :
  Py.all_chars Py.is_digit a1 = true → Py.all_chars Py.is_digit a2 = true →
  String.length a1 = String.length a2 →
  String.compare (a1 +:+ String c s1) (a2 +:+ String c s2)
  = match digits_val a1 ?= digits_val a2 with
    | Eq => String.compare s1 s2
    | o => o
    end.
Proof.
  intros H1 H2 Hlen.
  by rewrite compare_app, compare_digits, compare_same_head.
Qed.

Lemma compare_last_field (a1 a2 : string) :
  Py.all_chars Py.is_digit a1 = true → Py.all_chars Py.is_digit a2 = true →
  String.length a1 = String.length a2 →
  String.compare (a1 +:+ "") (a2 +:+ "")
  = (digits_val a1 ?= digits_val a2).
Proof.
  intros H1 H2 Hlen. rewrite compare_app, compare_digits by done.
  by destruct (digits_val a1 ?= digits_val a2).
Qed.

Lemma compare_strftime (t1 t2 : datetime) :
  valid_datetime t1 → valid_datetime t2 →
  1000 ≤ year t1 → 1000 ≤ year t2 →
  String.compare (Fetcher.strftime t1) (Fetcher.strftime t2)
  = match year t1 ?= year t2 with
    | Eq =>
        match month t1 ?= month t2 with
        | Eq =>
            match day t1 ?= day t2 with
            | Eq =>
                match hour t1 ?= hour t2 with
                | Eq =>
                    match minute t1 ?= minute t2 with
                    | Eq => second t1 ?= second t2
                    | o => o
                    end
                | o => o
                end
            | o => o
            end
        | o => o
        end
    | o => o
    end.
Proof.
  intros Hv1 Hv2 Hy1 Hy2.
  destruct (valid_ranges t1 Hv1) as (Hyr1 & Hm1 & Hd1 & HH1 & HM1 & HS1).
  destruct (valid_ranges t2 Hv2) as (Hyr2 & Hm2 & Hd2 & HH2 & HM2 & HS2).
  destruct (str_year_digits (year t1)) as (Ya1 & Yl1 & <-); [lia |].
  destruct (str_year_digits (year t2)) as (Ya2 & Yl2 & <-); [lia |].
  destruct (fmt02_digits (month t1)) as (ma1 & ml1 & <-); [lia |].
  destruct (fmt02_digits (month t2)) as (ma2 & ml2 & <-); [lia |].
  destruct (fmt02_digits (day t1)) as (da1 & dl1 & <-); [lia |].
  destruct (fmt02_digits (day t2)) as (da2 & dl2 & <-); [lia |].
  destruct (fmt02_digits (hour t1)) as (ha1 & hl1 & <-); [lia |].
  destruct (fmt02_digits (hour t2)) as (ha2 & hl2 & <-); [lia |].
  destruct (fmt02_digits (minute t1)) as (na1 & nl1 & <-); [lia |].
  destruct (fmt02_digits (minute t2)) as (na2 & nl2 & <-); [lia |].
  destruct (fmt02_digits (second t1)) as (sa1 & sl1 & <-); [lia |].
  destruct (fmt02_digits (second t2)) as (sa2 & sl2 & <-); [lia |].
  rewrite !strftime_shape.
  rewrite !compare_field by congruence.
  by rewrite compare_last_field by congruence.
Qed.

(** The order of the fields is the order of the seconds. *)
Lemma fields_order_is_seconds_order (t1 t2 : datetime) :
  valid_datetime t1 → valid_datetime t2 →
  match year t1 ?= year t2 with
  | Eq =>
      match month t1 ?= month t2 with
      | Eq =>
          match day t1 ?= day t2 with
          | Eq =>
              match hour t1 ?= hour t2 with
              | Eq =>
                  match minute t1 ?= minute t2 with
                  | Eq => second t1 ?= second t2
                  | o => o
                  end
              | o => o
              end
          | o => o
          end
      | o => o
      end
  | o => o
  end = (seconds_of t1 ?= seconds_of t2).
Proof.
  intros Hv1 Hv2.
  pose proof (ordinal_lt t1 t2 Hv1 Hv2) as H12.
  pose proof (ordinal_lt t2 t1 Hv2 Hv1) as H21.
  destruct (valid_ranges t1 Hv1) as (_ & _ & _ & HH1 & HM1 & HS1).
  destruct (valid_ranges t2 Hv2) as (_ & _ & _ & HH2 & HM2 & HS2).
  unfold seconds_of.
  assert (year t1 = year t2 → month t1 = month t2 → day t1 = day t2 →
          Datetime.toordinal t1 = Datetime.toordinal t2) as Hsame.
  { unfold Datetime.toordinal. by intros -> -> ->. }
  destruct (Z.compare_spec (year t1) (year t2));
    [| symmetry; apply Z.compare_lt_iff; lia
     | symmetry; apply Z.compare_gt_iff; lia].
  destruct (Z.compare_spec (month t1) (month t2));
    [| symmetry; apply Z.compare_lt_iff; lia
     | symmetry; apply Z.compare_gt_iff; lia].
  destruct (Z.compare_spec (day t1) (day t2));
    [| symmetry; apply Z.compare_lt_iff; lia
     | symmetry; apply Z.compare_gt_iff; lia].
  rewrite Hsame by done.
  destruct (Z.compare_spec (hour t1) (hour t2));
    [| symmetry; apply Z.compare_lt_iff; lia
     | symmetry; apply Z.compare_gt_iff; lia].
  destruct (Z.compare_spec (minute t1) (minute t2));
    [| symmetry; apply Z.compare_lt_iff; lia
     | symmetry; apply Z.compare_gt_iff; lia].
  destruct (Z.compare_spec (second t1) (second t2)); symmetry;
    [apply Z.compare_eq_iff | apply Z.compare_lt_iff
    | apply Z.compare_gt_iff]; lia.
Qed.

End played_at_order.

(** X18. The [played_at] texts that the fetcher writes are ordered as the
    times they stand for: for valid dates and times of the years 1000 to
    9999, comparing two texts character by character gives what comparing
    the two times gives, so a sort on the text is a sort on the time. *)
Theorem played_at_texts_sort_like_times (t1 t2 : datetime) :
  valid_datetime t1 → valid_datetime t2 →
  1000 ≤ year t1 → 1000 ≤ year t2 →
  String.compare (Fetcher.strftime t1) (Fetcher.strftime t2)
  = (seconds_of t1 ?= seconds_of t2)
  ∧ Datetime.sub_total_seconds t1 t2 = seconds_of t1 - seconds_of t2.
Proof.
  intros Hv1 Hv2 Hy1 Hy2. split.
  - rewrite compare_strftime by done.
    by apply fields_order_is_seconds_order.
  - apply sub_total_seconds_seconds_of.
Qed.

Lemma played_at_texts_sort_like_times_witness :
  String.compare (Fetcher.strftime (Datetime 2024 3 1 0 0 0))
    (Fetcher.strftime (Datetime 2024 2 29 23 59 59))
  = (seconds_of (Datetime 2024 3 1 0 0 0)
     ?= seconds_of (Datetime 2024 2 29 23 59 59))
  ∧ Datetime.sub_total_seconds (Datetime 2024 3 1 0 0 0)
      (Datetime 2024 2 29 23 59 59)
    = seconds_of (Datetime 2024 3 1 0 0 0)
      - seconds_of (Datetime 2024 2 29 23 59 59).
Proof.
  apply (played_at_texts_sort_like_times (Datetime 2024 3 1 0 0 0)
           (Datetime 2024 2 29 23 59 59));
    first [split; reflexivity | cbn; lia].
Defined.

(** X19. In a batch that is in descending order of the [played_at] text,
    as the sort leaves it, an event with texts written by the fetcher has
    no negative gap: with a duration that is not negative, the estimate
    that the updater computes lies between 0 and the duration, is at most
    the gap, and its text reads back as it. *)
Theorem sorted_events_get_an_estimate_within_the_duration
    (batch : list (gmap string value)) (i : nat)
    (song nxt : gmap string value) (t1 t2 : datetime) (dv : value)
    (dur : Z) :
  batch !! (i + 1)%nat = Some nxt →
  song !! "played_at" = Some (VStr (Fetcher.strftime t1)) →
  nxt !! "played_at" = Some (VStr (Fetcher.strftime t2)) →
  valid_datetime t1 → valid_datetime t2 →
  1000 ≤ year t1 → 1000 ≤ year t2 →
  String.leb (Fetcher.strftime t2) (Fetcher.strftime t1) = true →
  song !! "duration" = Some dv → duration_total dv = ok dur → 0 ≤ dur →
  ∃ estimate,
    update_fields batch i song
    = ok {[ "time_taken" := VStr (time_taken_str estimate) ]}
    ∧ 0 ≤ estimate ≤ dur
    ∧ estimate ≤ Datetime.sub_total_seconds t1 t2
    ∧ duration_total (VStr (time_taken_str estimate)) = ok estimate.
Proof.
  intros Hn Hp Hq Hv1 Hv2 Hy1 Hy2 Hle Hd Hdur Hpos.
  exists (Z.min (Datetime.sub_total_seconds t1 t2) dur).
  assert (0 ≤ Datetime.sub_total_seconds t1 t2) as Hgap.
  { rewrite sub_total_seconds_seconds_of.
    unfold String.leb in Hle.
    rewrite compare_strftime, fields_order_is_seconds_order in Hle by done.
    destruct (Z.compare_spec (seconds_of t2) (seconds_of t1)); [lia .. |].
    discriminate. }
  split.
  - eapply update_fields_newer; try done; by apply strptime_strftime.
  - split; [lia |]. split; [lia |]. apply duration_total_time_taken_str.
Qed.

Lemma sorted_events_get_an_estimate_within_the_duration_witness :
  ∃ estimate,
    update_fields fetched_batch 0
      (<[ "_id" := ObjectId 100 ]>
         (<[ "played_at" := VStr (Fetcher.strftime (Datetime 2024 1 1 10 5 0)) ]>
            {[ "duration" := VStr "10:22" ]}))
    = ok {[ "time_taken" := VStr (time_taken_str estimate) ]}
    ∧ 0 ≤ estimate ≤ 622
    ∧ estimate
      ≤ Datetime.sub_total_seconds (Datetime 2024 1 1 10 5 0)
          (Datetime 2024 1 1 10 2 0)
    ∧ duration_total (VStr (time_taken_str estimate)) = ok estimate.
Proof.
  eapply (sorted_events_get_an_estimate_within_the_duration fetched_batch 0
            _ _ (Datetime 2024 1 1 10 5 0) (Datetime 2024 1 1 10 2 0)
            (VStr "10:22") 622);
    first [reflexivity | split; reflexivity | cbn; lia].
Defined.

(** * Fetching the same answer again *)

(** The upserts of a fetch, one per document made from an item. *)
Fixpoint upserts (fresh : list (gmap string value) → value)
    (ds : list (value * gmap string value)) (c : list (gmap string value))
  : list (gmap string value) :=
  match ds with
  | [] => c
  | (key, data) :: rest =>
      upserts fresh rest (Fetcher.upsert c key data (fresh c))
  end.

(** The documents that the items of an answer give, each with its key. *)
Definition keyed (E : Fetcher.environment) (items : list Fetcher.item)
  : list (value * gmap string value) :=
  omap (λ it,
          match Fetcher.data_of E it with
          | inr data => (λ key, (key, data)) <$> data !! "played_at"
          | inl _ => None
          end) items.

(** The last document of [ds] that is keyed by [key]. *)
Fixpoint last_for (key : value) (ds : list (value * gmap string value))
  : option (gmap string value) :=
  match ds with
  | [] => None
  | (k, data) :: rest =>
      match last_for key rest with
      | Some later => Some later
      | None => if decide (k = key) then Some data else None
      end
  end.

(** What one upsert does to a stored document, and what a row of them
    does. *)
Definition overwrite_one (key : value) (data song : gmap string value)
  : gmap string value :=
  if decide (song !! "played_at" = Some key) then data ∪ song else song.

Fixpoint overwrite (ds : list (value * gmap string value))
    (song : gmap string value) : gmap string value :=
  match ds with
  | [] => song
  | (key, data) :: rest => overwrite rest (overwrite_one key data song)
  end.

(** [data] has every field that the fetcher writes. *)
Definition full (data : gmap string value) : Prop :=
  ∀ k, k ∈ "played_at" :: fetched_keys → is_Some (data !! k).

Section refetch.
Import Fetcher.
Implicit Types (c : list (gmap string value)).
Implicit Types (ds : list (value * gmap string value)).
Implicit Types (song data : gmap string value) (key : value).

Definition fetched ds : Prop :=
  Forall (λ kd : value * gmap string value, well_keyed kd.1 kd.2 ∧ full kd.2)
    ds.

Lemma data_of_full E it data : data_of E it = inr data → full data.
Proof.
  intros (utc & lt & a & _ & _ & _ & ->)%data_of_inv k Hk.
  unfold fetched_keys in Hk. rewrite !elem_of_cons in Hk.
  destruct Hk as [-> | [-> | [-> | [-> | [-> | Hk]]]]];
    [by eexists .. |]. by apply elem_of_nil in Hk.
Qed.

Lemma keyed_fetched E items : fetched (keyed E items).
Proof.
  unfold fetched, keyed. induction items as [| it items IH]; [done |].
  cbn. destruct (data_of E it) as [e | data] eqn:Hd; [done |].
  destruct (data_of_well_keyed _ _ _ Hd) as [p Hw].
  rewrite (proj1 Hw). cbn. apply Forall_cons_2; [| done].
  split; [done |]. by eapply data_of_full.
Qed.

Lemma for_items_upserts E items c :
  (∀ it, it ∈ items → ∃ data, data_of E it = inr data) →
  for_items E items c = (upserts (new_id E) (keyed E items) c, inr ()).
Proof.
  revert c. induction items as [| it items IH]; intros c Hall; [done |].
  cbn [for_items]. destruct (Hall it) as [data Hd]; [left |].
  destruct (data_of_well_keyed _ _ _ Hd) as [p [Hp _]].
  unfold keyed. cbn [omap list_omap]. fold (keyed E items).
  unfold fbind, lift, getitem. rewrite Hd, Hp. cbn.
  apply IH. intros it' Hin. apply Hall. by right.
Qed.

Lemma upserts_app fresh ds1 ds2 c :
  upserts fresh (ds1 ++ ds2) c = upserts fresh ds2 (upserts fresh ds1 c).
Proof.
  revert c. induction ds1 as [| [k d] ds1 IH]; intros c; [done |]. apply IH.
Qed.

Lemma upserts_unique fresh ds c :
  fetched ds → unique_played_at c → unique_played_at (upserts fresh ds c).
Proof.
  intros Hds. revert c. induction Hds as [| [k d] ds [Hw _] _ IH]; [done |].
  intros c Hu. cbn [upserts]. apply IH. by apply upsert_unique.
Qed.

Lemma last_for_snoc key ds k data :
  last_for key (ds ++ [(k, data)])
  = if decide (k = key) then Some data else last_for key ds.
Proof.
  induction ds as [| [k' d'] ds IH]; cbn [app last_for].
  - by case_decide.
  - rewrite IH. case_decide; [done |]. by destruct (last_for key ds).
Qed.

(** A later document of the fetcher covers an earlier one. *)
Lemma later_covers data data' song :
  (∀ k, k ∉ fetched_keys → k ≠ "played_at" → data !! k = None) →
  full data' → data' ∪ (data ∪ song) = data' ∪ song.
Proof.
  intros Hdata Hfull. apply map_eq. intros k.
  destruct (decide (k ∈ "played_at" :: fetched_keys)) as [Hin | Hout].
  - destruct (Hfull k Hin) as [v Hv].
    by rewrite !(lookup_union_Some_l _ _ _ _ Hv).
  - apply not_elem_of_cons in Hout as [Hp Hk].
    rewrite !lookup_union.
    rewrite (Hdata k Hk Hp). by destruct (data' !! k), (song !! k).
Qed.

Lemma overwrite_one_key key data song :
  well_keyed key data →
  overwrite_one key data song !! "played_at" = song !! "played_at".
Proof.
  intros [Hkey _]. unfold overwrite_one. case_decide as Hs; [| done].
  rewrite Hs. by apply lookup_union_Some_l.
Qed.

(** A row of upserts leaves in a document the fields of the last one that
    is keyed like it. *)
Lemma overwrite_last ds song key :
  fetched ds → song !! "played_at" = Some key →
  overwrite ds song
  = match last_for key ds with
    | Some data => data ∪ song
    | None => song
    end.
Proof.
  intros Hds. revert song.
  induction Hds as [| [k d] ds [Hw Hf] Hds IH]; intros song Hs; [done |].
  cbn [overwrite last_for fst snd] in *.
  rewrite IH by by rewrite overwrite_one_key.
  unfold overwrite_one. rewrite Hs.
  destruct (last_for key ds) as [later |] eqn:Hl.
  - case_decide; [| done]. apply later_covers; [apply Hw |].
    clear IH. induction Hds as [| [k' d'] ds [_ Hf'] _ IH']; [done |].
    cbn [last_for] in Hl.
    destruct (last_for key ds) as [l' |]; [simplify_eq; by apply IH' |].
    case_decide; by simplify_eq.
  - case_decide as Hk1; case_decide as Hk2; try done; congruence.
Qed.

Lemma overwrite_no_key ds song :
  song !! "played_at" = None → overwrite ds song = song.
Proof.
  intros Hs. induction ds as [| [k d] ds IH]; [done |].
  cbn [overwrite]. unfold overwrite_one. rewrite Hs.
  by rewrite decide_False.
Qed.

Lemma played_ats_fmap_overwrite_one key data c :
  well_keyed key data →
  played_ats (overwrite_one key data <$> c) = played_ats c.
Proof.
  intros Hw. unfold played_ats. induction c as [| song c IH]; [done |].
  cbn. by rewrite overwrite_one_key, IH.
Qed.

(** On a store that has the key, an upsert is an overwrite. *)
Lemma upsert_present c key data id :
  well_keyed key data → unique_played_at c → key ∈ played_ats c →
  upsert c key data id = overwrite_one key data <$> c.
Proof.
  intros Hw. unfold unique_played_at, played_ats.
  induction c as [| song c IH]; intros Hu Hin.
  { by apply elem_of_nil in Hin. }
  cbn [upsert fmap list_fmap]. unfold overwrite_one at 1.
  cbn in Hu, Hin. case_decide as Hs.
  - f_equal. rewrite Hs in Hu. cbn in Hu.
    apply NoDup_cons in Hu as [Hnin _]. clear IH Hin.
    induction c as [| x c IH]; [done |]. cbn in Hnin |- *.
    unfold overwrite_one at 1.
    destruct (x !! "played_at") as [p |] eqn:Hp; cbn in Hnin.
    + apply not_elem_of_cons in Hnin as [Hne Hnin].
      rewrite decide_False by congruence. f_equal. by apply IH.
    + rewrite decide_False by done. f_equal. by apply IH.
  - f_equal. destruct (song !! "played_at") as [p |]; cbn in Hu, Hin.
    + apply NoDup_cons in Hu as [_ Hu].
      apply elem_of_cons in Hin as [-> | Hin]; [done |]. by apply IH.
    + by apply IH.
Qed.

Lemma upserts_present ds c :
  fetched ds → unique_played_at c →
  (∀ kd, kd ∈ ds → kd.1 ∈ played_ats c) →
  ∀ fresh, upserts fresh ds c = overwrite ds <$> c.
Proof.
  intros Hds. revert c.
  induction Hds as [| [k d] ds [Hw _] _ IH]; intros c Hu Hkeys fresh.
  - cbn. by rewrite list_fmap_id.
  - cbn [upserts overwrite fst snd] in *.
    rewrite upsert_present; [| done | done | apply (Hkeys (k, d)); left].
    rewrite IH.
    + by rewrite <- list_fmap_compose.
    + unfold unique_played_at. by rewrite played_ats_fmap_overwrite_one.
    + intros kd Hin. rewrite played_ats_fmap_overwrite_one by done.
      apply Hkeys. by right.
Qed.

(** After an upsert the documents keyed by its key hold its fields, and
    the others are as before. *)
Lemma upsert_elem c key data id song :
  well_keyed key data → unique_played_at c →
  song ∈ upsert c key data id →
  (song !! "played_at" = Some key ∧ data ∪ song = song)
  ∨ (song !! "played_at" ≠ Some key ∧ song ∈ c).
Proof.
  intros Hw. pose proof Hw as [Hkey Hothers].
  unfold unique_played_at, played_ats.
  assert (∀ x : gmap string value, data ∪ (data ∪ x) = data ∪ x) as Hidem.
  { intros x. by rewrite (assoc_L (∪)), (idemp_L (∪)). }
  induction c as [| x c IH]; intros Hu Hin; cbn [upsert] in Hin.
  - apply list_elem_of_singleton in Hin as ->. left. split.
    + rewrite lookup_insert_ne by done. by apply lookup_union_Some_l.
    + apply map_eq. intros k. rewrite lookup_union.
      destruct (decide (k = "_id")) as [-> | Hk].
      * rewrite lookup_insert_eq.
        rewrite Hothers; [done | | done]. unfold fetched_keys.
        rewrite !not_elem_of_cons. repeat split; try done.
        apply not_elem_of_nil.
      * rewrite lookup_insert_ne by done. rewrite lookup_union.
        by destruct (data !! k), ({[ "played_at" := key ]} !! k).
  - cbn in Hu. case_decide as Hx.
    + rewrite Hx in Hu. cbn in Hu. apply NoDup_cons in Hu as [Hnin Hu].
      apply elem_of_cons in Hin as [-> | Hin].
      * left. split; [by apply lookup_union_Some_l | apply Hidem].
      * right. split; [| by right]. intros Hs. apply Hnin.
        apply list_elem_of_omap. by exists song.
    + apply elem_of_cons in Hin as [-> | Hin]; [right; split; [done | left] |].
      destruct (IH) as [? | [? ?]]; [| done | by left | right; split; [done | by right]].
      by destruct (x !! "played_at"); [apply NoDup_cons in Hu as [_ ?] |].
Qed.

(** What a fetch leaves is settled: every document keyed like one of the
    answer holds the fields of the last such one. *)
Lemma upserts_settled fresh ds c :
  fetched ds → unique_played_at c →
  ∀ song key data,
    song ∈ upserts fresh ds c → song !! "played_at" = Some key →
    last_for key ds = Some data → data ∪ song = song.
Proof.
  revert c. induction ds as [| [k d] ds IH] using rev_ind;
    intros c Hds Hu song key data Hin Hs Hl; [done |].
  apply Forall_app in Hds as [Hds [[Hw Hf] _]%Forall_cons_1].
  cbn [fst snd] in *.
  rewrite upserts_app in Hin. cbn [upserts] in Hin.
  rewrite last_for_snoc in Hl.
  pose proof (upserts_unique fresh ds c Hds Hu) as Hu'.
  destruct (upsert_elem _ _ _ _ _ Hw Hu' Hin) as [[Hk Hcov] | [Hk Hin']].
  - rewrite Hk in Hs. injection Hs as <-.
    rewrite decide_True in Hl by done. by injection Hl as <-.
  - rewrite decide_False in Hl by congruence.
    exact (IH c Hds Hu song key data Hin' Hs Hl).
Qed.

End refetch.

Section refetch_run.
Import Fetcher.
Implicit Types (c : list (gmap string value)) (items : list item).

Lemma last_for_app key (ds1 ds2 : list (value * gmap string value)) :
  last_for key (ds1 ++ ds2)
  = match last_for key ds2 with
    | Some data => Some data
    | None => last_for key ds1
    end.
Proof.
  induction ds1 as [| [k d] ds1 IH]; cbn [app last_for].
  - by destruct (last_for key ds2).
  - rewrite IH. by destruct (last_for key ds2).
Qed.

Lemma last_for_elem key (ds : list (value * gmap string value)) data :
  last_for key ds = Some data → (key, data) ∈ ds.
Proof.
  induction ds as [| [k d] ds IH]; [done |]. cbn [last_for].
  destruct (last_for key ds) as [later |].
  - intros [= <-]. right. by apply IH.
  - case_decide as Hk; [| done]. intros [= <-]. subst k. left.
Qed.

Lemma keyed_app E items1 items2 :
  keyed E (items1 ++ items2) = keyed E items1 ++ keyed E items2.
Proof. apply omap_app. Qed.

Lemma keyed_elem E items kd :
  kd ∈ keyed E items →
  ∃ it, it ∈ items ∧ data_of E it = inr kd.2
        ∧ kd.2 !! "played_at" = Some kd.1.
Proof.
  unfold keyed. intros (it & Hin & Hkd)%list_elem_of_omap.
  exists it. split; [done |].
  destruct (data_of E it) as [e | data]; [done |].
  destruct (data !! "played_at") as [key |] eqn:Hkey; [| done].
  cbn in Hkd. by simplify_eq.
Qed.

Lemma keyed_none E items key :
  (∀ it data, it ∈ items → data_of E it = inr data →
     data !! "played_at" ≠ Some key) →
  last_for key (keyed E items) = None.
Proof.
  intros Hnone.
  destruct (last_for key (keyed E items)) as [data |] eqn:Hl; [| done].
  apply last_for_elem, keyed_elem in Hl as (it & Hin & Hd & Hk).
  by destruct (Hnone it data Hin Hd).
Qed.

Lemma keyed_present E items c kd :
  (∀ it, it ∈ items → ∃ data, data_of E it = inr data) →
  kd ∈ keyed E items → kd.1 ∈ played_ats (for_items E items c).1.
Proof.
  intros Hall (it & Hin & Hd & Hk)%keyed_elem.
  destruct (for_items_stores_all E items c (for_items_all_ok E items c Hall)
              it Hin) as (data & key & Hd' & Hk' & Hp).
  rewrite Hd in Hd'. injection Hd' as <-. rewrite Hk in Hk'.
  by injection Hk' as <-.
Qed.

Lemma fetched_again E items c :
  unique_played_at c →
  (∀ it, it ∈ items → ∃ data, data_of E it = inr data) →
  for_items E items (for_items E items c).1 = for_items E items c.
Proof.
  intros Hu Hall.
  pose proof (keyed_present E items c) as Hkeys.
  rewrite (for_items_upserts E items c Hall) in Hkeys |- *.
  cbn [fst] in *.
  rewrite for_items_upserts by done. f_equal.
  set (ds := keyed E items) in *.
  set (c1 := upserts (new_id E) ds c) in *.
  pose proof (keyed_fetched E items) as Hds. fold ds in Hds.
  rewrite upserts_present;
    [| done | by apply upserts_unique | intros; by apply Hkeys].
  apply list_eq. intros i. rewrite list_lookup_fmap.
  destruct (c1 !! i) as [song |] eqn:Hi; [| done]. cbn. f_equal.
  destruct (song !! "played_at") as [key |] eqn:Hk.
  - rewrite (overwrite_last ds song key Hds Hk).
    destruct (last_for key ds) as [data |] eqn:Hl; [| done].
    eapply (upserts_settled (new_id E) ds c Hds Hu song key data);
      [| done | done].
    by eapply list_elem_of_lookup_2.
  - by apply overwrite_no_key.
Qed.

End refetch_run.

(** X20. Fetching the same answer a second time changes nothing: when the
    [played_at] values of the store are distinct and every item of the
    answer gives a document, the store after a second run over the same
    answer is the store after the first, and both runs succeed.  The
    [update_one] with [upsert] finds every key of the answer in the store
    and writes the fields that are already there. *)
Theorem second_fetch_changes_nothing
    (E : Fetcher.environment) (c : list (gmap string value))
    (token : string) (items : list Fetcher.item) :
  unique_played_at c →
  Fetcher.get_spotify_client E = inr token →
  Fetcher.current_user_recently_played E token = inr items →
  (∀ it, it ∈ items → ∃ data, Fetcher.data_of E it = inr data) →
  Fetcher.fetch_recent_tracks E
    (Fetcher.stored_after (Fetcher.fetch_recent_tracks E c))
  = Fetcher.fetch_recent_tracks E c
  ∧ Fetcher.result_of (Fetcher.fetch_recent_tracks E c) = inr ().
Proof.
  intros Hu Hc Hitems Hall.
  unfold Fetcher.fetch_recent_tracks.
  rewrite Hc. cbn [Fetcher.fbind]. rewrite Hitems.
  pose proof (fetched_again E items c Hu Hall) as Hagain.
  pose proof (for_items_all_ok E items c Hall) as Hok.
  destruct (Fetcher.for_items E items c) as [c1 r] eqn:Hrun.
  cbn [fst snd] in *. subst r. cbn [Fetcher.stored_after].
  by rewrite Hagain.
Qed.

Lemma second_fetch_changes_nothing_witness :
  Fetcher.fetch_recent_tracks (surroundings three_items)
    (Fetcher.stored_after
       (Fetcher.fetch_recent_tracks (surroundings three_items) one_stored))
  = Fetcher.fetch_recent_tracks (surroundings three_items) one_stored
  ∧ Fetcher.result_of
      (Fetcher.fetch_recent_tracks (surroundings three_items) one_stored)
    = inr ().
Proof.
  apply (second_fetch_changes_nothing (surroundings three_items) one_stored
           "access" three_items);
    [played_at_distinct | reflexivity | reflexivity |].
  intros it Hin. unfold three_items in Hin.
  repeat (apply elem_of_cons in Hin as [-> | Hin];
          [eexists; reflexivity |]).
  by apply elem_of_nil in Hin.
Defined.

(** X21. Of the items of an answer that share a [played_at], the last one
    is the one stored: when no later item of the answer gives the same
    [played_at] as [it], then after a successful fetch the store has a
    document with that [played_at], and every document with it holds the
    artist, title, duration and album of [it]. *)
Theorem last_item_of_a_played_at_is_stored
    (E : Fetcher.environment) (c : list (gmap string value))
    (token : string) (pre post : list Fetcher.item) (it : Fetcher.item)
    (data : gmap string value) (key : value) :
  unique_played_at c →
  Fetcher.get_spotify_client E = inr token →
  Fetcher.current_user_recently_played E token = inr (pre ++ it :: post) →
  (∀ it', it' ∈ pre ++ it :: post →
     ∃ data', Fetcher.data_of E it' = inr data') →
  Fetcher.data_of E it = inr data →
  data !! "played_at" = Some key →
  (∀ it' data', it' ∈ post → Fetcher.data_of E it' = inr data' →
     data' !! "played_at" ≠ Some key) →
  let stored := Fetcher.stored_after (Fetcher.fetch_recent_tracks E c) in
  (∃ song, song ∈ stored ∧ song !! "played_at" = Some key)
  ∧ ∀ song, song ∈ stored → song !! "played_at" = Some key →
      ∀ k v, data !! k = Some v → song !! k = Some v.
Proof.
  intros Hu Hc Hitems Hall Hd Hkey Hlater stored. subst stored.
  unfold Fetcher.fetch_recent_tracks.
  rewrite Hc. cbn [Fetcher.fbind]. rewrite Hitems.
  pose proof (keyed_present E (pre ++ it :: post) c (key, data) Hall)
    as Hpresent.
  rewrite (for_items_upserts E _ c Hall) in Hpresent |- *.
  cbn [fst Fetcher.stored_after] in *.
  assert (keyed E [it] = [(key, data)]) as Hit.
  { unfold keyed. cbn. by rewrite Hd, Hkey. }
  assert (last_for key (keyed E (pre ++ it :: post)) = Some data) as Hlast.
  { change (it :: post) with ([it] ++ post).
    rewrite !keyed_app, !last_for_app, (keyed_none E post key Hlater), Hit.
    cbn. by rewrite decide_True. }
  split.
  - unfold played_ats in Hpresent.
    rewrite list_elem_of_omap in Hpresent. apply Hpresent.
    change (it :: post) with ([it] ++ post).
    rewrite !keyed_app, Hit. apply elem_of_app. right.
    apply elem_of_app. left. left.
  - intros song Hin Hs k v Hv.
    rewrite <- (upserts_settled (Fetcher.new_id E) _ c
                  (keyed_fetched E _) Hu song key data Hin Hs Hlast).
    by apply lookup_union_Some_l.
Qed.

Lemma last_item_of_a_played_at_is_stored_witness :
  let stored :=
    Fetcher.stored_after
      (Fetcher.fetch_recent_tracks (surroundings three_items) one_stored) in
  (∃ song, song ∈ stored
           ∧ song !! "played_at" = Some (VStr "2024-01-01 10:02:00"))
  ∧ ∀ song, song ∈ stored →
      song !! "played_at" = Some (VStr "2024-01-01 10:02:00") →
      ∀ k v,
        ({[ "artist" := VStr "Can"; "title" := VStr "Vitamin C (live)";
            "played_at" := VStr "2024-01-01 10:02:00";
            "duration" := VStr "01:00"; "album" := VStr "Live" ]}
           : gmap string value) !! k = Some v →
        song !! k = Some v.
Proof.
  apply (last_item_of_a_played_at_is_stored (surroundings three_items)
           one_stored "access" (take 2 three_items) []
           (Fetcher.Item
              (Fetcher.Track [Fetcher.Artist "Can"] "Vitamin C (live)" 60000
                 "Live") "2024-01-01T10:02:00.9Z"));
    [played_at_distinct | reflexivity | reflexivity | | by_evaluation
    | reflexivity | by intros ? ? ?%elem_of_nil].
  intros it Hin. cbn in Hin.
  repeat (apply elem_of_cons in Hin as [-> | Hin];
          [eexists; reflexivity |]).
  by apply elem_of_nil in Hin.
Defined.
